(** * MP-QUIC / FEC core: a shallow embedding and its checked properties

    The development follows the layout of the C++ sources:

    - [fec_frame.cpp]             the on-wire frame codec;
    - [fec_encoder.cpp]           the block encoder and decoder;
    - [packet_hook.cpp]           the group manager and the send/receive hooks;
    - [path_scheduler.cpp]        the path scheduler;
    - [oco_controller.cpp]        the correlation matrix and redundancy controller;
    - [mpquic_fec_controller.cpp] the controller that wires them together.

    Conventions.  [uint8_t], [uint32_t], [uint64_t] and [size_t] values are
    integers of [Z] with the wrap-around written where the C++ arithmetic can
    wrap.  A [std::vector] is a [list].  A [std::map] is an association list
    kept in ascending key order, so that iteration visits the entries in the
    order the C++ container does.  A [double] is idealised as a rational of
    [Q]: no rounding, no infinities, no NaN.  A function that can throw
    returns a [result]; a member function that mutates its object takes the
    object and returns the new one. *)

From Stdlib Require Import ZArith QArith Qround Qabs List Bool Lia Lqa.
Import ListNotations.

Open Scope Z_scope.

(** ** Results of functions that can throw *)

(** The exceptions of the sources, one constructor per message thrown.  The
    sources throw [std::invalid_argument] and [std::runtime_error] only; the
    specification's ShortHeader, ShortPayload and NoPathsAvailable are
    [Insufficient_header], [Insufficient_payload] and [No_paths_available]. *)
Inductive exn : Type :=
| Invalid_k_m              (* "k and m must be greater than 0" *)
| Expected_k_blocks        (* "Expected <k> data blocks" *)
| Block_size_mismatch      (* "Block size mismatch" *)
| Not_enough_blocks        (* "Not enough blocks to decode (need at least k=...)" *)
| Block_count_mismatch     (* "Block count mismatch" *)
| Insufficient_header      (* "Insufficient data for FEC header" *)
| Insufficient_payload     (* "Insufficient data for FEC frame payload" *)
| No_paths_available.      (* std::runtime_error("No paths available") *)

Inductive result (A : Type) : Type :=
| Ok (a : A)
| Err (e : exn).

Arguments Ok {A} a.
Arguments Err {A} e.

Definition is_ok {A : Type} (r : result A) : bool :=
  match r with Ok _ => true | Err _ => false end.

(** ** Fixed-width unsigned integers *)

Definition wrap8 (x : Z) : Z := x mod 2 ^ 8.
Definition wrap32 (x : Z) : Z := x mod 2 ^ 32.
Definition wrap64 (x : Z) : Z := x mod 2 ^ 64.

Definition is_uint32 (x : Z) : Prop := 0 <= x < 2 ^ 32.
Definition is_uint64 (x : Z) : Prop := 0 <= x < 2 ^ 64.

Definition len {A : Type} (l : list A) : Z := Z.of_nat (length l).

(** ** [std::map]: association lists in ascending key order *)

Section OrderedMap.

Context {K V : Type}.
Variable cmp : K -> K -> comparison.

(** [m.find(k)] *)
Fixpoint find (k : K) (m : list (K * V)) : option V :=
  match m with
  | [] => None
  | (k', v) :: m' =>
      match cmp k k' with
      | Eq => Some v
      | _ => find k m'
      end
  end.

(** [m[k] = v] *)
Fixpoint insert (k : K) (v : V) (m : list (K * V)) : list (K * V) :=
  match m with
  | [] => [(k, v)]
  | (k', v') :: m' =>
      match cmp k k' with
      | Lt => (k, v) :: (k', v') :: m'
      | Eq => (k, v) :: m'
      | Gt => (k', v') :: insert k v m'
      end
  end.

(** [m.erase(k)] *)
Fixpoint erase (k : K) (m : list (K * V)) : list (K * V) :=
  match m with
  | [] => []
  | (k', v') :: m' =>
      match cmp k k' with
      | Eq => m'
      | _ => (k', v') :: erase k m'
      end
  end.

Definition contains (k : K) (m : list (K * V)) : bool :=
  match find k m with Some _ => true | None => false end.

End OrderedMap.

Definition keys {K V : Type} (m : list (K * V)) : list K := map fst m.
Definition values {K V : Type} (m : list (K * V)) : list V := map snd m.

(** Keys of type [uint32_t] or [uint64_t], and of type
    [std::pair<uint32_t, uint32_t>] (compared lexicographically). *)
Definition zmap (V : Type) : Type := list (Z * V).

Definition pair_compare (a b : Z * Z) : comparison :=
  match Z.compare (fst a) (fst b) with
  | Eq => Z.compare (snd a) (snd b)
  | c => c
  end.

Definition pmap (V : Type) : Type := list ((Z * Z) * V).

Definition zfind {V : Type} := @find Z V Z.compare.
Definition zinsert {V : Type} := @insert Z V Z.compare.
Definition zerase {V : Type} := @erase Z V Z.compare.
Definition zcontains {V : Type} := @contains Z V Z.compare.
Definition pfind {V : Type} := @find (Z * Z) V pair_compare.
Definition pinsert {V : Type} := @insert (Z * Z) V pair_compare.
Definition perase {V : Type} := @erase (Z * Z) V pair_compare.

(** ** [double] arithmetic, idealised over the rationals *)

Definition Qltb (a b : Q) : bool :=
  match Qcompare a b with Lt => true | _ => false end.

(** [std::max(a, b)] is [(a < b) ? b : a]; [std::min(a, b)] is
    [(b < a) ? b : a]. *)
Definition dmax (a b : Q) : Q := if Qltb a b then b else a.
Definition dmin (a b : Q) : Q := if Qltb b a then b else a.

(** [std::abs] on a [double]. *)
Definition dabs (a : Q) : Q := Qabs a.

(** [static_cast<uint32_t>(std::ceil(x))]: exact when the ceiling lies in
    the range of [uint32_t] (the C++ conversion is undefined outside it; the
    model wraps). *)
Definition ceil_to_uint32 (x : Q) : Z := wrap32 (Qceiling x).

(** ** fec_frame.cpp: the frame codec *)

Module Frame.

(** [enum class FrameType : uint8_t]; any byte is a value of the type, which
    is what [static_cast<FrameType>] relies on when parsing. *)
Definition FrameType := Z.
Definition STREAM_FRAME : FrameType := 0x08.
Definition FEC_SOURCE_FRAME : FrameType := 0xF0.
Definition FEC_REPAIR_FRAME : FrameType := 0xF1.

Record FECFrameHeader : Type := mkHeader {
  frame_type : FrameType;
  group_id : Z;
  block_index : Z;
  total_blocks : Z;
  payload_length : Z
}.

Record FECFrame : Type := mkFrame {
  header : FECFrameHeader;
  payload : list Z
}.

Definition HEADER_SIZE : Z := 25.

(** [for (int i = n-1; i >= 0; --i) data[offset++] = (x >> (i*8)) & 0xFF;] *)
Fixpoint be_bytes (n : nat) (x : Z) : list Z :=
  match n with
  | O => []
  | S i => Z.land (Z.shiftr x (Z.of_nat i * 8)) 0xFF :: be_bytes i x
  end.

(** One step of a big-endian read into a [w]-bit unsigned field:
    [field = (field << 8) | data[offset++];] *)
Definition be_step (w : Z) (acc b : Z) : Z :=
  (Z.lor (Z.shiftl acc 8) b) mod 2 ^ w.

Definition be_read (w : Z) (bytes : list Z) : Z :=
  fold_left (be_step w) bytes 0.

(** Writing [bytes] at offset 0 of the freshly allocated, zero-filled
    [std::vector<uint8_t> data(HEADER_SIZE)]. *)
Definition write_prefix (bytes : list Z) (data : list Z) : list Z :=
  bytes ++ skipn (length bytes) data.

Definition header_serialize (h : FECFrameHeader) : list Z :=
  write_prefix
    ([wrap8 (frame_type h)]
       ++ be_bytes 8 (group_id h)
       ++ be_bytes 4 (block_index h)
       ++ be_bytes 4 (total_blocks h)
       ++ be_bytes 4 (payload_length h))
    (repeat 0 (Z.to_nat HEADER_SIZE)).

Definition slice (data : list Z) (off n : nat) : list Z :=
  firstn n (skipn off data).

Definition header_deserialize (data : list Z) : result FECFrameHeader :=
  if len data <? HEADER_SIZE then Err Insufficient_header
  else
    Ok {| frame_type := nth 0 data 0;
          group_id := be_read 64 (slice data 1 8);
          block_index := be_read 32 (slice data 9 4);
          total_blocks := be_read 32 (slice data 13 4);
          payload_length := be_read 32 (slice data 17 4) |}.

Definition serialize (f : FECFrame) : list Z :=
  header_serialize (header f) ++ payload f.

Definition deserialize (data : list Z) : result FECFrame :=
  match header_deserialize data with
  | Err e => Err e
  | Ok h =>
      if len data <? HEADER_SIZE + payload_length h then Err Insufficient_payload
      else
        Ok {| header := h;
              payload := slice data (Z.to_nat HEADER_SIZE)
                           (Z.to_nat (payload_length h)) |}
  end.

Definition is_source_frame (f : FECFrame) : bool :=
  frame_type (header f) =? FEC_SOURCE_FRAME.

Definition is_repair_frame (f : FECFrame) : bool :=
  frame_type (header f) =? FEC_REPAIR_FRAME.

(** A frame as the C++ types and the sender produce it: every field within
    its integer width, and [payload_length] the size of the payload. *)
Definition well_formed (f : FECFrame) : Prop :=
  (frame_type (header f) = FEC_SOURCE_FRAME
   \/ frame_type (header f) = FEC_REPAIR_FRAME)
  /\ is_uint64 (group_id (header f))
  /\ is_uint32 (block_index (header f))
  /\ is_uint32 (total_blocks (header f))
  /\ is_uint32 (payload_length (header f))
  /\ payload_length (header f) = len (payload f).

End Frame.

(** ** fec_encoder.cpp: the block encoder and decoder *)

Module Codec.

Definition block := list Z.

Record FECEncoder : Type := mkEncoder {
  enc_k_ : Z;
  enc_m_ : Z;
  enc_block_size_ : Z
}.

Record FECDecoder : Type := mkDecoder {
  dec_k_ : Z;
  dec_m_ : Z;
  dec_block_size_ : Z
}.

(** [FECEncoder::FECEncoder]: rejects [k == 0 || m == 0]. *)
Definition new_encoder (k m block_size : Z) : result FECEncoder :=
  if (k =? 0) || (m =? 0) then Err Invalid_k_m
  else Ok (mkEncoder k m block_size).

(** [FECDecoder::FECDecoder]: no check. *)
Definition new_decoder (k m block_size : Z) : FECDecoder :=
  mkDecoder k m block_size.

(** The innermost loop of [encode] for parity row [p] and byte column [i]:
    [value ^= data_blocks[d][i] * (p + d + 1)] for [d = 0 .. k-1], where
    the product is taken in [uint32_t] and the result stored in a
    [uint8_t].  [d] counts the blocks already folded in. *)
Fixpoint parity_byte (p : Z) (i : nat) (d : Z) (blocks : list block)
  (value : Z) : Z :=
  match blocks with
  | [] => value
  | b :: rest =>
      parity_byte p i (d + 1) rest
        (wrap8 (Z.lxor value (wrap32 (nth i b 0 * wrap32 (p + d + 1)))))
  end.

Definition parity_block (block_size : Z) (blocks : list block) (p : Z)
  : block :=
  map (fun i => parity_byte p i 0 blocks 0) (seq 0 (Z.to_nat block_size)).

(** [FECEncoder::encode] *)
Definition encode (e : FECEncoder) (data_blocks : list block)
  : result (list block) :=
  if negb (len data_blocks =? enc_k_ e) then Err Expected_k_blocks
  else if negb (forallb (fun b => len b =? enc_block_size_ e) data_blocks)
  then Err Block_size_mismatch
  else
    Ok (map (fun p => parity_block (enc_block_size_ e) data_blocks (Z.of_nat p))
          (seq 0 (Z.to_nat (enc_m_ e)))).

(** The first loop of [decode]: walk the received blocks in order and keep
    those whose id is below [k], until [k] are collected. *)
Fixpoint collect_sources (k : Z) (received : list block) (ids : list Z)
  (recovered : list block) : list block :=
  match received, ids with
  | b :: received', id :: ids' =>
      if len recovered <? k then
        collect_sources k received' ids'
          (if id <? k then recovered ++ [b] else recovered)
      else recovered
  | _, _ => recovered
  end.

(** The second loop of [decode]: fill up to [k] blocks with zero blocks. *)
Definition pad_zero_blocks (k block_size : Z) (recovered : list block)
  : list block :=
  recovered
    ++ repeat (repeat 0 (Z.to_nat block_size))
         (Z.to_nat (k - len recovered)).

(** [FECDecoder::decode] *)
Definition decode (d : FECDecoder) (received_blocks : list block)
  (block_ids : list Z) : result (list block) :=
  if len received_blocks <? dec_k_ d then Err Not_enough_blocks
  else if negb (len received_blocks =? len block_ids)
  then Err Block_count_mismatch
  else
    Ok (pad_zero_blocks (dec_k_ d) (dec_block_size_ d)
          (collect_sources (dec_k_ d) received_blocks block_ids [])).

End Codec.

(** ** packet_hook.cpp: the group manager and the hooks *)

Module Hook.

Import Frame.

Record PendingPacket : Type := mkPending {
  pp_packet_number : Z;
  pp_path_id : Z;
  pp_data : list Z;
  pp_timestamp_us : Z
}.

Record FECGroupInfo : Type := mkInfo {
  info_group_id : Z;
  info_k : Z;
  info_m : Z;
  info_block_size : Z;
  info_timestamp_us : Z
}.

(** [FECGroupInfo()] *)
Definition default_info : FECGroupInfo := mkInfo 0 0 0 0 0.

Record EncodingGroup : Type := mkGroup {
  eg_group_id : Z;
  eg_info : FECGroupInfo;
  source_packets : list PendingPacket;
  repair_frames : list FECFrame;
  is_encoded : bool;
  created_time_us : Z
}.

Record FECGroupManager : Type := mkManager {
  current_k_ : Z;
  current_m_ : Z;
  block_size_ : Z;
  encoder_ : Codec.FECEncoder;
  current_group_ : EncodingGroup;
  encoded_groups_ : zmap EncodingGroup;
  next_group_id_ : Z
}.

(** [FECGroupManager::create_new_group]; [now] is the value read from the
    steady clock.  Returns the new group and the incremented id counter. *)
Definition create_new_group (k m block_size next_id now : Z)
  : EncodingGroup * Z :=
  ({| eg_group_id := next_id;
      eg_info := mkInfo next_id k m block_size now;
      source_packets := [];
      repair_frames := [];
      is_encoded := false;
      created_time_us := now |},
   wrap64 (next_id + 1)).

(** [FECGroupManager::FECGroupManager] *)
Definition new_manager (default_k default_m block_size now : Z)
  : result FECGroupManager :=
  match Codec.new_encoder default_k default_m block_size with
  | Err e => Err e
  | Ok enc =>
      let '(g, next) := create_new_group default_k default_m block_size 1 now in
      Ok {| current_k_ := default_k;
            current_m_ := default_m;
            block_size_ := block_size;
            encoder_ := enc;
            current_group_ := g;
            encoded_groups_ := [];
            next_group_id_ := next |}
  end.

(** The repair frame built for parity block number [i] in
    [perform_encoding]. *)
Definition make_repair_frame (gm : FECGroupManager) (gid : Z) (i : nat)
  (parity : list Z) : FECFrame :=
  {| header :=
       {| frame_type := FEC_REPAIR_FRAME;
          group_id := gid;
          block_index := wrap32 (current_k_ gm + Z.of_nat i);
          total_blocks := wrap32 (current_k_ gm + current_m_ gm);
          payload_length := wrap32 (len parity) |};
     payload := parity |}.

Fixpoint make_repair_frames (gm : FECGroupManager) (gid : Z) (i : nat)
  (parity_blocks : list (list Z)) : list FECFrame :=
  match parity_blocks with
  | [] => []
  | p :: rest =>
      make_repair_frame gm gid i p :: make_repair_frames gm gid (S i) rest
  end.

(** [FECGroupManager::perform_encoding] *)
Definition perform_encoding (gm : FECGroupManager) (group : EncodingGroup)
  : result EncodingGroup :=
  let data_blocks := map pp_data (source_packets group) in
  match Codec.encode (encoder_ gm) data_blocks with
  | Err e => Err e
  | Ok parity_blocks =>
      Ok {| eg_group_id := eg_group_id group;
            eg_info := eg_info group;
            source_packets := source_packets group;
            repair_frames :=
              make_repair_frames gm (eg_group_id group) 0 parity_blocks;
            is_encoded := true;
            created_time_us := created_time_us group |}
  end.

Definition push_source (g : EncodingGroup) (packet : PendingPacket)
  : EncodingGroup :=
  {| eg_group_id := eg_group_id g;
     eg_info := eg_info g;
     source_packets := source_packets g ++ [packet];
     repair_frames := repair_frames g;
     is_encoded := is_encoded g;
     created_time_us := created_time_us g |}.

Definition set_current_group (gm : FECGroupManager) (g : EncodingGroup)
  : FECGroupManager :=
  {| current_k_ := current_k_ gm;
     current_m_ := current_m_ gm;
     block_size_ := block_size_ gm;
     encoder_ := encoder_ gm;
     current_group_ := g;
     encoded_groups_ := encoded_groups_ gm;
     next_group_id_ := next_group_id_ gm |}.

(** [FECGroupManager::add_source_packet].  The packet is appended before the
    encoder runs, so it stays in the current group when [encode] throws. *)
Definition add_source_packet (gm : FECGroupManager) (packet : PendingPacket)
  (now : Z) : FECGroupManager * result Z :=
  let g := push_source (current_group_ gm) packet in
  let gm1 := set_current_group gm g in
  if len (source_packets g) >=? current_k_ gm then
    let completed_group_id := eg_group_id g in
    match perform_encoding gm1 g with
    | Err e => (gm1, Err e)
    | Ok g' =>
        let '(fresh, next) :=
          create_new_group (current_k_ gm) (current_m_ gm) (block_size_ gm)
            (next_group_id_ gm) now in
        ({| current_k_ := current_k_ gm;
            current_m_ := current_m_ gm;
            block_size_ := block_size_ gm;
            encoder_ := encoder_ gm;
            current_group_ := fresh;
            encoded_groups_ :=
              zinsert completed_group_id g' (encoded_groups_ gm);
            next_group_id_ := next |},
         Ok completed_group_id)
    end
  else (gm1, Ok 0).

(** [FECGroupManager::get_encoded_group] *)
Definition get_encoded_group (gm : FECGroupManager) (gid : Z)
  : option EncodingGroup :=
  zfind gid (encoded_groups_ gm).

(** [PacketSendHook::wrap_source_frame] *)
Definition wrap_source_frame (gid block_idx total : Z) (data : list Z)
  : FECFrame :=
  {| header :=
       {| frame_type := FEC_SOURCE_FRAME;
          group_id := gid;
          block_index := block_idx;
          total_blocks := total;
          payload_length := wrap32 (len data) |};
     payload := data |}.

Fixpoint wrap_source_frames (gid total : Z) (i : nat)
  (packets : list PendingPacket) : list FECFrame :=
  match packets with
  | [] => []
  | p :: rest =>
      wrap_source_frame gid (wrap32 (Z.of_nat i)) total (pp_data p)
        :: wrap_source_frames gid total (S i) rest
  end.

(** [PacketSendHook::on_packet_send].  The hook holds a shared pointer to
    the controller's group manager: the manager is passed in and handed
    back.  The result is the return value and the frames appended to
    [out_packets]. *)
Definition on_packet_send (fec_enabled : bool) (gm : FECGroupManager)
  (packet_num path_id : Z) (stream_data : list Z) (now : Z)
  : FECGroupManager * result (bool * list FECFrame) :=
  if negb fec_enabled then (gm, Ok (false, []))
  else
    let pending := mkPending packet_num path_id stream_data now in
    match add_source_packet gm pending now with
    | (gm', Err e) => (gm', Err e)
    | (gm', Ok completed_group_id) =>
        if completed_group_id >? 0 then
          match get_encoded_group gm' completed_group_id with
          | Some group =>
              if is_encoded group then
                (gm',
                 Ok (true,
                     wrap_source_frames (eg_group_id group)
                       (wrap32 (info_k (eg_info group) + info_m (eg_info group)))
                       0 (source_packets group)
                       ++ repair_frames group))
              else (gm', Ok (false, []))
          | None => (gm', Ok (false, []))
          end
        else (gm', Ok (false, []))
    end.

(** *** The remaining operations of the group manager *)

(** [FECGroupManager::get_coding_params] *)
Definition get_coding_params (gm : FECGroupManager) : Z * Z :=
  (current_k_ gm, current_m_ gm).

(** The packet [flush_pending_groups] pads a short group with. *)
Definition padding_packet (block_size now : Z) : PendingPacket :=
  mkPending 0 0 (repeat 0 (Z.to_nat block_size)) now.

(** The loop [while (source_packets.size() < current_k_) push_back(padding)]. *)
Definition pad_group (gm : FECGroupManager) (g : EncodingGroup) (now : Z)
  : EncodingGroup :=
  {| eg_group_id := eg_group_id g;
     eg_info := eg_info g;
     source_packets :=
       source_packets g
         ++ repeat (padding_packet (block_size_ gm) now)
              (Z.to_nat (current_k_ gm - len (source_packets g)));
     repair_frames := repair_frames g;
     is_encoded := is_encoded g;
     created_time_us := created_time_us g |}.

(** [FECGroupManager::flush_pending_groups].  The padding is appended to
    the current group before the encoder runs, so it stays there when
    [encode] throws. *)
Definition flush_pending_groups (gm : FECGroupManager) (now : Z)
  : FECGroupManager * result (list Z) :=
  match source_packets (current_group_ gm) with
  | [] => (gm, Ok [])
  | _ =>
      let g := pad_group gm (current_group_ gm) now in
      let gm1 := set_current_group gm g in
      match perform_encoding gm1 g with
      | Err e => (gm1, Err e)
      | Ok g' =>
          let '(fresh, next) :=
            create_new_group (current_k_ gm) (current_m_ gm) (block_size_ gm)
              (next_group_id_ gm) now in
          ({| current_k_ := current_k_ gm;
              current_m_ := current_m_ gm;
              block_size_ := block_size_ gm;
              encoder_ := encoder_ gm;
              current_group_ := fresh;
              encoded_groups_ :=
                zinsert (eg_group_id g) g' (encoded_groups_ gm);
              next_group_id_ := next |},
           Ok [eg_group_id g])
      end
  end.

(** [FECGroupManager::update_coding_params].  [current_k_] and
    [current_m_] are assigned before the encoder is rebuilt, so they keep
    the new values when the encoder's constructor throws. *)
Definition update_coding_params (gm : FECGroupManager) (k m now : Z)
  : FECGroupManager * result unit :=
  if negb (k =? current_k_ gm) || negb (m =? current_m_ gm) then
    let gm1 :=
      {| current_k_ := k;
         current_m_ := m;
         block_size_ := block_size_ gm;
         encoder_ := encoder_ gm;
         current_group_ := current_group_ gm;
         encoded_groups_ := encoded_groups_ gm;
         next_group_id_ := next_group_id_ gm |} in
    match Codec.new_encoder k m (block_size_ gm) with
    | Err e => (gm1, Err e)
    | Ok enc =>
        let gm2 :=
          {| current_k_ := k;
             current_m_ := m;
             block_size_ := block_size_ gm;
             encoder_ := enc;
             current_group_ := current_group_ gm;
             encoded_groups_ := encoded_groups_ gm;
             next_group_id_ := next_group_id_ gm |} in
        match flush_pending_groups gm2 now with
        | (gm3, Err e) => (gm3, Err e)
        | (gm3, Ok _) => (gm3, Ok tt)
        end
    end
  else (gm, Ok tt).

(** [FECGroupManager::cleanup_old_groups] *)
Definition cleanup_old_groups (gm : FECGroupManager) (before_group_id : Z)
  : FECGroupManager :=
  {| current_k_ := current_k_ gm;
     current_m_ := current_m_ gm;
     block_size_ := block_size_ gm;
     encoder_ := encoder_ gm;
     current_group_ := current_group_ gm;
     encoded_groups_ :=
       filter (fun kv => negb (fst kv <? before_group_id)) (encoded_groups_ gm);
     next_group_id_ := next_group_id_ gm |}.

(** The encoder was built for the current parameters, as the constructor
    and [update_coding_params] leave it. *)
Definition encoder_consistent (gm : FECGroupManager) : Prop :=
  Codec.enc_k_ (encoder_ gm) = current_k_ gm
  /\ Codec.enc_m_ (encoder_ gm) = current_m_ gm
  /\ Codec.enc_block_size_ (encoder_ gm) = block_size_ gm.

(** A current group that can no longer be encoded: it holds more packets
    than [k], or a packet whose size is not the block size. *)
Definition stuck (gm : FECGroupManager) : Prop :=
  encoder_consistent gm
  /\ 0 <= current_k_ gm
  /\ (current_k_ gm < len (source_packets (current_group_ gm))
      \/ exists p, In p (source_packets (current_group_ gm))
                   /\ len (pp_data p) <> block_size_ gm).

(** *** The receive side *)

Record ReceivedGroup : Type := mkReceived {
  rg_info : FECGroupInfo;
  received_frames : zmap FECFrame;
  is_complete : bool
}.

(** [ReceivedGroup()], what [received_groups_[group_id]] creates when the
    group is not in the map yet. *)
Definition default_group : ReceivedGroup := mkReceived default_info [] false.

Record PacketReceiveHook : Type := mkReceiveHook {
  received_groups_ : zmap ReceivedGroup;
  decoders_ : pmap Codec.FECDecoder
}.

Definition new_receive_hook : PacketReceiveHook := mkReceiveHook [] [].

(** [received_groups_[group_id]] read as a value. *)
Definition group_at (h : PacketReceiveHook) (gid : Z) : ReceivedGroup :=
  match zfind gid (received_groups_ h) with
  | Some g => g
  | None => default_group
  end.

(** The inference of [(k, m)] made from a frame header:
    [k = (total * 2) / 3; m = total - k;] in [uint32_t]. *)
Definition inferred_k (total : Z) : Z := wrap32 (total * 2) / 3.
Definition inferred_m (total : Z) : Z := wrap32 (total - inferred_k total).

(** The group after the frame is stored and the group information is
    filled in, that is the first half of [on_frame_received]. *)
Definition store_frame (g : ReceivedGroup) (frame : FECFrame)
  : ReceivedGroup :=
  let frames := zinsert (block_index (header frame)) frame (received_frames g) in
  if info_group_id (rg_info g) =? 0 then
    let total := total_blocks (header frame) in
    {| rg_info :=
         {| info_group_id := group_id (header frame);
            info_k := inferred_k total;
            info_m := inferred_m total;
            info_block_size := wrap32 (len (payload frame));
            info_timestamp_us := info_timestamp_us (rg_info g) |};
       received_frames := frames;
       is_complete := is_complete g |}
  else
    {| rg_info := rg_info g;
       received_frames := frames;
       is_complete := is_complete g |}.

(** [PacketReceiveHook::try_decode_group] *)
Definition try_decode_group (h : PacketReceiveHook) (gid : Z)
  : PacketReceiveHook * list (list Z) :=
  let recv_group := group_at h gid in
  let h0 := mkReceiveHook (zinsert gid recv_group (received_groups_ h))
              (decoders_ h) in
  if is_complete recv_group then (h0, [])
  else
    let key := (info_k (rg_info recv_group), info_m (rg_info recv_group)) in
    let decoders :=
      match pfind key (decoders_ h) with
      | Some _ => decoders_ h
      | None =>
          pinsert key
            (Codec.new_decoder (info_k (rg_info recv_group))
               (info_m (rg_info recv_group))
               (info_block_size (rg_info recv_group)))
            (decoders_ h)
      end in
    let decoder :=
      match pfind key decoders with
      | Some d => d
      | None => Codec.new_decoder 0 0 0
      end in
    let received_blocks := map (fun kv => payload (snd kv))
                             (received_frames recv_group) in
    let block_ids := keys (received_frames recv_group) in
    match Codec.decode decoder received_blocks block_ids with
    | Ok decoded =>
        (mkReceiveHook
           (zinsert gid
              (mkReceived (rg_info recv_group) (received_frames recv_group) true)
              (received_groups_ h))
           decoders,
         decoded)
    | Err _ =>
        (mkReceiveHook (zinsert gid recv_group (received_groups_ h)) decoders,
         [])
    end.

(** [PacketReceiveHook::on_frame_received] *)
Definition on_frame_received (h : PacketReceiveHook) (frame : FECFrame)
  : PacketReceiveHook * list (list Z) :=
  let gid := group_id (header frame) in
  let recv_group := store_frame (group_at h gid) frame in
  let h1 := mkReceiveHook (zinsert gid recv_group (received_groups_ h))
              (decoders_ h) in
  if len (received_frames recv_group) >=? info_k (rg_info recv_group) then
    try_decode_group h1 gid
  else (h1, []).

(** The decoder cache is keyed by [(k, m)]: every decoder it holds was
    built for the [k] of its key. *)
Definition decoders_consistent (h : PacketReceiveHook) : Prop :=
  forall key d, pfind key (decoders_ h) = Some d -> Codec.dec_k_ d = fst key.

(** [PacketReceiveHook::can_decode_group] *)
Definition can_decode_group (h : PacketReceiveHook) (gid : Z) : bool :=
  match zfind gid (received_groups_ h) with
  | Some g => len (received_frames g) >=? info_k (rg_info g)
  | None => false
  end.

End Hook.

(** ** oco_controller.cpp: correlation matrix and redundancy controller *)

Module OCO.

#[local] Open Scope Q_scope.

Record LinkMetrics : Type := mkMetrics {
  lm_path_id : Z;
  lm_rtt_ms : Q;
  lm_loss_rate : Q;
  lm_bandwidth_mbps : Q;
  lm_jitter_ms : Q;
  packets_sent : Z;
  packets_lost : Z;
  bytes_in_flight : Z
}.

(** [LinkMetrics()], what [link_metrics_[id]] yields for a missing id. *)
Definition default_metrics : LinkMetrics := mkMetrics 0 0 0 0 0 0 0 0.

(** *** LossCorrelationMatrix *)

Definition LossCorrelationMatrix := pmap Q.

Definition canonical_key (path_i path_j : Z) : Z * Z :=
  (Z.min path_i path_j, Z.max path_i path_j).

(** [LossCorrelationMatrix::update_correlation] *)
Definition update_correlation (cm : LossCorrelationMatrix)
  (path_i path_j : Z) (rho : Q) : LossCorrelationMatrix :=
  let rho := dmax (-1.0) (dmin 1.0 rho) in
  pinsert (canonical_key path_i path_j) rho cm.

(** [LossCorrelationMatrix::get_correlation] *)
Definition get_correlation (cm : LossCorrelationMatrix) (path_i path_j : Z)
  : Q :=
  if (path_i =? path_j)%Z then 1.0
  else
    match pfind (canonical_key path_i path_j) cm with
    | Some rho => rho
    | None => 0.0
    end.

(** The loop of [find_least_correlated_path], carrying
    [(min_correlation, best_path)]. *)
Fixpoint least_correlated_loop (cm : LossCorrelationMatrix) (path_id : Z)
  (candidates : list Z) (min_correlation : Q) (best_path : Z) : Z :=
  match candidates with
  | [] => best_path
  | candidate :: rest =>
      if (candidate =? path_id)%Z then
        least_correlated_loop cm path_id rest min_correlation best_path
      else
        let corr := dabs (get_correlation cm path_id candidate) in
        if Qltb corr min_correlation then
          least_correlated_loop cm path_id rest corr candidate
        else least_correlated_loop cm path_id rest min_correlation best_path
  end.

(** [LossCorrelationMatrix::find_least_correlated_path] *)
Definition find_least_correlated_path (cm : LossCorrelationMatrix)
  (path_id : Z) (available_paths : list Z) : Z :=
  match available_paths with
  | [] => path_id
  | first :: _ => least_correlated_loop cm path_id available_paths 2.0 first
  end.

(** *** RedundancyDecision *)

Record RedundancyDecision : Type := mkDecision {
  k : Z;
  m : Z;
  redundancy_rate : Q;
  source_path : Z;
  repair_path : Z;
  confidence : Q
}.

(** [RedundancyDecision()] *)
Definition default_decision : RedundancyDecision :=
  mkDecision 4 2 0.5 0 1 1.0.

(** *** OCORedundancyController

    The decision history and the gradient accumulators are left out: no
    member function modelled here reads them. *)

Record OCORedundancyController : Type := mkController {
  link_metrics_ : zmap LinkMetrics;
  correlation_matrix_ : LossCorrelationMatrix;
  alpha_loss_ : Q;
  alpha_delay_ : Q;
  alpha_overhead_ : Q;
  min_redundancy_rate_ : Q;
  max_redundancy_rate_ : Q
}.

(** [OCORedundancyController::OCORedundancyController] *)
Definition new_controller : OCORedundancyController :=
  {| link_metrics_ := [];
     correlation_matrix_ := [];
     alpha_loss_ := 0.5;
     alpha_delay_ := 0.3;
     alpha_overhead_ := 0.2;
     min_redundancy_rate_ := 0.1;
     max_redundancy_rate_ := 1.0 |}.

(** [update_link_metrics] *)
Definition update_link_metrics (c : OCORedundancyController)
  (metrics : LinkMetrics) : OCORedundancyController :=
  {| link_metrics_ := zinsert (lm_path_id metrics) metrics (link_metrics_ c);
     correlation_matrix_ := correlation_matrix_ c;
     alpha_loss_ := alpha_loss_ c;
     alpha_delay_ := alpha_delay_ c;
     alpha_overhead_ := alpha_overhead_ c;
     min_redundancy_rate_ := min_redundancy_rate_ c;
     max_redundancy_rate_ := max_redundancy_rate_ c |}.

(** [update_loss_correlation] *)
Definition update_loss_correlation (c : OCORedundancyController)
  (path_i path_j : Z) (rho : Q) : OCORedundancyController :=
  {| link_metrics_ := link_metrics_ c;
     correlation_matrix_ :=
       update_correlation (correlation_matrix_ c) path_i path_j rho;
     alpha_loss_ := alpha_loss_ c;
     alpha_delay_ := alpha_delay_ c;
     alpha_overhead_ := alpha_overhead_ c;
     min_redundancy_rate_ := min_redundancy_rate_ c;
     max_redundancy_rate_ := max_redundancy_rate_ c |}.

(** [set_redundancy_constraints] *)
Definition set_redundancy_constraints (c : OCORedundancyController)
  (min_rate max_rate : Q) : OCORedundancyController :=
  {| link_metrics_ := link_metrics_ c;
     correlation_matrix_ := correlation_matrix_ c;
     alpha_loss_ := alpha_loss_ c;
     alpha_delay_ := alpha_delay_ c;
     alpha_overhead_ := alpha_overhead_ c;
     min_redundancy_rate_ := dmax 0.0 min_rate;
     max_redundancy_rate_ := dmin 1.0 max_rate |}.

(** The score of [select_source_path]. *)
Definition source_score (metrics : LinkMetrics) : Q :=
  -0.3 * lm_rtt_ms metrics - 0.5 * lm_loss_rate metrics * 1000
  + 0.2 * lm_bandwidth_mbps metrics.

Fixpoint best_score_loop (entries : zmap LinkMetrics) (best_score : Q)
  (best_path : Z) : Z :=
  match entries with
  | [] => best_path
  | (path_id, metrics) :: rest =>
      let score := source_score metrics in
      if Qltb best_score score then best_score_loop rest score path_id
      else best_score_loop rest best_score best_path
  end.

(** [OCORedundancyController::select_source_path] *)
Definition select_source_path (c : OCORedundancyController) : Z :=
  match link_metrics_ c with
  | [] => 0%Z
  | (first, _) :: _ => best_score_loop (link_metrics_ c) (-1e9) first
  end.

(** [OCORedundancyController::select_repair_path] *)
Definition select_repair_path (c : OCORedundancyController) (source : Z)
  : Z :=
  let available_paths :=
    filter (fun path_id => negb (path_id =? source)%Z) (keys (link_metrics_ c)) in
  match available_paths with
  | [] => source
  | _ => find_least_correlated_path (correlation_matrix_ c) source
           available_paths
  end.

(** [OCORedundancyController::estimate_required_redundancy] *)
Definition estimate_required_redundancy (c : OCORedundancyController)
  (metrics : LinkMetrics) : Q :=
  let base_redundancy := lm_loss_rate metrics * 2.0 in
  let rtt_factor := 1.0 + (lm_rtt_ms metrics / 200.0) * 0.3 in
  let required := base_redundancy * rtt_factor in
  dmax (min_redundancy_rate_ c) (dmin (max_redundancy_rate_ c) required).

(** [OCORedundancyController::redundancy_rate_to_params] *)
Definition redundancy_rate_to_params (rate : Q) : Z * Z :=
  let k := if Qltb rate 0.2 then 10%Z
           else if Qltb 0.6 rate then 4%Z
           else 8%Z in
  let m := ceil_to_uint32 (inject_Z k * rate) in
  let m := Z.max 1 (Z.min m k) in
  (k, m).

(** [link_metrics_[id]] read as a value. *)
Definition metrics_at (c : OCORedundancyController) (id : Z) : LinkMetrics :=
  match zfind id (link_metrics_ c) with
  | Some x => x
  | None => default_metrics
  end.

(** [OCORedundancyController::compute_cost] *)
Definition compute_cost (c : OCORedundancyController) (k m : Z)
  (source_metrics repair_metrics : LinkMetrics) : Q :=
  let loss_cost := lm_loss_rate source_metrics in
  let delay_cost :=
    (lm_rtt_ms source_metrics + lm_rtt_ms repair_metrics) / 1000.0 in
  let overhead_cost := inject_Z m / inject_Z k in
  alpha_loss_ c * loss_cost + alpha_delay_ c * delay_cost
  + alpha_overhead_ c * overhead_cost.

(** [OCORedundancyController::compute_optimal_redundancy].  Both uses of
    [link_metrics_[...]] name a key of the map, so the controller is left
    unchanged; the computed cost is only logged. *)
Definition compute_optimal_redundancy (c : OCORedundancyController)
  : RedundancyDecision :=
  match link_metrics_ c with
  | [] => default_decision
  | _ =>
      let source := select_source_path c in
      let repair := select_repair_path c source in
      let source_metrics := metrics_at c source in
      let required_redundancy := estimate_required_redundancy c source_metrics in
      let rate :=
        dmax (min_redundancy_rate_ c)
          (dmin (max_redundancy_rate_ c) required_redundancy) in
      let '(k, m) := redundancy_rate_to_params rate in
      {| k := k;
         m := m;
         redundancy_rate := rate;
         source_path := source;
         repair_path := repair;
         confidence := 1.0 - lm_loss_rate source_metrics |}
  end.

(** *** AdaptiveFECStrategy *)

Inductive Strategy : Type := AGGRESSIVE | BALANCED | CONSERVATIVE | DYNAMIC.

(** [AdaptiveFECStrategy::get_strategy_redundancy_range] *)
Definition get_strategy_redundancy_range (s : Strategy) : Q * Q :=
  match s with
  | AGGRESSIVE => (0.4, 1.0)
  | CONSERVATIVE => (0.1, 0.3)
  | BALANCED => (0.2, 0.6)
  | DYNAMIC => (0.1, 1.0)
  end.

(** [AdaptiveFECStrategy::select_strategy], with the thresholds the
    constructor sets (0.15 and 0.02). *)
Definition select_strategy (metrics : list LinkMetrics) : Strategy :=
  match metrics with
  | [] => BALANCED
  | _ =>
      let sum_loss := fold_left (fun acc x => acc + lm_loss_rate x) metrics 0.0 in
      let max_loss := fold_left (fun acc x => dmax acc (lm_loss_rate x)) metrics 0.0 in
      let avg_loss := sum_loss / inject_Z (len metrics) in
      if Qltb 0.15 max_loss then AGGRESSIVE
      else if Qltb avg_loss 0.02 then CONSERVATIVE
      else BALANCED
  end.

(** [OCORedundancyController::set_cost_weights] *)
Definition set_cost_weights (c : OCORedundancyController)
  (loss_weight delay_weight overhead_weight : Q) : OCORedundancyController :=
  let sum := loss_weight + delay_weight + overhead_weight in
  {| link_metrics_ := link_metrics_ c;
     correlation_matrix_ := correlation_matrix_ c;
     alpha_loss_ := loss_weight / sum;
     alpha_delay_ := delay_weight / sum;
     alpha_overhead_ := overhead_weight / sum;
     min_redundancy_rate_ := min_redundancy_rate_ c;
     max_redundancy_rate_ := max_redundancy_rate_ c |}.

(** [OCORedundancyController::get_all_metrics] *)
Definition get_all_metrics (c : OCORedundancyController) : list LinkMetrics :=
  values (link_metrics_ c).

End OCO.

(** ** path_scheduler.cpp: the path scheduler *)

Module Scheduler.

#[local] Open Scope Q_scope.

Record PathState : Type := mkPathState {
  path_id : Z;
  rtt_ms : Q;
  loss_rate : Q;
  bandwidth_mbps : Q;
  bytes_sent : Z;
  bytes_acked : Z;
  jitter_ms : Q;
  cwnd : Z
}.

(** [oco_attached_] records whether the shared pointer [oco_controller_] is
    set; the controller object itself is owned by the caller and passed to
    the one member function that forwards to it. *)
Record PathScheduler : Type := mkScheduler {
  paths_ : zmap PathState;
  weights_ : zmap Q;
  oco_attached_ : bool;
  path_correlations_ : pmap Q
}.

Definition alpha_ : Q := 0.1.
Definition beta_ : Q := 0.5.
Definition gamma_ : Q := 0.3.
Definition delta_ : Q := 0.2.

(** [PathScheduler::PathScheduler] *)
Definition new_scheduler : PathScheduler := mkScheduler [] [] false [].

(** [PathScheduler::set_oco_controller] *)
Definition set_oco_controller (s : PathScheduler) : PathScheduler :=
  mkScheduler (paths_ s) (weights_ s) true (path_correlations_ s).

(** [PathScheduler::compute_cost] *)
Definition compute_cost (state : PathState) : Q :=
  let rtt_normalized := rtt_ms state / 100.0 in
  let bw_normalized := 100.0 / dmax 1.0 (bandwidth_mbps state) in
  let cost := beta_ * rtt_normalized + gamma_ * loss_rate state
              + delta_ * bw_normalized in
  dmax 0.001 cost.

(** The sum a range-for loop accumulates over the values of a map. *)
Definition sum_values (m : zmap Q) : Q :=
  fold_left (fun acc kv => acc + snd kv) m 0.

Section Weights.

(** [std::exp] as the C++ library supplies it; the properties below state
    what they need of it. *)
Variable exp : Q -> Q.

(** The body of the second loop of [update_weights] for one entry. *)
Definition reweigh (costs : zmap Q) (total_cost : Q) (entry : Z * Q)
  : Z * Q :=
  let '(id, weight) := entry in
  match zfind id costs with
  | Some cost =>
      let gradient := cost / dmax 0.001 total_cost in
      let weight := weight * exp (- alpha_ * gradient) in
      (id, dmax 0.001 weight)
  | None => (id, weight)
  end.

(** [PathScheduler::update_weights] on the two maps it touches. *)
Definition update_weights_maps (paths : zmap PathState) (weights : zmap Q)
  : zmap Q :=
  match paths with
  | [] => weights
  | _ =>
      let costs := map (fun kv => (fst kv, compute_cost (snd kv))) paths in
      let total_cost := sum_values costs in
      let weights1 := map (reweigh costs total_cost) weights in
      let sum := sum_values weights1 in
      map (fun kv => (fst kv, snd kv / sum)) weights1
  end.

Definition update_weights (s : PathScheduler) : PathScheduler :=
  mkScheduler (paths_ s) (update_weights_maps (paths_ s) (weights_ s))
    (oco_attached_ s) (path_correlations_ s).

(** [PathScheduler::update_path_state] *)
Definition update_path_state (s : PathScheduler) (state : PathState)
  : PathScheduler :=
  let paths := zinsert (path_id state) state (paths_ s) in
  let weights :=
    match zfind (path_id state) (weights_ s) with
    | None =>
        zinsert (path_id state) (1.0 / dmax 1.0 (inject_Z (len paths)))
          (weights_ s)
    | Some _ => weights_ s
    end in
  update_weights
    (mkScheduler paths weights (oco_attached_ s) (path_correlations_ s)).

End Weights.

(** Every weight belongs to a registered path. *)
Definition tracked (paths : zmap PathState) (weights : zmap Q) : Prop :=
  forall k, In k (keys weights) -> zfind k paths <> None.

(** The weights as the specification wants them: summing to 1 within 1e-9,
    each at least 1e-3. *)
Definition is_distribution (w : zmap Q) : bool :=
  Qle_bool (Qabs (sum_values w - 1)) 1e-9
  && forallb (fun kv => Qle_bool 0.001 (snd kv)) w.

(** [PathScheduler::get_path_weights] *)
Definition get_path_weights (s : PathScheduler) : zmap Q := weights_ s.

(** The score of [select_source_path]. *)
Definition source_score (state : PathState) : Q :=
  -0.4 * rtt_ms state - 0.5 * loss_rate state * 1000
  + 0.1 * bandwidth_mbps state.

Fixpoint best_score_loop (entries : zmap PathState) (best_score : Q)
  (best_path : Z) : Z :=
  match entries with
  | [] => best_path
  | (id, state) :: rest =>
      let score := source_score state in
      if Qltb best_score score then best_score_loop rest score id
      else best_score_loop rest best_score best_path
  end.

(** [PathScheduler::select_source_path]; the packet size is not used. *)
Definition select_source_path (s : PathScheduler) (packet_size : Z)
  : result Z :=
  match paths_ s with
  | [] => Err No_paths_available
  | (first, _) :: _ => Ok (best_score_loop (paths_ s) (-1e9) first)
  end.

(** [PathScheduler::update_path_correlation]: stores the coefficient as
    given, then forwards to the redundancy controller when one is attached. *)
Definition update_path_correlation (s : PathScheduler)
  (oco : OCO.OCORedundancyController) (path_i path_j : Z) (correlation : Q)
  : PathScheduler * OCO.OCORedundancyController :=
  let key := (Z.min path_i path_j, Z.max path_i path_j) in
  (mkScheduler (paths_ s) (weights_ s) (oco_attached_ s)
     (pinsert key correlation (path_correlations_ s)),
   if oco_attached_ s
   then OCO.update_loss_correlation oco path_i path_j correlation
   else oco).

(** [PathScheduler::is_path_available] *)
Definition is_path_available (s : PathScheduler) (id : Z) : bool :=
  match zfind id (paths_ s) with
  | None => false
  | Some state =>
      Qltb (loss_rate state) 0.5 && Qltb 0.1 (bandwidth_mbps state)
  end.

(** [PathScheduler::get_path_correlation] *)
Definition get_path_correlation (s : PathScheduler) (path_i path_j : Z) : Q :=
  if (path_i =? path_j)%Z then 1.0
  else
    match pfind (Z.min path_i path_j, Z.max path_i path_j)
            (path_correlations_ s) with
    | Some c => c
    | None => 0.0
    end.

Fixpoint least_correlated_loop (s : PathScheduler) (id : Z)
  (candidates : list Z) (min_correlation : Q) (best_path : Z) : Z :=
  match candidates with
  | [] => best_path
  | candidate_id :: rest =>
      if (candidate_id =? id)%Z then
        least_correlated_loop s id rest min_correlation best_path
      else
        let corr := dabs (get_path_correlation s id candidate_id) in
        if Qltb corr min_correlation then
          least_correlated_loop s id rest corr candidate_id
        else least_correlated_loop s id rest min_correlation best_path
  end.

(** [PathScheduler::find_least_correlated_path] *)
Definition find_least_correlated_path (s : PathScheduler) (id : Z) : Z :=
  if (len (paths_ s) <=? 1)%Z then id
  else least_correlated_loop s id (keys (paths_ s)) 2.0 id.

(** The first key of [paths] other than [source], or [repair] when there is
    none: the fall-back loop of [select_repair_path]. *)
Fixpoint first_other_path (paths : list Z) (source repair : Z) : Z :=
  match paths with
  | [] => repair
  | id :: rest =>
      if negb (id =? source)%Z then id else first_other_path rest source repair
  end.

(** [PathScheduler::select_repair_path] *)
Definition select_repair_path (s : PathScheduler) (source_path_id : Z)
  (packet_size : Z) : result Z :=
  match paths_ s with
  | [] => Err No_paths_available
  | [(only, _)] => Ok only
  | _ =>
      let repair_path := find_least_correlated_path s source_path_id in
      if (repair_path =? source_path_id)%Z && (len (paths_ s) >? 1)%Z
      then Ok (first_other_path (keys (paths_ s)) source_path_id repair_path)
      else Ok repair_path
  end.

End Scheduler.

(** ** mpquic_fec_controller.cpp: the controller *)

Module Controller.

Import Frame.

Record SendPacketMeta : Type := mkMeta {
  packet_number : Z;
  meta_path_id : Z;
  frame : FECFrame;
  send_time_us : Z;
  is_repair : bool
}.

Record Statistics : Type := mkStats {
  total_packets_sent : Z;
  source_packets_sent : Z;
  repair_packets_sent : Z;
  packets_recovered : Z;
  fec_groups_created : Z;
  current_redundancy_rate : Q;
  avg_encoding_time_us : Q
}.

(** [PacketNumberMapper] of fec_frame.cpp *)
Record PacketMapping : Type := mkMapping {
  pm_group_id : Z;
  pm_block_index : Z;
  pm_path_id : Z;
  pm_packet_number : Z;
  pm_is_repair : bool
}.

Record PacketNumberMapper : Type := mkMapper {
  pkt_to_mapping_ : pmap PacketMapping;
  group_to_mappings_ : zmap (list PacketMapping)
}.

(** [PacketNumberMapper::add_mapping] *)
Definition add_mapping (pm : PacketNumberMapper)
  (gid block_idx path pkt_num : Z) (repair : bool) : PacketNumberMapper :=
  let mapping := mkMapping gid block_idx path pkt_num repair in
  let old := match zfind gid (group_to_mappings_ pm) with
             | Some l => l
             | None => []
             end in
  {| pkt_to_mapping_ := pinsert (path, pkt_num) mapping (pkt_to_mapping_ pm);
     group_to_mappings_ := zinsert gid (old ++ [mapping]) (group_to_mappings_ pm) |}.

(** [PacketNumberMapper::find_by_packet] *)
Definition find_by_packet (pm : PacketNumberMapper) (path pkt_num : Z)
  : option PacketMapping :=
  pfind (path, pkt_num) (pkt_to_mapping_ pm).

Record MPQUICFECController : Type := mkController {
  group_manager_ : Hook.FECGroupManager;
  send_hook_fec_enabled_ : bool;
  receive_hook_ : Hook.PacketReceiveHook;
  path_scheduler_ : Scheduler.PathScheduler;
  oco_controller_ : OCO.OCORedundancyController;
  pkt_mapper_ : PacketNumberMapper;
  current_decision_ : OCO.RedundancyDecision;
  next_packet_numbers_ : zmap Z;
  stats_ : Statistics;
  fec_enabled_ : bool;
  block_size_ : Z;
  last_update_time_us_ : Z
}.

(** [MPQUICFECController::MPQUICFECController]; [now] is the clock value
    the group manager stamps its first group with. *)
Definition new_controller (default_k default_m block_size now : Z)
  : result MPQUICFECController :=
  match Hook.new_manager default_k default_m block_size now with
  | Err e => Err e
  | Ok gm =>
      Ok {| group_manager_ := gm;
            send_hook_fec_enabled_ := true;
            receive_hook_ := Hook.new_receive_hook;
            path_scheduler_ := Scheduler.set_oco_controller Scheduler.new_scheduler;
            oco_controller_ := OCO.new_controller;
            pkt_mapper_ := mkMapper [] [];
            current_decision_ := OCO.default_decision;
            next_packet_numbers_ := [];
            stats_ := mkStats 0 0 0 0 0 0 0;
            fec_enabled_ := true;
            block_size_ := block_size;
            last_update_time_us_ := 0 |}
  end.

Definition set_scheduler (c : MPQUICFECController)
  (s : Scheduler.PathScheduler) : MPQUICFECController :=
  mkController (group_manager_ c) (send_hook_fec_enabled_ c) (receive_hook_ c)
    s (oco_controller_ c) (pkt_mapper_ c) (current_decision_ c)
    (next_packet_numbers_ c) (stats_ c) (fec_enabled_ c) (block_size_ c)
    (last_update_time_us_ c).

Definition set_oco (c : MPQUICFECController)
  (o : OCO.OCORedundancyController) : MPQUICFECController :=
  mkController (group_manager_ c) (send_hook_fec_enabled_ c) (receive_hook_ c)
    (path_scheduler_ c) o (pkt_mapper_ c) (current_decision_ c)
    (next_packet_numbers_ c) (stats_ c) (fec_enabled_ c) (block_size_ c)
    (last_update_time_us_ c).

Definition set_packet_numbers (c : MPQUICFECController) (n : zmap Z)
  : MPQUICFECController :=
  mkController (group_manager_ c) (send_hook_fec_enabled_ c) (receive_hook_ c)
    (path_scheduler_ c) (oco_controller_ c) (pkt_mapper_ c)
    (current_decision_ c) n (stats_ c) (fec_enabled_ c) (block_size_ c)
    (last_update_time_us_ c).

Definition set_group_manager (c : MPQUICFECController)
  (gm : Hook.FECGroupManager) : MPQUICFECController :=
  mkController gm (send_hook_fec_enabled_ c) (receive_hook_ c)
    (path_scheduler_ c) (oco_controller_ c) (pkt_mapper_ c)
    (current_decision_ c) (next_packet_numbers_ c) (stats_ c) (fec_enabled_ c)
    (block_size_ c) (last_update_time_us_ c).

Definition set_mapper_stats (c : MPQUICFECController)
  (pm : PacketNumberMapper) (st : Statistics) : MPQUICFECController :=
  mkController (group_manager_ c) (send_hook_fec_enabled_ c) (receive_hook_ c)
    (path_scheduler_ c) (oco_controller_ c) pm (current_decision_ c)
    (next_packet_numbers_ c) st (fec_enabled_ c) (block_size_ c)
    (last_update_time_us_ c).

(** [MPQUICFECController::set_fec_enabled] *)
Definition set_fec_enabled (c : MPQUICFECController) (enabled : bool)
  : MPQUICFECController :=
  mkController (group_manager_ c) enabled (receive_hook_ c)
    (path_scheduler_ c) (oco_controller_ c) (pkt_mapper_ c)
    (current_decision_ c) (next_packet_numbers_ c) (stats_ c) enabled
    (block_size_ c) (last_update_time_us_ c).

(** [MPQUICFECController::get_next_packet_number]:
    [return next_packet_numbers_[path_id]++;] where a missing entry is
    created with value 0. *)
Definition get_next_packet_number (c : MPQUICFECController) (path : Z)
  : MPQUICFECController * Z :=
  let current := match zfind path (next_packet_numbers_ c) with
                 | Some n => n
                 | None => 0
                 end in
  (set_packet_numbers c
     (zinsert path (wrap64 (current + 1)) (next_packet_numbers_ c)),
   current).

Definition link_metrics_of (id : Z) (state : Scheduler.PathState)
  (sent in_flight : Z) : OCO.LinkMetrics :=
  OCO.mkMetrics id (Scheduler.rtt_ms state) (Scheduler.loss_rate state)
    (Scheduler.bandwidth_mbps state) (Scheduler.jitter_ms state)
    sent 0 in_flight.

Section WithExp.

Variable exp : Q -> Q.

(** [MPQUICFECController::add_path] *)
Definition add_path (c : MPQUICFECController) (path : Z)
  (state : Scheduler.PathState) : MPQUICFECController :=
  let c := set_scheduler c
             (Scheduler.update_path_state exp (path_scheduler_ c) state) in
  let c := set_packet_numbers c (zinsert path 1 (next_packet_numbers_ c)) in
  set_oco c
    (OCO.update_link_metrics (oco_controller_ c)
       (link_metrics_of path state 0 0)).

(** [MPQUICFECController::update_path_state] *)
Definition update_path_state (c : MPQUICFECController)
  (state : Scheduler.PathState) : MPQUICFECController :=
  let c := set_scheduler c
             (Scheduler.update_path_state exp (path_scheduler_ c) state) in
  set_oco c
    (OCO.update_link_metrics (oco_controller_ c)
       (link_metrics_of (Scheduler.path_id state) state
          (Scheduler.bytes_sent state / 1200) (Scheduler.cwnd state))).

End WithExp.

(** [MPQUICFECController::update_loss_correlation] *)
Definition update_loss_correlation (c : MPQUICFECController)
  (path_i path_j : Z) (rho : Q) : MPQUICFECController :=
  let '(s, o) :=
    Scheduler.update_path_correlation (path_scheduler_ c) (oco_controller_ c)
      path_i path_j rho in
  set_oco (set_scheduler c s) (OCO.update_loss_correlation o path_i path_j rho).

(** The body of the loop of [assign_packets_to_paths] for one frame. *)
Definition assign_one (source_path repair_path now : Z)
  (acc : MPQUICFECController * list SendPacketMeta) (f : FECFrame)
  : MPQUICFECController * list SendPacketMeta :=
  let '(c, out_packets) := acc in
  let source := is_source_frame f in
  let path := if source then source_path else repair_path in
  let '(c, pn) := get_next_packet_number c path in
  let st := stats_ c in
  let st :=
    mkStats (wrap64 (total_packets_sent st + 1))
      (if source then wrap64 (source_packets_sent st + 1)
       else source_packets_sent st)
      (if source then repair_packets_sent st
       else wrap64 (repair_packets_sent st + 1))
      (packets_recovered st) (fec_groups_created st)
      (current_redundancy_rate st) (avg_encoding_time_us st) in
  let pm :=
    add_mapping (pkt_mapper_ c) (group_id (header f)) (block_index (header f))
      path pn (negb source) in
  (set_mapper_stats c pm st,
   out_packets ++ [mkMeta pn path f now (negb source)]).

(** [MPQUICFECController::assign_packets_to_paths] *)
Definition assign_packets_to_paths (c : MPQUICFECController)
  (frames : list FECFrame) (out_packets : list SendPacketMeta) (now : Z)
  : MPQUICFECController * result (list SendPacketMeta) :=
  match Scheduler.select_source_path (path_scheduler_ c) (block_size_ c) with
  | Err e => (c, Err e)
  | Ok source_path =>
      match Scheduler.select_repair_path (path_scheduler_ c) source_path
              (block_size_ c) with
      | Err e => (c, Err e)
      | Ok repair_path =>
          let '(c', out) :=
            fold_left (assign_one source_path repair_path now) frames
              (c, out_packets) in
          (c', Ok out)
      end
  end.

Definition bump_groups_created (c : MPQUICFECController)
  : MPQUICFECController :=
  let st := stats_ c in
  set_mapper_stats c (pkt_mapper_ c)
    (mkStats (total_packets_sent st) (source_packets_sent st)
       (repair_packets_sent st) (packets_recovered st)
       (wrap64 (fec_groups_created st + 1))
       (current_redundancy_rate st) (avg_encoding_time_us st)).

(** [MPQUICFECController::send_stream_data].  In the branch without FEC the
    C++ leaves the header fields other than the frame type uninitialised;
    the model reads them as 0. *)
Definition send_stream_data (c : MPQUICFECController) (stream_data : list Z)
  (original_path_id now : Z)
  : MPQUICFECController * result (list SendPacketMeta) :=
  if negb (fec_enabled_ c) then
    let '(c, pn) := get_next_packet_number c original_path_id in
    (c,
     Ok [mkMeta pn original_path_id
           (mkFrame (mkHeader FEC_SOURCE_FRAME 0 0 0 0) stream_data)
           now false])
  else
    let '(c, next) := get_next_packet_number c original_path_id in
    let fake_pkt_num := wrap64 (next - 1) in
    match Hook.on_packet_send (send_hook_fec_enabled_ c) (group_manager_ c)
            fake_pkt_num original_path_id stream_data now with
    | (gm, Err e) => (set_group_manager c gm, Err e)
    | (gm, Ok (has_encoded, fec_frames)) =>
        let c := set_group_manager c gm in
        if has_encoded && negb (len fec_frames =? 0) then
          match assign_packets_to_paths c fec_frames [] now with
          | (c, Err e) => (c, Err e)
          | (c, Ok out) => (bump_groups_created c, Ok out)
          end
        else (c, Ok [])
    end.

(** [MPQUICFECController::receive_fec_frame] *)
Definition receive_fec_frame (c : MPQUICFECController) (f : FECFrame)
  (from_path_id : Z) : MPQUICFECController * list (list Z) :=
  let '(h, recovered) := Hook.on_frame_received (receive_hook_ c) f in
  let st := stats_ c in
  let st' :=
    if len recovered =? 0 then st
    else mkStats (total_packets_sent st) (source_packets_sent st)
           (repair_packets_sent st)
           (wrap64 (packets_recovered st + len recovered))
           (fec_groups_created st) (current_redundancy_rate st)
           (avg_encoding_time_us st) in
  (mkController (group_manager_ c) (send_hook_fec_enabled_ c) h
     (path_scheduler_ c) (oco_controller_ c) (pkt_mapper_ c)
     (current_decision_ c) (next_packet_numbers_ c) st' (fec_enabled_ c)
     (block_size_ c) (last_update_time_us_ c),
   recovered).

(** *** The remaining operations of the mapper and the controller *)

(** [PacketNumberMapper::find_by_group] *)
Definition find_by_group (pm : PacketNumberMapper) (gid : Z)
  : list PacketMapping :=
  match zfind gid (group_to_mappings_ pm) with
  | Some l => l
  | None => []
  end.

(** [PacketNumberMapper::cleanup_old_mappings]: the first loop erases from
    [pkt_to_mapping_] the key of every mapping of a group below
    [before_group_id] and notes the group; the second erases the noted
    groups. *)
Definition cleanup_old_mappings (pm : PacketNumberMapper)
  (before_group_id : Z) : PacketNumberMapper :=
  let old := filter (fun kv => fst kv <? before_group_id)
               (group_to_mappings_ pm) in
  {| pkt_to_mapping_ :=
       fold_left
         (fun acc mapping => perase (pm_path_id mapping, pm_packet_number mapping) acc)
         (concat (map snd old)) (pkt_to_mapping_ pm);
     group_to_mappings_ :=
       fold_left (fun acc gid => zerase gid acc) (keys old)
         (group_to_mappings_ pm) |}.

(** [MPQUICFECController::set_fec_strategy] *)
Definition set_fec_strategy (c : MPQUICFECController) (strategy : OCO.Strategy)
  : MPQUICFECController :=
  let '(min_rate, max_rate) := OCO.get_strategy_redundancy_range strategy in
  set_oco c (OCO.set_redundancy_constraints (oco_controller_ c) min_rate max_rate).

Definition set_decision (c : MPQUICFECController) (d : OCO.RedundancyDecision)
  : MPQUICFECController :=
  mkController (group_manager_ c) (send_hook_fec_enabled_ c) (receive_hook_ c)
    (path_scheduler_ c) (oco_controller_ c) (pkt_mapper_ c) d
    (next_packet_numbers_ c) (stats_ c) (fec_enabled_ c) (block_size_ c)
    (last_update_time_us_ c).

Definition set_last_update (c : MPQUICFECController) (t : Z)
  : MPQUICFECController :=
  mkController (group_manager_ c) (send_hook_fec_enabled_ c) (receive_hook_ c)
    (path_scheduler_ c) (oco_controller_ c) (pkt_mapper_ c)
    (current_decision_ c) (next_packet_numbers_ c) (stats_ c) (fec_enabled_ c)
    (block_size_ c) t.

(** [MPQUICFECController::update_fec_parameters] *)
Definition update_fec_parameters (c : MPQUICFECController) (now : Z)
  : MPQUICFECController * result unit :=
  let d := OCO.compute_optimal_redundancy (oco_controller_ c) in
  let c := set_decision c d in
  let '(current_k, current_m) := Hook.get_coding_params (group_manager_ c) in
  if negb (current_k =? OCO.k d) || negb (current_m =? OCO.m d) then
    match Hook.update_coding_params (group_manager_ c) (OCO.k d) (OCO.m d) now with
    | (gm, Err e) => (set_group_manager c gm, Err e)
    | (gm, Ok _) =>
        let c := set_group_manager c gm in
        let st := stats_ c in
        (set_mapper_stats c (pkt_mapper_ c)
           (mkStats (total_packets_sent st) (source_packets_sent st)
              (repair_packets_sent st) (packets_recovered st)
              (fec_groups_created st) (OCO.redundancy_rate d)
              (avg_encoding_time_us st)),
         Ok tt)
    end
  else (c, Ok tt).

(** [MPQUICFECController::periodic_update]; [now] is the clock value read on
    entry. *)
Definition periodic_update (c : MPQUICFECController) (now : Z)
  : MPQUICFECController * result unit :=
  let elapsed_ms := wrap64 (now - last_update_time_us_ c) / 1000 in
  if elapsed_ms <? 100 then (c, Ok tt)
  else
    match update_fec_parameters c now with
    | (c, Err e) => (c, Err e)
    | (c, Ok _) =>
        match Hook.flush_pending_groups (group_manager_ c) now with
        | (gm, Err e) => (set_group_manager c gm, Err e)
        | (gm, Ok _) =>
            let c := set_group_manager c gm in
            let c :=
              if fec_groups_created (stats_ c) >? 1000 then
                let cleanup_before :=
                  wrap64 (fec_groups_created (stats_ c) - 500) in
                set_group_manager
                  (set_mapper_stats c
                     (cleanup_old_mappings (pkt_mapper_ c) cleanup_before)
                     (stats_ c))
                  (Hook.cleanup_old_groups (group_manager_ c) cleanup_before)
              else c in
            (set_last_update c now, Ok tt)
        end
    end.

End Controller.

(** ** Concrete scenarios

    The inputs of the scenarios the specification lists, built with the
    operations above. *)

Module Scenarios.

Import Frame Controller.

(** A rational stand-in for [std::exp], used only to run the concrete
    scenarios below (their outcomes do not depend on the weights); the
    general theorems quantify over the exponential. *)
Definition exp_taylor (x : Q) : Q :=
  (1 + x + x * x / 2 + x * x * x / 6 + x * x * x * x / 24)%Q.

(** A controller built by the constructor and [add_path] calls. *)
Definition controller_with_paths (k m block_size : Z)
  (paths : list Scheduler.PathState) : result MPQUICFECController :=
  match new_controller k m block_size 0 with
  | Err e => Err e
  | Ok c =>
      Ok (fold_left (fun c st => add_path exp_taylor c (Scheduler.path_id st) st)
            paths c)
  end.

(** Successive [send_stream_data] calls, collecting what each returns. *)
Definition send_all (c : MPQUICFECController) (payloads : list (list Z))
  (origin : Z) : MPQUICFECController * list (result (list SendPacketMeta)) :=
  fold_left
    (fun acc p =>
       let '(c', r) := send_stream_data (fst acc) p origin 0 in
       (c', snd acc ++ [r]))
    payloads (c, []).

(** What a returned packet list shows of the numbering: path, packet
    number, repair flag. *)
Definition numbering (r : result (list SendPacketMeta))
  : result (list (Z * Z * bool)) :=
  match r with
  | Err e => Err e
  | Ok l => Ok (map (fun p => (meta_path_id p, packet_number p, is_repair p)) l)
  end.

Definition good_path (id : Z) : Scheduler.PathState :=
  Scheduler.mkPathState id 25 0.03 150 0 0 5 100000.

Definition lossy_path (id : Z) : Scheduler.PathState :=
  Scheduler.mkPathState id 25 0.9 150 0 0 5 100000.

Definition block_1200 : list Z := repeat 0xAA 1200.

(** The recovery scenario of the specification: k = 4, m = 2, blocks of 4
    bytes. *)
Definition s_blocks : list (list Z) :=
  [[1; 2; 3; 4]; [5; 6; 7; 8]; [9; 10; 11; 12]; [13; 14; 15; 16]].

(** The wire round-trip scenario of the specification: a repair frame with
    group id [0xDEADBEEF], block index 7 of 10 and 1200 payload bytes
    [0xAA]. *)
Definition scenario_frame : FECFrame :=
  {| header := mkHeader FEC_REPAIR_FRAME 0xDEADBEEF 7 10 1200;
     payload := repeat 0xAA 1200 |}.

(** [n] paths, with ids 0 to [n - 1]. *)
Definition many_paths (n : nat) : list Scheduler.PathState :=
  map (fun i => good_path (Z.of_nat i)) (seq 0 n).

(** The source frames a sender emits for a group of [blocks] with
    [total] blocks in all. *)
Definition source_frames_of (gid total : Z) (blocks : list (list Z))
  : list FECFrame :=
  Hook.wrap_source_frames gid total 0
    (map (fun b => Hook.mkPending 0 0 b 0) blocks).

(** Successive [on_frame_received] calls, collecting what each returns. *)
Definition receive_all (h : Hook.PacketReceiveHook) (frames : list FECFrame)
  : Hook.PacketReceiveHook * list (list (list Z)) :=
  fold_left
    (fun acc f =>
       let '(h', out) := Hook.on_frame_received (fst acc) f in
       (h', snd acc ++ [out]))
    frames (h, []).

End Scenarios.

(** * Properties *)

(** ** Facts about ordered maps *)

Section OrderedMapFacts.

Context {K V : Type}.
Variable cmp : K -> K -> comparison.
Hypothesis cmp_refl : forall a, cmp a a = Eq.
Hypothesis cmp_eq : forall a b, cmp a b = Eq -> a = b.

Lemma find_insert_same (k : K) (v : V) (m : list (K * V)) :
  find cmp k (insert cmp k v m) = Some v.
Proof.
  induction m as [|[k' v'] m IH]; simpl.
  - now rewrite cmp_refl.
  - destruct (cmp k k') eqn:E; simpl; rewrite ?cmp_refl, ?E; auto.
Qed.

Lemma find_insert_other (k k' : K) (v : V) (m : list (K * V)) :
  k <> k' -> find cmp k (insert cmp k' v m) = find cmp k m.
Proof.
  intros Hne.
  assert (Hk : cmp k k' <> Eq) by (intros E; apply Hne, cmp_eq, E).
  induction m as [|[k1 v1] m IH]; simpl.
  - destruct (cmp k k'); congruence.
  - destruct (cmp k' k1) eqn:E; simpl.
    + apply cmp_eq in E. subst k1. destruct (cmp k k'); congruence.
    + destruct (cmp k k'); congruence.
    + destruct (cmp k k1); auto.
Qed.

Lemma find_some_in (k : K) (v : V) (m : list (K * V)) :
  find cmp k m = Some v -> In k (keys m).
Proof.
  induction m as [|[k' v'] m IH]; simpl; [discriminate|].
  destruct (cmp k k') eqn:E; auto.
  intros _. left. symmetry. now apply cmp_eq.
Qed.

Lemma find_map_values {W : Type} (f : V -> W) (k : K) (m : list (K * V)) :
  find cmp k (map (fun kv => (fst kv, f (snd kv))) m)
  = option_map f (find cmp k m).
Proof.
  induction m as [|[k' v'] m IH]; simpl; [reflexivity|].
  destruct (cmp k k'); auto.
Qed.

End OrderedMapFacts.

Lemma pair_compare_refl (a : Z * Z) : pair_compare a a = Eq.
Proof. unfold pair_compare. now rewrite !Z.compare_refl. Qed.

Lemma pair_compare_eq (a b : Z * Z) : pair_compare a b = Eq -> a = b.
Proof.
  destruct a as [a1 a2], b as [b1 b2]. unfold pair_compare. simpl.
  destruct (Z.compare_spec a1 b1) as [E| |]; try discriminate.
  intros E2. apply Z.compare_eq in E2. congruence.
Qed.

Lemma zfind_zinsert_same {V : Type} (k : Z) (v : V) (m : zmap V) :
  zfind k (zinsert k v m) = Some v.
Proof. apply find_insert_same, Z.compare_refl. Qed.

Lemma zfind_zinsert_other {V : Type} (k k' : Z) (v : V) (m : zmap V) :
  k <> k' -> zfind k (zinsert k' v m) = zfind k m.
Proof. apply find_insert_other, Z.compare_eq. Qed.

Lemma pfind_pinsert_same {V : Type} (k : Z * Z) (v : V) (m : pmap V) :
  pfind k (pinsert k v m) = Some v.
Proof. apply find_insert_same, pair_compare_refl. Qed.

Lemma pfind_pinsert_other {V : Type} (k k' : Z * Z) (v : V) (m : pmap V) :
  k <> k' -> pfind k (pinsert k' v m) = pfind k m.
Proof. apply find_insert_other, pair_compare_eq. Qed.

(** ** Facts about the idealised [double] operations *)

Lemma Qltb_lt (a b : Q) : Qltb a b = true <-> (a < b)%Q.
Proof.
  unfold Qltb. rewrite Qlt_alt. destruct (a ?= b)%Q; split; congruence.
Qed.

Lemma Qltb_ge (a b : Q) : Qltb a b = false <-> (b <= a)%Q.
Proof.
  rewrite <- not_true_iff_false, Qltb_lt. split.
  - apply Qnot_lt_le.
  - apply Qle_not_lt.
Qed.

Lemma dmax_cases (a b : Q) :
  (dmax a b = b /\ (a < b)%Q) \/ (dmax a b = a /\ (b <= a)%Q).
Proof.
  unfold dmax. destruct (Qltb a b) eqn:E.
  - left. split; [reflexivity | now apply Qltb_lt].
  - right. split; [reflexivity | now apply Qltb_ge].
Qed.

Lemma dmin_cases (a b : Q) :
  (dmin a b = b /\ (b < a)%Q) \/ (dmin a b = a /\ (a <= b)%Q).
Proof.
  unfold dmin. destruct (Qltb b a) eqn:E.
  - left. split; [reflexivity | now apply Qltb_lt].
  - right. split; [reflexivity | now apply Qltb_ge].
Qed.

(** Clamping twice is clamping once, also when the bounds are crossed. *)
Ltac split_Qltb :=
  repeat match goal with
  | |- context [Qltb ?a ?b] =>
      let E := fresh "E" in destruct (Qltb a b) eqn:E
  | H : context [if Qltb ?a ?b then _ else _] |- _ =>
      let E := fresh "E" in destruct (Qltb a b) eqn:E
  end;
  cbv iota in *;
  repeat match goal with
  | H : Qltb _ _ = true |- _ => apply Qltb_lt in H
  | H : Qltb _ _ = false |- _ => apply Qltb_ge in H
  end.


Lemma clamp_bounds (x : Q) :
  (-1 <= dmax (-1.0) (dmin 1.0 x) <= 1)%Q.
Proof. unfold dmax, dmin. split_Qltb; lra. Qed.

(** ** Properties of the frame codec *)

Section FrameCodec.

Import Frame Scenarios.

Lemma length_be_bytes (n : nat) (x : Z) : length (be_bytes n x) = n.
Proof. induction n as [|n IH]; simpl; [reflexivity | now rewrite IH]. Qed.

Lemma lor_shiftl_byte (acc b : Z) :
  0 <= b < 256 -> Z.lor (Z.shiftl acc 8) b = acc * 256 + b.
Proof.
  intros Hb. rewrite Z.shiftl_mul_pow2 by lia.
  assert (Hl : Z.land (acc * 2 ^ 8) b = 0).
  { apply Z.bits_inj'. intros n Hn. rewrite Z.land_spec, Z.bits_0.
    destruct (Z.ltb_spec n 8) as [Hlt|Hge].
    - now rewrite Z.mul_pow2_bits_low by lia.
    - replace b with (b mod 2 ^ 8) by (apply Z.mod_small; lia).
      rewrite Z.mod_pow2_bits_high by lia. apply andb_false_r. }
  rewrite <- Z.lxor_lor by exact Hl.
  rewrite <- Z.add_nocarry_lxor by exact Hl. reflexivity.
Qed.

Lemma byte_of_shift (x : Z) (i : nat) :
  Z.land (Z.shiftr x (Z.of_nat i * 8)) 0xFF = (x / 2 ^ (8 * Z.of_nat i)) mod 256.
Proof.
  change 0xFF with (Z.ones 8). rewrite Z.land_ones by lia.
  rewrite Z.shiftr_div_pow2 by lia. now rewrite Z.mul_comm.
Qed.

Lemma fold_be_bytes (w : Z) (n : nat) (x : Z) :
  forall acc : Z,
    0 <= acc ->
    acc * 2 ^ (8 * Z.of_nat n) + x mod 2 ^ (8 * Z.of_nat n) < 2 ^ w ->
    fold_left (be_step w) (be_bytes n x) acc
    = acc * 2 ^ (8 * Z.of_nat n) + x mod 2 ^ (8 * Z.of_nat n).
Proof.
  induction n as [|n IH]; intros acc Hacc Hlt.
  - simpl. rewrite Z.mod_1_r. lia.
  - cbn [be_bytes fold_left].
    set (p := 2 ^ (8 * Z.of_nat n)) in *.
    assert (Hp : 0 < p) by (apply Z.pow_pos_nonneg; lia).
    assert (Hpow : 2 ^ (8 * Z.of_nat (S n)) = p * 256).
    { unfold p. replace (8 * Z.of_nat (S n)) with (8 * Z.of_nat n + 8) by lia.
      rewrite Z.pow_add_r by lia. reflexivity. }
    rewrite Hpow in *.
    rewrite Z.rem_mul_r in * by lia.
    rewrite byte_of_shift. fold p.
    set (b := (x / p) mod 256) in *.
    assert (Hb : 0 <= b < 256) by (apply Z.mod_pos_bound; lia).
    assert (Hr : 0 <= x mod p < p) by (apply Z.mod_pos_bound; lia).
    unfold be_step. rewrite lor_shiftl_byte by exact Hb.
    assert (Hw : 0 < 2 ^ w).
    { destruct (Z.ltb_spec w 0).
      - rewrite Z.pow_neg_r in Hlt by lia. nia.
      - apply Z.pow_pos_nonneg; lia. }
    rewrite Z.mod_small by nia.
    rewrite IH by nia. fold p. ring.
Qed.

Lemma be_read_be_bytes (w : Z) (n : nat) (x : Z) :
  0 <= x < 2 ^ (8 * Z.of_nat n) ->
  2 ^ (8 * Z.of_nat n) <= 2 ^ w ->
  be_read w (be_bytes n x) = x.
Proof.
  intros Hx Hw. unfold be_read.
  rewrite fold_be_bytes; rewrite ?Z.mod_small; lia.
Qed.

Lemma slice_app (pre mid post : list Z) (off n : nat) :
  length pre = off -> length mid = n ->
  slice (pre ++ mid ++ post) off n = mid.
Proof.
  intros <- <-. unfold slice.
  rewrite skipn_app, skipn_all, Nat.sub_diag. simpl.
  rewrite firstn_app, firstn_all, Nat.sub_diag. simpl. apply app_nil_r.
Qed.

Lemma header_serialize_layout (h : FECFrameHeader) :
  header_serialize h
  = [wrap8 (frame_type h)] ++ be_bytes 8 (group_id h)
      ++ be_bytes 4 (block_index h) ++ be_bytes 4 (total_blocks h)
      ++ be_bytes 4 (payload_length h) ++ [0; 0; 0; 0].
Proof.
  unfold header_serialize, write_prefix.
  repeat rewrite length_app. repeat rewrite length_be_bytes.
  repeat rewrite <- app_assoc. reflexivity.
Qed.

Lemma length_header_serialize (h : FECFrameHeader) :
  length (header_serialize h) = 25%nat.
Proof.
  rewrite header_serialize_layout.
  repeat rewrite length_app. repeat rewrite length_be_bytes. reflexivity.
Qed.

Lemma len_serialize (f : FECFrame) :
  len (serialize f) = HEADER_SIZE + len (payload f).
Proof.
  unfold serialize, len. rewrite length_app, length_header_serialize.
  unfold HEADER_SIZE. lia.
Qed.

Lemma header_deserialize_serialize (f : FECFrame) :
  well_formed f ->
  header_deserialize (serialize f) = Ok (header f).
Proof.
  intros (Hty & Hg & Hb & Ht & Hp & _).
  unfold header_deserialize. rewrite len_serialize.
  destruct (Z.ltb_spec (HEADER_SIZE + len (payload f)) HEADER_SIZE) as [H|_];
    [unfold len in H; lia|].
  unfold serialize. rewrite header_serialize_layout.
  destruct f as [[ty g b t p] pl]; cbn [header payload frame_type group_id
    block_index total_blocks payload_length] in *.
  assert (Hty' : wrap8 ty = ty).
  { unfold wrap8. destruct Hty as [-> | ->]; reflexivity. }
  rewrite Hty'. f_equal.
  unfold is_uint64, is_uint32 in *.
  f_equal.
  - repeat rewrite <- app_assoc.
    rewrite (slice_app [ty] (be_bytes 8 g)) by (now rewrite ?length_be_bytes).
    apply be_read_be_bytes; simpl; lia.
  - repeat rewrite <- app_assoc.
    rewrite (app_assoc [ty] (be_bytes 8 g)).
    rewrite (slice_app ([ty] ++ be_bytes 8 g) (be_bytes 4 b))
      by (now rewrite ?length_app, ?length_be_bytes).
    apply be_read_be_bytes; simpl; lia.
  - repeat rewrite <- app_assoc.
    rewrite (app_assoc (be_bytes 8 g) (be_bytes 4 b)).
    rewrite (app_assoc [ty] (be_bytes 8 g ++ be_bytes 4 b)).
    rewrite (slice_app ([ty] ++ be_bytes 8 g ++ be_bytes 4 b) (be_bytes 4 t))
      by (now rewrite ?length_app, ?length_be_bytes).
    apply be_read_be_bytes; simpl; lia.
  - repeat rewrite <- app_assoc.
    rewrite (app_assoc (be_bytes 4 b) (be_bytes 4 t)).
    rewrite (app_assoc (be_bytes 8 g) (be_bytes 4 b ++ be_bytes 4 t)).
    rewrite (app_assoc [ty] (be_bytes 8 g ++ be_bytes 4 b ++ be_bytes 4 t)).
    rewrite (slice_app ([ty] ++ be_bytes 8 g ++ be_bytes 4 b ++ be_bytes 4 t)
               (be_bytes 4 p))
      by (now rewrite ?length_app, ?length_be_bytes).
    apply be_read_be_bytes; simpl; lia.
Qed.

(** C4.  Every well-formed frame survives a round trip through the wire
    format: parsing the serialisation gives the frame back; the
    serialisation of a frame with a payload of [L] bytes has [25 + L] bytes,
    and the four reserved bytes at offsets 21 to 24 are zero. *)
Theorem frame_round_trip (f : FECFrame) :
  well_formed f ->
  deserialize (serialize f) = Ok f
  /\ len (serialize f) = 25 + len (payload f)
  /\ slice (serialize f) 21 4 = [0; 0; 0; 0].
Proof.
  intros Hwf. split; [|split].
  - unfold deserialize. rewrite header_deserialize_serialize by exact Hwf.
    rewrite len_serialize.
    destruct Hwf as (_ & _ & _ & _ & _ & Hlen).
    rewrite Hlen.
    destruct (Z.ltb_spec (HEADER_SIZE + len (payload f))
                (HEADER_SIZE + len (payload f))) as [H|_]; [lia|].
    destruct f as [h pl]; cbn [header payload] in *. f_equal. f_equal.
    unfold serialize; cbn [header payload].
    rewrite <- (app_nil_r pl) at 1.
    apply slice_app.
    + apply length_header_serialize.
    + unfold len. symmetry. apply Nat2Z.id.
  - apply len_serialize.
  - unfold serialize. rewrite header_serialize_layout.
    repeat rewrite <- app_assoc.
    rewrite (app_assoc (be_bytes 4 (total_blocks (header f)))).
    rewrite (app_assoc (be_bytes 4 (block_index (header f)))).
    rewrite (app_assoc (be_bytes 8 (group_id (header f)))).
    rewrite (app_assoc [wrap8 (frame_type (header f))]).
    apply slice_app; [|reflexivity].
    now rewrite ?length_app, ?length_be_bytes.
Qed.

Lemma frame_round_trip_witness :
  well_formed scenario_frame
  /\ deserialize (serialize scenario_frame) = Ok scenario_frame
  /\ len (serialize scenario_frame) = 25 + len (payload scenario_frame)
  /\ slice (serialize scenario_frame) 21 4 = [0; 0; 0; 0].
Proof.
  assert (Hwf : well_formed scenario_frame);
    [| split; [exact Hwf | apply (frame_round_trip scenario_frame Hwf)]].
  unfold well_formed, is_uint64, is_uint32; cbn [scenario_frame header payload
    frame_type group_id block_index total_blocks payload_length].
  repeat split; try lia; try (right; reflexivity).
Defined.

(** C5, as the code has it.  The parser fails on fewer than 25 bytes
    (header too short) and on fewer than [25 + payload_length] bytes
    (payload too short), and these are its only failures: on any other
    input it returns a frame whose type is the first byte, whatever that
    byte is. *)
Theorem deserialize_failures (data : list Z) :
  (len data < 25 -> deserialize data = Err Insufficient_header)
  /\ (25 <= len data ->
      len data < 25 + be_read 32 (slice data 17 4) ->
      deserialize data = Err Insufficient_payload)
  /\ (25 <= len data ->
      25 + be_read 32 (slice data 17 4) <= len data ->
      exists f, deserialize data = Ok f
                /\ frame_type (header f) = nth 0 data 0
                /\ payload_length (header f) = be_read 32 (slice data 17 4)
                /\ payload f = slice data 25 (Z.to_nat (payload_length (header f)))).
Proof.
  unfold deserialize, header_deserialize, HEADER_SIZE.
  repeat split.
  - intros H. destruct (Z.ltb_spec (len data) 25); [reflexivity | lia].
  - intros H1 H2. destruct (Z.ltb_spec (len data) 25); [lia|].
    cbn [payload_length].
    destruct (Z.ltb_spec (len data) (25 + be_read 32 (slice data 17 4)));
      [reflexivity | lia].
  - intros H1 H2. destruct (Z.ltb_spec (len data) 25); [lia|].
    cbn [payload_length].
    destruct (Z.ltb_spec (len data) (25 + be_read 32 (slice data 17 4)));
      [lia|].
    eexists. split; [reflexivity|]. cbn. repeat split.
Qed.

(** C5, the counterexample: 25 bytes whose first byte is [0x08] (neither
    [0xF0] nor [0xF1]) parse to a frame of type [0x08]; no error is raised. *)
Lemma deserialize_accepts_unknown_type :
  deserialize (0x08 :: repeat 0 24)
  = Ok {| header := mkHeader 0x08 0 0 0 0; payload := [] |}.
Proof. vm_compute. reflexivity. Qed.

End FrameCodec.

(** ** The code on the scenarios of the specification *)

Section ScenarioRuns.

Import Scenarios.

(** C1, the code at the recovery scenario.  With k = 4, m = 2 and blocks of
    4 bytes, the encoder yields two parity blocks; the decoder, given
    s[0], s[2], r[0], r[1] with indices 0, 2, 4, 5, returns s[0], s[2] and
    two zero blocks: the repair blocks are not used and s[1], s[3] are not
    recovered. *)
Theorem decode_zero_fills_missing_sources :
  Codec.encode (Codec.mkEncoder 4 2 4) s_blocks
  = Ok [[36; 40; 16; 112]; [104; 120; 116; 112]]
  /\ Codec.decode (Codec.new_decoder 4 2 4)
       [[1; 2; 3; 4]; [9; 10; 11; 12]; [36; 40; 16; 112]; [104; 120; 116; 112]]
       [0; 2; 4; 5]
     = Ok [[1; 2; 3; 4]; [9; 10; 11; 12]; [0; 0; 0; 0]; [0; 0; 0; 0]].
Proof. split; vm_compute; reflexivity. Qed.

(** C6, the code on one path.  A controller with k = 4, m = 2 and one path
    registered by [add_path]: the first three sends return nothing and the
    fourth returns the six packets of the group, numbered 5 to 10 on path 0.
    Numbers 1 to 4 were taken by the four calls themselves and are carried
    by no packet. *)
Theorem first_group_packet_numbers :
  match controller_with_paths 4 2 1200 [good_path 0] with
  | Err e => [Err e]
  | Ok c =>
      map numbering
        (snd (send_all c [block_1200; block_1200; block_1200; block_1200] 0))
  end
  = [Ok []; Ok []; Ok [];
     Ok [(0, 5, false); (0, 6, false); (0, 7, false); (0, 8, false);
         (0, 9, true); (0, 10, true)]].
Proof. vm_compute. reflexivity. Qed.

(** C3, the counterexample.  Two registered paths, both with loss rate 0.9:
    neither is available, yet the fourth send selects path 0 for the source
    packets and path 1 for the repair packets and returns them; no error is
    raised. *)
Lemma selection_returns_unavailable_paths :
  match controller_with_paths 4 2 1200 [lossy_path 0; lossy_path 1] with
  | Err e => (true, true, [Err e])
  | Ok c =>
      (Scheduler.is_path_available (Controller.path_scheduler_ c) 0,
       Scheduler.is_path_available (Controller.path_scheduler_ c) 1,
       map numbering
         (snd (send_all c [block_1200; block_1200; block_1200; block_1200] 0)))
  end
  = (false, false,
     [Ok []; Ok []; Ok [];
      Ok [(0, 5, false); (0, 6, false); (0, 7, false); (0, 8, false);
          (1, 1, true); (1, 2, true)]]).
Proof. vm_compute. reflexivity. Qed.


End ScenarioRuns.

(** ** Properties of the block decoder *)

Section BlockDecoder.

Import Codec.

Lemma collect_sources_ignores_repairs (k : Z) (received : list block) :
  forall (received' : list block) (ids : list Z) (recovered : list block),
    length received = length received' ->
    (forall i, nth i ids k < k -> nth i received [] = nth i received' []) ->
    collect_sources k received ids recovered
    = collect_sources k received' ids recovered.
Proof.
  induction received as [|b received IH];
    intros [|b' received'] ids recovered Hlen Hsame;
    try discriminate; [reflexivity|].
  destruct ids as [|id ids]; [reflexivity|]. cbn [collect_sources].
  destruct (len recovered <? k); [|reflexivity].
  assert (Htail : forall i, nth i ids k < k ->
                            nth i received [] = nth i received' [])
    by (intros i Hi; apply (Hsame (S i)); exact Hi).
  injection Hlen as Hlen.
  destruct (Z.ltb_spec id k) as [Hid|Hid].
  - rewrite (Hsame O Hid : b = b'). now apply IH.
  - now apply IH.
Qed.

(** The decoder reads no repair block: two inputs that agree on the blocks
    with an id below [k] decode to the same result. *)
Lemma decode_ignores_repair_blocks (d : FECDecoder)
  (received received' : list block) (ids : list Z) :
  length received = length received' ->
  (forall i, nth i ids (dec_k_ d) < dec_k_ d ->
             nth i received [] = nth i received' []) ->
  decode d received ids = decode d received' ids.
Proof.
  intros Hlen Hsame. unfold decode, len. rewrite <- Hlen.
  now rewrite (collect_sources_ignores_repairs (dec_k_ d) received received'
                 ids [] Hlen Hsame).
Qed.

End BlockDecoder.

(** ** Packet numbers *)

Section PacketNumbers.

Import Hook Controller.

(** A send with FEC enabled that completes no group returns no packet and
    still advances the packet-number counter of the origin path. *)
Lemma send_without_packets_consumes_a_number (c : MPQUICFECController)
  (payload_bytes : list Z) (origin now : Z) :
  fec_enabled_ c = true ->
  send_hook_fec_enabled_ c = true ->
  len (source_packets (current_group_ (group_manager_ c))) + 1
  < current_k_ (group_manager_ c) ->
  let current := match zfind origin (next_packet_numbers_ c) with
                 | Some n => n
                 | None => 0
                 end in
  let res := send_stream_data c payload_bytes origin now in
  snd res = Ok []
  /\ zfind origin (next_packet_numbers_ (fst res)) = Some (wrap64 (current + 1)).
Proof.
  intros Hfec Hhook Hlt. cbv zeta. unfold send_stream_data.
  rewrite Hfec. cbn [negb]. unfold get_next_packet_number.
  cbn [send_hook_fec_enabled_ set_packet_numbers group_manager_].
  rewrite Hhook. unfold on_packet_send, add_source_packet. cbn [negb].
  set (g := push_source _ _).
  assert (Hlen : len (source_packets g)
                 = len (source_packets (current_group_ (group_manager_ c))) + 1).
  { unfold g, push_source, len. cbn [source_packets].
    rewrite length_app. simpl. lia. }
  rewrite Hlen.
  destruct (Z.geb_spec
              (len (source_packets (current_group_ (group_manager_ c))) + 1)
              (current_k_ (group_manager_ c))) as [H|_]; [lia|].
  cbn. split; [reflexivity | apply zfind_zinsert_same].
Qed.

End PacketNumbers.

(** ** Properties of the correlation stores *)

Section Correlation.

Lemma canonical_key_sym (i j : Z) :
  OCO.canonical_key i j = OCO.canonical_key j i.
Proof. unfold OCO.canonical_key. now rewrite Z.min_comm, Z.max_comm. Qed.

(** The correlation matrix of the redundancy controller does what the
    specification says of the correlation update: the coefficient is
    clamped to [-1, 1] and found again under either order of the pair; the
    matrix is symmetric, 1 on the diagonal and 0 where nothing is stored. *)
Lemma correlation_matrix_update (cm : OCO.LossCorrelationMatrix)
  (i j : Z) (rho : Q) :
  let cm' := OCO.update_correlation cm i j rho in
  let stored := dmax (-1.0) (dmin 1.0 rho) in
  (-1 <= stored <= 1)%Q
  /\ pfind (Z.min i j, Z.max i j) cm' = Some stored
  /\ (i <> j -> OCO.get_correlation cm' i j = stored)
  /\ (forall a b, OCO.get_correlation cm' a b = OCO.get_correlation cm' b a)
  /\ (forall a, OCO.get_correlation cm' a a = 1.0%Q)
  /\ (forall a b, a <> b -> pfind (OCO.canonical_key a b) cm' = None ->
                  OCO.get_correlation cm' a b = 0.0%Q).
Proof.
  cbv zeta. repeat split.
  - apply clamp_bounds.
  - apply clamp_bounds.
  - unfold OCO.update_correlation, OCO.canonical_key. apply pfind_pinsert_same.
  - intros Hne. unfold OCO.get_correlation.
    destruct (Z.eqb_spec i j) as [|_]; [contradiction|].
    unfold OCO.update_correlation. now rewrite pfind_pinsert_same.
  - intros a b. unfold OCO.get_correlation.
    rewrite (Z.eqb_sym b a), (canonical_key_sym b a). reflexivity.
  - intros a. unfold OCO.get_correlation. now rewrite Z.eqb_refl.
  - intros a b Hne Hnone. unfold OCO.get_correlation.
    destruct (Z.eqb_spec a b) as [|_]; [contradiction|]. now rewrite Hnone.
Qed.

(** The scheduler's own store is symmetric, 1 on the diagonal and 0 where
    nothing is stored, but keeps the coefficient as it was passed. *)
Lemma scheduler_correlation_update (s : Scheduler.PathScheduler)
  (oco : OCO.OCORedundancyController) (i j : Z) (rho : Q) :
  let s' := fst (Scheduler.update_path_correlation s oco i j rho) in
  (i <> j -> Scheduler.get_path_correlation s' i j = rho)
  /\ (forall a b, Scheduler.get_path_correlation s' a b
                  = Scheduler.get_path_correlation s' b a)
  /\ (forall a, Scheduler.get_path_correlation s' a a = 1.0%Q).
Proof.
  cbv zeta. repeat split.
  - intros Hne. unfold Scheduler.get_path_correlation.
    destruct (Z.eqb_spec i j) as [|_]; [contradiction|].
    unfold Scheduler.update_path_correlation. cbn [fst Scheduler.path_correlations_].
    now rewrite pfind_pinsert_same.
  - intros a b. unfold Scheduler.get_path_correlation.
    now rewrite (Z.eqb_sym b a), (Z.min_comm b a), (Z.max_comm b a).
  - intros a. unfold Scheduler.get_path_correlation. now rewrite Z.eqb_refl.
Qed.

(** C9, the code at [update_loss_correlation(0, 1, 5.0)] on a fresh
    controller: the redundancy controller's matrix holds the clamped value
    1, the scheduler's store holds 5, outside [-1, 1]. *)
Theorem scheduler_keeps_correlation_unclamped :
  match Scenarios.controller_with_paths 4 2 1200 [] with
  | Err _ => None
  | Ok c =>
      let c' := Controller.update_loss_correlation c 0 1 5 in
      Some (OCO.get_correlation
              (OCO.correlation_matrix_ (Controller.oco_controller_ c')) 0 1,
            Scheduler.get_path_correlation (Controller.path_scheduler_ c') 0 1,
            Qle_bool (Scheduler.get_path_correlation
                        (Controller.path_scheduler_ c') 0 1) 1)
  end
  = Some (1.0%Q, 5%Q, false).
Proof. vm_compute. reflexivity. Qed.

End Correlation.

(** ** Properties of the redundancy controller *)

Section RedundancyController.

Import OCO.

Lemma redundancy_rate_to_params_bounds (rate : Q) :
  1 <= snd (redundancy_rate_to_params rate) <= fst (redundancy_rate_to_params rate).
Proof.
  unfold redundancy_rate_to_params. cbn [fst snd].
  destruct (Qltb rate 0.2); [|destruct (Qltb 0.6 rate)]; lia.
Qed.



End RedundancyController.

(** ** Properties of path selection *)

Section PathSelection.

Import Scheduler.

Lemma best_score_loop_in (entries : zmap PathState) (best_score : Q)
  (best_path : Z) :
  best_score_loop entries best_score best_path = best_path
  \/ In (best_score_loop entries best_score best_path) (keys entries).
Proof.
  revert best_score best_path.
  induction entries as [|[id st] rest IH]; intros bs bp; simpl; [now left|].
  destruct (Qltb bs (source_score st)).
  - destruct (IH (source_score st) id) as [-> | H]; auto.
  - destruct (IH bs bp) as [-> | H]; auto.
Qed.

Lemma least_correlated_loop_in (s : PathScheduler) (id : Z)
  (candidates : list Z) (min_correlation : Q) (best_path : Z) :
  least_correlated_loop s id candidates min_correlation best_path = best_path
  \/ In (least_correlated_loop s id candidates min_correlation best_path)
       candidates.
Proof.
  revert min_correlation best_path.
  induction candidates as [|cand rest IH]; intros mc bp; simpl; [now left|].
  destruct (cand =? id).
  - destruct (IH mc bp) as [-> | H]; auto.
  - destruct (Qltb _ mc).
    + destruct (IH (dabs (get_path_correlation s id cand)) cand) as [-> | H];
        auto.
    + destruct (IH mc bp) as [-> | H]; auto.
Qed.

Lemma first_other_path_in (paths : list Z) (source repair : Z) :
  first_other_path paths source repair = repair
  \/ In (first_other_path paths source repair) paths.
Proof.
  induction paths as [|id rest IH]; simpl; [now left|].
  destruct (negb (id =? source)); [now right; left|].
  destruct IH as [-> | H]; auto.
Qed.

(** C3, as the code has it.  [is_path_available] holds of exactly the
    registered paths with loss rate below 0.5 and bandwidth above 0.1.  The
    selection operations do not consult it: they fail, with "No paths
    available", exactly when no path is registered, and otherwise return a
    registered path (or, for the repair path, the source path passed in),
    available or not. *)
Theorem selection_ignores_availability (s : PathScheduler) (size : Z) :
  (forall id,
      is_path_available s id = true
      <-> exists st, zfind id (paths_ s) = Some st
                     /\ (loss_rate st < 0.5)%Q
                     /\ (0.1 < bandwidth_mbps st)%Q)
  /\ (select_source_path s size = Err No_paths_available <-> paths_ s = [])
  /\ (forall p, select_source_path s size = Ok p -> In p (keys (paths_ s)))
  /\ (forall src,
         select_repair_path s src size = Err No_paths_available
         <-> paths_ s = [])
  /\ (forall src p,
         select_repair_path s src size = Ok p ->
         In p (keys (paths_ s)) \/ p = src).
Proof.
  split; [|split; [|split; [|split]]].
  - intros id. unfold is_path_available.
    destruct (zfind id (paths_ s)) as [st|].
    + rewrite andb_true_iff, !Qltb_lt. split.
      * intros [H1 H2]. exists st. auto.
      * intros (st' & E & H1 & H2). injection E as <-. auto.
    + split; [discriminate|]. intros (st' & E & _). discriminate.
  - unfold select_source_path.
    destruct (paths_ s) as [|[first st] rest]; split; congruence.
  - intros p. unfold select_source_path.
    destruct (paths_ s) as [|[first st] rest] eqn:E; [discriminate|].
    assert (Hin : In (best_score_loop ((first, st) :: rest) (-1e9)%Q first)
                    (keys ((first, st) :: rest))).
    { destruct (best_score_loop_in ((first, st) :: rest) (-1e9)%Q first)
        as [Hb | Hb]; [rewrite Hb; now left | exact Hb]. }
    intros [= Hp]. rewrite <- Hp. exact Hin.
  - intros src. unfold select_repair_path.
    destruct (paths_ s) as [|[first st] [|e rest]]; [tauto| |].
    + split; discriminate.
    + destruct (_ && _); split; discriminate.
  - intros src p. unfold select_repair_path.
    destruct (paths_ s) as [|[first st] [|e rest]] eqn:E; [discriminate| |].
    + intros [= Hp]. rewrite <- Hp. left. now left.
    + rewrite <- E.
      assert (Hl : find_least_correlated_path s src = src
                   \/ In (find_least_correlated_path s src) (keys (paths_ s))).
      { unfold find_least_correlated_path.
        destruct (len (paths_ s) <=? 1); [now left|].
        apply least_correlated_loop_in. }
      destruct (_ && _) eqn:Eb; intros [= Hp]; rewrite <- Hp.
      * destruct (first_other_path_in (keys (paths_ s)) src
                    (find_least_correlated_path s src)) as [Hf | Hf];
          [rewrite Hf | now left].
        destruct Hl as [Hl | Hl]; [rewrite Hl|]; auto.
      * destruct Hl as [Hl | Hl]; [rewrite Hl|]; auto.
Qed.

End PathSelection.

(** ** Properties of the send path *)

Section SendPath.

Import Frame Hook Controller.

Lemma payload_wrap_source_frames (gid total : Z) (i : nat)
  (packets : list PendingPacket) :
  map payload (wrap_source_frames gid total i packets) = map pp_data packets.
Proof.
  revert i. induction packets as [|p rest IH]; intros i; simpl;
    [reflexivity | now rewrite IH].
Qed.



Lemma frame_of_assign_one (source_path repair_path now : Z)
  (c : MPQUICFECController) (acc : list SendPacketMeta) (f : FECFrame) :
  map frame (snd (assign_one source_path repair_path now (c, acc) f))
  = map frame acc ++ [f].
Proof.
  unfold assign_one.
  destruct (get_next_packet_number c _) as [c1 pn].
  cbn [snd]. now rewrite map_app.
Qed.

Lemma frames_of_assignment (source_path repair_path now : Z)
  (frames : list FECFrame) :
  forall (c : MPQUICFECController) (acc : list SendPacketMeta),
    map frame
      (snd (fold_left (assign_one source_path repair_path now) frames (c, acc)))
    = map frame acc ++ frames.
Proof.
  induction frames as [|f rest IH]; intros c acc; cbn [fold_left].
  - now rewrite app_nil_r.
  - pose proof (frame_of_assign_one source_path repair_path now c acc f) as Hf.
    destruct (assign_one source_path repair_path now (c, acc) f) as [c1 acc1].
    cbn [snd] in Hf. rewrite IH, Hf, <- app_assoc. reflexivity.
Qed.



End SendPath.

(** ** Properties of the scheduler weights *)

Section SchedulerWeights.

Import Scheduler Scenarios.

Lemma sum_values_acc (m : zmap Q) (a : Q) :
  (fold_left (fun acc kv => acc + snd kv) m a == a + sum_values m)%Q.
Proof.
  unfold sum_values. revert a.
  induction m as [|[k v] m IH]; intros a; simpl.
  - lra.
  - rewrite (IH (a + v)%Q), (IH (0 + v)%Q). lra.
Qed.

Lemma sum_values_cons (k : Z) (v : Q) (m : zmap Q) :
  (sum_values ((k, v) :: m) == v + sum_values m)%Q.
Proof.
  unfold sum_values at 1. simpl. rewrite sum_values_acc. lra.
Qed.

Lemma sum_values_scaled (m : zmap Q) (s : Q) :
  (sum_values (map (fun kv => (fst kv, snd kv / s)) m) == sum_values m / s)%Q.
Proof.
  induction m as [|[k v] m IH].
  - unfold sum_values. simpl. unfold Qdiv. lra.
  - cbn [map fst snd]. rewrite !sum_values_cons, IH. unfold Qdiv. lra.
Qed.

Lemma sum_values_lower (m : zmap Q) (c : Q) :
  Forall (fun kv => (c <= snd kv)%Q) m ->
  (c * inject_Z (len m) <= sum_values m)%Q.
Proof.
  induction 1 as [|[k v] m Hv _ IH].
  - change (c * 0 <= 0)%Q. rewrite Qmult_0_r. apply Qle_refl.
  - rewrite sum_values_cons. unfold len in *. cbn [length snd] in *.
    rewrite Nat2Z.inj_succ. unfold Z.succ. rewrite inject_Z_plus.
    change (inject_Z 1) with 1%Q. lra.
Qed.

Lemma dmax_ge_l (a b : Q) : (a <= dmax a b)%Q.
Proof. unfold dmax. split_Qltb; lra. Qed.

Lemma keys_insert_in {V : Type} (k k' : Z) (v : V) (m : zmap V) :
  In k (keys (zinsert k' v m)) -> k = k' \/ In k (keys m).
Proof.
  unfold zinsert.
  induction m as [|[k1 v1] m IH]; simpl.
  - intros [H|[]]; auto.
  - destruct (k' ?= k1); simpl; intros [H|H]; auto.
    destruct (IH H); auto.
Qed.

Lemma zinsert_not_nil {V : Type} (k : Z) (v : V) (m : zmap V) :
  zinsert k v m <> [].
Proof.
  unfold zinsert. destruct m as [|[k1 v1] m]; simpl; [discriminate|].
  destruct (k ?= k1); discriminate.
Qed.

Section WithExp.

Variable exp : Q -> Q.

Lemma fst_reweigh (costs : zmap Q) (total : Q) (entry : Z * Q) :
  fst (reweigh exp costs total entry) = fst entry.
Proof.
  destruct entry as [k w]. unfold reweigh. destruct (zfind k costs); reflexivity.
Qed.

Lemma keys_update_weights_maps (paths : zmap PathState) (weights : zmap Q) :
  keys (update_weights_maps exp paths weights) = keys weights.
Proof.
  unfold update_weights_maps. destruct paths as [|p paths]; [reflexivity|].
  unfold keys. rewrite !map_map. apply map_ext. intros entry.
  cbn [fst]. apply fst_reweigh.
Qed.

Lemma reweigh_floor (paths : zmap PathState) (total : Q) (k : Z) (w : Q) :
  zfind k paths <> None ->
  (0.001 <= snd (reweigh exp
                   (map (fun kv => (fst kv, compute_cost (snd kv))) paths)
                   total (k, w)))%Q.
Proof.
  intros Hk. unfold reweigh, zfind.
  rewrite (find_map_values Z.compare compute_cost). fold (@zfind PathState).
  destruct (zfind k paths); [|congruence]. simpl. apply dmax_ge_l.
Qed.

Lemma update_weights_maps_distribution (paths : zmap PathState)
  (weights : zmap Q) :
  paths <> [] -> weights <> [] -> tracked paths weights ->
  (sum_values (update_weights_maps exp paths weights) == 1)%Q
  /\ Forall (fun kv => (0 < snd kv)%Q) (update_weights_maps exp paths weights).
Proof.
  intros Hp Hw Ht. unfold update_weights_maps.
  destruct paths as [|p0 paths0] eqn:Ep; [congruence|]. rewrite <- Ep in *.
  set (costs := map _ paths).
  set (total := sum_values costs).
  set (weights1 := map (reweigh exp costs total) weights).
  assert (Hfloor : Forall (fun kv => (0.001 <= snd kv)%Q) weights1).
  { unfold weights1. apply Forall_map, Forall_forall. intros [k w] Hin.
    apply reweigh_floor, Ht. unfold keys. now apply (in_map fst) in Hin. }
  assert (Hlen : 1 <= len weights1).
  { unfold weights1, len. rewrite length_map.
    destruct weights; [congruence | simpl; lia]. }
  assert (Hsum : (0.001 <= sum_values weights1)%Q).
  { pose proof (sum_values_lower weights1 0.001 Hfloor) as Hl.
    assert (H1 : (1 <= inject_Z (len weights1))%Q).
    { change 1%Q with (inject_Z 1). now rewrite <- Zle_Qle. }
    lra. }
  split.
  - rewrite sum_values_scaled. unfold Qdiv. apply Qmult_inv_r. lra.
  - apply Forall_map. revert Hfloor. apply Forall_impl. intros [k w] Hk.
    cbn [snd] in *. apply Qlt_shift_div_l; lra.
Qed.

Lemma update_path_state_tracked (s : PathScheduler) (state : PathState) :
  tracked (paths_ s) (weights_ s) ->
  let s' := update_path_state exp s state in
  tracked (paths_ s') (weights_ s')
  /\ (sum_values (weights_ s') == 1)%Q
  /\ Forall (fun kv => (0 < snd kv)%Q) (weights_ s').
Proof.
  intros Ht. cbv zeta. unfold update_path_state, update_weights.
  cbn [paths_ weights_].
  set (paths := zinsert (path_id state) state (paths_ s)).
  set (weights := match zfind (path_id state) (weights_ s) with
                  | Some _ => weights_ s
                  | None => _
                  end).
  assert (Hpaths : forall k, k = path_id state \/ zfind k (paths_ s) <> None ->
                             zfind k paths <> None).
  { intros k Hk. unfold paths.
    destruct (Z.eq_dec k (path_id state)) as [->|Hne].
    - rewrite zfind_zinsert_same. discriminate.
    - rewrite zfind_zinsert_other by exact Hne. destruct Hk; [contradiction|auto]. }
  assert (Ht' : tracked paths weights).
  { intros k Hin. apply Hpaths. unfold weights in Hin.
    destruct (zfind (path_id state) (weights_ s)).
    - right. now apply Ht.
    - apply keys_insert_in in Hin. destruct Hin; [now left | right; now apply Ht]. }
  assert (Hw : weights <> []).
  { unfold weights. destruct (zfind (path_id state) (weights_ s)) eqn:E.
    - destruct (weights_ s); [discriminate | discriminate].
    - apply zinsert_not_nil. }
  split.
  - intros k. rewrite keys_update_weights_maps. apply Ht'.
  - apply update_weights_maps_distribution; auto. apply zinsert_not_nil.
Qed.

Lemma updates_tracked (states : list PathState) :
  tracked (paths_ (fold_left (update_path_state exp) states new_scheduler))
    (weights_ (fold_left (update_path_state exp) states new_scheduler)).
Proof.
  induction states as [|st states IH] using rev_ind.
  - intros k [].
  - rewrite fold_left_app. cbn [fold_left].
    now apply update_path_state_tracked.
Qed.

(** C7, as the code has it.  After every update of a path state (each one
    runs the weight update), in exact arithmetic and whatever values
    [std::exp] returns, the weights of the scheduler sum to 1 and every
    weight is strictly positive. *)
Theorem weights_sum_to_one_and_positive (states : list PathState)
  (state : PathState) :
  let s := update_path_state exp
             (fold_left (update_path_state exp) states new_scheduler) state in
  (sum_values (get_path_weights s) == 1)%Q
  /\ Forall (fun kv => (0 < snd kv)%Q) (get_path_weights s).
Proof.
  cbv zeta. unfold get_path_weights.
  apply update_path_state_tracked, updates_tracked.
Qed.

Lemma zfind_absent {V : Type} (k : Z) (m : zmap V) :
  ~ In k (keys m) -> zfind k m = None.
Proof.
  unfold zfind. induction m as [|[k1 v1] m IH]; simpl; [reflexivity|].
  intros Hn. destruct (Z.compare_spec k k1) as [E|_|_]; auto.
  exfalso. apply Hn. now left.
Qed.

Lemma keys_zinsert_last {V : Type} (k : Z) (v : V) (m : zmap V) :
  (forall k', In k' (keys m) -> k' < k) ->
  keys (zinsert k v m) = keys m ++ [k].
Proof.
  unfold zinsert. induction m as [|[k1 v1] m IH]; simpl; [reflexivity|].
  intros Hlt. assert (H1 : k1 < k) by (apply Hlt; now left).
  destruct (Z.compare_spec k k1); try lia.
  simpl. f_equal. apply IH. intros k' Hin. apply Hlt. now right.
Qed.

Lemma keys_weights_many_paths (n : nat) :
  keys (weights_ (fold_left (update_path_state exp) (many_paths n)
                    new_scheduler))
  = map Z.of_nat (seq 0 n).
Proof.
  unfold many_paths. induction n as [|n IH]; [reflexivity|].
  rewrite seq_S, !map_app, fold_left_app. cbn [fold_left map Nat.add].
  unfold update_path_state at 1, update_weights. cbn [weights_ paths_].
  rewrite keys_update_weights_maps. cbn [path_id Scenarios.good_path].
  assert (Hlt : forall k', In k' (map Z.of_nat (seq 0 n)) -> k' < Z.of_nat n).
  { intros k' Hin. apply in_map_iff in Hin. destruct Hin as (i & <- & Hi).
    apply in_seq in Hi. lia. }
  rewrite zfind_absent.
  - rewrite keys_zinsert_last; rewrite IH; [reflexivity | exact Hlt].
  - rewrite IH. intros Hin. apply Hlt in Hin. lia.
Qed.

Lemma length_weights_many_paths (n : nat) :
  length (weights_ (fold_left (update_path_state exp) (many_paths n)
                      new_scheduler)) = n.
Proof.
  rewrite <- (length_map fst). change (map fst) with (@keys Z Q).
  rewrite keys_weights_many_paths, length_map. apply length_seq.
Qed.

End WithExp.

Lemma many_weights_not_distribution (w : zmap Q) :
  1001 <= len w -> is_distribution w = false.
Proof.
  intros Hlen. unfold is_distribution.
  destruct (forallb _ w) eqn:Ef; [|apply andb_false_r].
  rewrite andb_true_r. apply not_true_iff_false. intros Hs.
  apply Qle_bool_iff in Hs.
  change 1e-9%Q with (1 # 1000000000)%Q in Hs.
  assert (Hfloor : Forall (fun kv => (0.001 <= snd kv)%Q) w).
  { apply Forall_forall. intros kv Hin.
    rewrite forallb_forall in Ef. now apply Qle_bool_iff, Ef. }
  pose proof (sum_values_lower w 0.001 Hfloor) as Hl.
  assert (H1 : (inject_Z 1001 <= inject_Z (len w))%Q) by now rewrite <- Zle_Qle.
  pose proof (Qle_Qabs (sum_values w - 1)) as Ha.
  change (inject_Z 1001) with 1001%Q in H1. lra.
Qed.

(** C7, the counterexample.  With 1001 registered paths the weights cannot
    both sum to 1 within 1e-9 and all be at least 1e-3, whatever the
    exponential returns. *)
Lemma weights_below_floor_with_many_paths :
  len (many_paths 1001) = 1001
  /\ forall exp,
       is_distribution
         (get_path_weights
            (fold_left (update_path_state exp) (many_paths 1001) new_scheduler))
       = false.
Proof.
  split.
  - unfold many_paths, len. rewrite length_map, length_seq. reflexivity.
  - intros exp. apply many_weights_not_distribution.
    unfold get_path_weights, len. rewrite length_weights_many_paths.
    apply Z.leb_le. reflexivity.
Qed.

End SchedulerWeights.

(** ** Properties of the receive side *)

Section ReceiveSide.

Import Frame Hook Scenarios.

Lemma collect_sources_bound (k : Z) (received : list Codec.block)
  (ids : list Z) :
  forall recovered : list Codec.block,
    len recovered <= Z.max 0 k ->
    len (Codec.collect_sources k received ids recovered) <= Z.max 0 k.
Proof.
  revert ids. induction received as [|b received IH];
    intros [|id ids] recovered Hle; simpl; auto.
  destruct (Z.ltb_spec (len recovered) k) as [Hlt|Hge]; [|exact Hle].
  apply IH. destruct (id <? k); [|exact Hle].
  unfold len in *. rewrite length_app. simpl. lia.
Qed.

Lemma decode_length (d : Codec.FECDecoder) (received : list Codec.block)
  (ids : list Z) :
  Codec.dec_k_ d <= len received -> length received = length ids ->
  exists blocks, Codec.decode d received ids = Ok blocks
                 /\ len blocks = Z.max 0 (Codec.dec_k_ d).
Proof.
  intros Hk Hlen. unfold Codec.decode.
  destruct (Z.ltb_spec (len received) (Codec.dec_k_ d)) as [H|_]; [lia|].
  assert (He : (len received =? len ids) = true)
    by (unfold len; rewrite Hlen; apply Z.eqb_refl).
  rewrite He. cbn [negb].
  eexists. split; [reflexivity|].
  pose proof (collect_sources_bound (Codec.dec_k_ d) received ids []) as Hc.
  unfold Codec.pad_zero_blocks.
  set (rec := Codec.collect_sources _ _ _ _) in *.
  assert (Hr : len rec <= Z.max 0 (Codec.dec_k_ d)) by (apply Hc; cbn; lia).
  unfold len in *. rewrite length_app, repeat_length. lia.
Qed.

Lemma group_at_zinsert (h : PacketReceiveHook) (gid : Z) (g : ReceivedGroup)
  (decoders : pmap Codec.FECDecoder) :
  group_at (mkReceiveHook (zinsert gid g (received_groups_ h)) decoders) gid = g.
Proof.
  unfold group_at. cbn [received_groups_]. now rewrite zfind_zinsert_same.
Qed.

(** What [try_decode_group] does to a group that is stored, not complete,
    and holds at least [k] frames. *)
Lemma try_decode_group_fires (h : PacketReceiveHook) (gid : Z) :
  decoders_consistent h ->
  let g := group_at h gid in
  is_complete g = false ->
  info_k (rg_info g) <= len (received_frames g) ->
  let res := try_decode_group h gid in
  group_at (fst res) gid
  = mkReceived (rg_info g) (received_frames g) true
  /\ len (snd res) = Z.max 0 (info_k (rg_info g)).
Proof.
  intros Hcons g Hinc Hk. cbv zeta. unfold try_decode_group. fold g.
  rewrite Hinc.
  set (key := (info_k (rg_info g), info_m (rg_info g))).
  set (decoders := match pfind key (decoders_ h) with
                   | Some _ => decoders_ h
                   | None => _
                   end).
  assert (Hd : exists d, pfind key decoders = Some d
                         /\ Codec.dec_k_ d = info_k (rg_info g)).
  { unfold decoders. destruct (pfind key (decoders_ h)) as [d|] eqn:E.
    - exists d. split; [exact E|]. now apply Hcons in E.
    - eexists. split; [apply pfind_pinsert_same | reflexivity]. }
  destruct Hd as (d & -> & Hdk).
  destruct (decode_length d (map (fun kv => payload (snd kv)) (received_frames g))
              (keys (received_frames g))) as (blocks & -> & Hlen).
  - rewrite Hdk. unfold len in *. now rewrite length_map.
  - unfold keys. now rewrite !length_map.
  - cbn [fst snd]. rewrite group_at_zinsert. split; [reflexivity|].
    rewrite <- Hdk. exact Hlen.
Qed.

(** C10.  The receive hook never sees the sender's [(k, m)].  On every
    frame it stores the frame under its block index; for a group whose
    information is not set yet it takes [k = (total_blocks * 2) / 3] (in
    [uint32_t], integer division) and [m = total_blocks - k], and keeps
    them afterwards.  Below [k] distinct indices nothing is returned; from
    [k] distinct indices on, a group not yet decoded is decoded and marked
    complete, and [k] blocks are returned.  For a sender's [(k, m)] the
    inferred value is the sender's [k] only when [k <= 2 m <= k + 2]. *)
Theorem receive_side_infers_k (h : PacketReceiveHook) (f : FECFrame) :
  decoders_consistent h ->
  let gid := group_id (header f) in
  let total := total_blocks (header f) in
  let g0 := group_at h gid in
  let res := on_frame_received h f in
  let g1 := group_at (fst res) gid in
  received_frames g1
  = zinsert (block_index (header f)) f (received_frames g0)
  /\ (info_group_id (rg_info g0) = 0 ->
      info_k (rg_info g1) = wrap32 (total * 2) / 3
      /\ info_m (rg_info g1) = wrap32 (total - wrap32 (total * 2) / 3))
  /\ (info_group_id (rg_info g0) <> 0 -> rg_info g1 = rg_info g0)
  /\ (len (received_frames g1) < info_k (rg_info g1) ->
      snd res = [] /\ is_complete g1 = is_complete g0)
  /\ (info_k (rg_info g1) <= len (received_frames g1) ->
      is_complete g0 = false ->
      is_complete g1 = true
      /\ len (snd res) = Z.max 0 (info_k (rg_info g1)))
  /\ (forall k m, 0 < k -> 0 <= m -> k + m < 2 ^ 31 ->
                  (inferred_k (k + m) = k <-> k <= 2 * m <= k + 2)).
Proof.
  intros Hcons. cbv zeta. unfold on_frame_received.
  set (gid := group_id (header f)).
  set (g0 := group_at h gid).
  set (g := store_frame g0 f).
  set (h1 := mkReceiveHook (zinsert gid g (received_groups_ h)) (decoders_ h)).
  assert (Hg1 : group_at h1 gid = g) by apply group_at_zinsert.
  assert (Hframes : received_frames g
                    = zinsert (block_index (header f)) f (received_frames g0)).
  { unfold g, store_frame. destruct (_ =? 0); reflexivity. }
  assert (Hcomplete : is_complete g = is_complete g0).
  { unfold g, store_frame. destruct (_ =? 0); reflexivity. }
  assert (Hfirst : info_group_id (rg_info g0) = 0 ->
                   info_k (rg_info g) = inferred_k (total_blocks (header f))
                   /\ info_m (rg_info g) = inferred_m (total_blocks (header f))).
  { intros E. unfold g, store_frame. rewrite E. cbn. split; reflexivity. }
  assert (Hlater : info_group_id (rg_info g0) <> 0 -> rg_info g = rg_info g0).
  { intros E. unfold g, store_frame.
    destruct (Z.eqb_spec (info_group_id (rg_info g0)) 0); [contradiction|].
    reflexivity. }
  assert (Hcons1 : decoders_consistent h1) by exact Hcons.
  assert (Harith : forall k m, 0 < k -> 0 <= m -> k + m < 2 ^ 31 ->
                     (inferred_k (k + m) = k <-> k <= 2 * m <= k + 2)).
  { intros k m Hk Hm Hsum. unfold inferred_k, wrap32.
    rewrite Z.mod_small by lia. split; intros H.
    - pose proof (Z.div_mod ((k + m) * 2) 3 ltac:(lia)) as Hd.
      pose proof (Z.mod_pos_bound ((k + m) * 2) 3 ltac:(lia)) as Hb. lia.
    - symmetry. apply (Z.div_unique _ 3 k ((k + m) * 2 - 3 * k)); lia. }
  destruct (Z.geb_spec (len (received_frames g)) (info_k (rg_info g)))
    as [Hge|Hlt].
  - destruct (is_complete g) eqn:Ec.
    + (* already decoded: nothing is returned, the group stays as stored *)
      assert (Hres : try_decode_group h1 gid
                     = (mkReceiveHook (zinsert gid g (received_groups_ h1))
                          (decoders_ h1), [])).
      { unfold try_decode_group. rewrite Hg1, Ec. reflexivity. }
      rewrite Hres. cbn [fst snd]. rewrite group_at_zinsert.
      refine (conj Hframes (conj Hfirst (conj Hlater (conj _ (conj _ Harith))))).
      * intros Hlt. lia.
      * intros _ Hc. congruence.
    + pose proof (try_decode_group_fires h1 gid Hcons1) as Hfire.
      cbv zeta in Hfire. rewrite Hg1 in Hfire.
      destruct (Hfire Ec ltac:(lia)) as [Hgroup Hout].
      rewrite Hgroup. cbn [received_frames rg_info is_complete].
      refine (conj Hframes (conj Hfirst (conj Hlater (conj _ (conj _ Harith))))).
      * intros Hlt. lia.
      * intros _ _. split; [reflexivity | exact Hout].
  - cbn [fst snd]. rewrite Hg1.
    refine (conj Hframes (conj Hfirst (conj Hlater (conj _ (conj _ Harith))))).
    + intros _. split; [reflexivity | exact Hcomplete].
    + intros Hle. lia.
Qed.

Lemma receive_side_infers_k_witness :
  decoders_consistent new_receive_hook
  /\ info_k
       (rg_info
          (group_at
             (fst (on_frame_received new_receive_hook
                     (wrap_source_frame 1 0 10 [7; 7; 7; 7])))
             1))
     = 6.
Proof.
  assert (Hc : decoders_consistent new_receive_hook)
    by (intros key d Hd; discriminate Hd).
  split; [exact Hc|].
  pose proof (receive_side_infers_k new_receive_hook
                (wrap_source_frame 1 0 10 [7; 7; 7; 7]) Hc) as T.
  cbv zeta in T. destruct T as (_ & Hk & _).
  destruct (Hk eq_refl) as [Hk1 _]. exact Hk1.
Defined.

(** A sender's group with k = 8 and m = 2 announces 10 blocks; the receiver
    takes k = 6, so the sixth source frame triggers the decoder, which
    returns six blocks, and the seventh and eighth frames return nothing. *)
Lemma receiver_decodes_early_for_k8_m2 :
  snd (receive_all new_receive_hook
         (source_frames_of 1 10 [[0]; [1]; [2]; [3]; [4]; [5]; [6]; [7]]))
  = [[]; []; []; []; []; [[0]; [1]; [2]; [3]; [4]; [5]]; []; []].
Proof. vm_compute. reflexivity. Qed.

End ReceiveSide.

(** ** Further properties of the frame codec *)

Section FrameCodecMore.

Import Frame Scenarios.

Lemma be_step_range (w acc b : Z) : 0 < w -> 0 <= be_step w acc b < 2 ^ w.
Proof.
  intros Hw. unfold be_step. apply Z.mod_pos_bound. apply Z.pow_pos_nonneg; lia.
Qed.

Lemma fold_be_step_range (w : Z) (bytes : list Z) :
  0 < w ->
  forall acc, 0 <= acc < 2 ^ w ->
              0 <= fold_left (be_step w) bytes acc < 2 ^ w.
Proof.
  intros Hw. induction bytes as [|b bytes IH]; intros acc Hacc; simpl;
    [exact Hacc|].
  apply IH. now apply be_step_range.
Qed.

Lemma be_read_range (w : Z) (bytes : list Z) :
  0 < w -> 0 <= be_read w bytes < 2 ^ w.
Proof.
  intros Hw. unfold be_read. apply fold_be_step_range; [exact Hw|].
  split; [lia | apply Z.pow_pos_nonneg; lia].
Qed.

Lemma length_slice (data : list Z) (off n : nat) :
  (off + n <= length data)%nat -> length (slice data off n) = n.
Proof.
  intros H. unfold slice. rewrite length_firstn, length_skipn. lia.
Qed.

Lemma header_deserialize_prefix (h : FECFrameHeader) (rest : list Z) :
  0 <= frame_type h < 256 ->
  is_uint64 (group_id h) -> is_uint32 (block_index h) ->
  is_uint32 (total_blocks h) -> is_uint32 (payload_length h) ->
  header_deserialize (header_serialize h ++ rest) = Ok h.
Proof.
  intros Hty Hg Hb Ht Hp.
  unfold header_deserialize, len.
  rewrite length_app, length_header_serialize.
  destruct (Z.ltb_spec (Z.of_nat (25 + length rest)) HEADER_SIZE) as [H|_];
    [unfold HEADER_SIZE in H; lia|].
  rewrite header_serialize_layout.
  destruct h as [ty g b t p]; cbn [frame_type group_id block_index
    total_blocks payload_length] in *.
  assert (Hty' : wrap8 ty = ty) by (unfold wrap8; apply Z.mod_small; lia).
  rewrite Hty'. unfold is_uint64, is_uint32 in *.
  f_equal. f_equal.
  - repeat rewrite <- app_assoc.
    rewrite (slice_app [ty] (be_bytes 8 g)) by (now rewrite ?length_be_bytes).
    apply be_read_be_bytes; simpl; lia.
  - repeat rewrite <- app_assoc.
    rewrite (app_assoc [ty] (be_bytes 8 g)).
    rewrite (slice_app ([ty] ++ be_bytes 8 g) (be_bytes 4 b))
      by (now rewrite ?length_app, ?length_be_bytes).
    apply be_read_be_bytes; simpl; lia.
  - repeat rewrite <- app_assoc.
    rewrite (app_assoc (be_bytes 8 g) (be_bytes 4 b)).
    rewrite (app_assoc [ty] (be_bytes 8 g ++ be_bytes 4 b)).
    rewrite (slice_app ([ty] ++ be_bytes 8 g ++ be_bytes 4 b) (be_bytes 4 t))
      by (now rewrite ?length_app, ?length_be_bytes).
    apply be_read_be_bytes; simpl; lia.
  - repeat rewrite <- app_assoc.
    rewrite (app_assoc (be_bytes 4 b) (be_bytes 4 t)).
    rewrite (app_assoc (be_bytes 8 g) (be_bytes 4 b ++ be_bytes 4 t)).
    rewrite (app_assoc [ty] (be_bytes 8 g ++ be_bytes 4 b ++ be_bytes 4 t)).
    rewrite (slice_app ([ty] ++ be_bytes 8 g ++ be_bytes 4 b ++ be_bytes 4 t)
               (be_bytes 4 p))
      by (now rewrite ?length_app, ?length_be_bytes).
    apply be_read_be_bytes; simpl; lia.
Qed.

(** X1.  The parser reads one frame from the front of its input: bytes that
    follow the serialisation of a well-formed frame are ignored, and any
    type byte is carried through (the frame need not be a source or repair
    frame). *)
Theorem deserialize_ignores_trailing_bytes (f : FECFrame) (extra : list Z) :
  0 <= frame_type (header f) < 256 ->
  is_uint64 (group_id (header f)) ->
  is_uint32 (block_index (header f)) ->
  is_uint32 (total_blocks (header f)) ->
  is_uint32 (payload_length (header f)) ->
  payload_length (header f) = len (payload f) ->
  deserialize (serialize f ++ extra) = Ok f.
Proof.
  intros Hty Hg Hb Ht Hp Hlen. unfold deserialize, serialize.
  rewrite <- app_assoc. rewrite header_deserialize_prefix by assumption.
  unfold len at 1. rewrite !length_app, length_header_serialize.
  destruct (Z.ltb_spec (Z.of_nat (25 + (length (payload f) + length extra)))
              (HEADER_SIZE + payload_length (header f))) as [H|_].
  - unfold HEADER_SIZE, len in *. lia.
  - destruct f as [h pl]; cbn [header payload] in *. f_equal. f_equal.
    rewrite Hlen. unfold len. rewrite Nat2Z.id.
    apply slice_app; [apply length_header_serialize | reflexivity].
Qed.

Lemma deserialize_ignores_trailing_bytes_witness :
  deserialize (serialize scenario_frame ++ [1; 2; 3]) = Ok scenario_frame.
Proof.
  apply (deserialize_ignores_trailing_bytes scenario_frame [1; 2; 3]);
    unfold is_uint64, is_uint32;
    cbn [scenario_frame header payload frame_type group_id block_index
         total_blocks payload_length];
    first [reflexivity | vm_compute; split; congruence].
Defined.

(** X2.  Whatever bytes it is given, a frame the parser returns is
    consistent: its type is the first byte, every header field is within
    its integer width, and its payload has exactly [payload_length] bytes,
    taken from offset 25. *)
Theorem deserialize_yields_consistent_frame (data : list Z) (f : FECFrame) :
  deserialize data = Ok f ->
  frame_type (header f) = nth 0 data 0
  /\ is_uint64 (group_id (header f))
  /\ is_uint32 (block_index (header f))
  /\ is_uint32 (total_blocks (header f))
  /\ is_uint32 (payload_length (header f))
  /\ len (payload f) = payload_length (header f)
  /\ payload f = slice data 25 (Z.to_nat (payload_length (header f)))
  /\ 25 + payload_length (header f) <= len data.
Proof.
  unfold deserialize, header_deserialize.
  destruct (len data <? HEADER_SIZE); [discriminate|].
  cbn [payload_length].
  destruct (Z.ltb_spec (len data) (HEADER_SIZE + be_read 32 (slice data 17 4)))
    as [|Hge]; [discriminate|].
  intros [= <-]. cbn [header payload frame_type group_id block_index
    total_blocks payload_length].
  pose proof (be_read_range 32 (slice data 17 4) ltac:(lia)) as Hp.
  unfold is_uint64, is_uint32.
  repeat split; try apply be_read_range; try lia.
  - unfold len. rewrite length_slice.
    + apply Z2Nat.id. lia.
    + unfold HEADER_SIZE, len in Hge. lia.
  - exact Hge.
Qed.

Lemma deserialize_yields_consistent_frame_witness :
  len (payload scenario_frame) = payload_length (header scenario_frame).
Proof.
  assert (H : deserialize (serialize scenario_frame) = Ok scenario_frame)
    by (vm_compute; reflexivity).
  exact (proj1 (proj2 (proj2 (proj2 (proj2 (proj2
           (deserialize_yields_consistent_frame _ _ H))))))).
Defined.

End FrameCodecMore.

(** ** Further properties of the block codec *)

Section BlockCodecMore.

Import Codec Scenarios.

Lemma parity_byte_range (p : Z) (i : nat) (blocks : list block) :
  forall d value, 0 <= value < 256 ->
                  0 <= parity_byte p i d blocks value < 256.
Proof.
  induction blocks as [|b rest IH]; intros d value Hv; simpl; [exact Hv|].
  apply IH. unfold wrap8. apply Z.mod_pos_bound. lia.
Qed.

Lemma parity_block_shape (block_size : Z) (blocks : list block) (p : Z) :
  len (parity_block block_size blocks p) = Z.max 0 block_size
  /\ Forall (fun x => 0 <= x < 256) (parity_block block_size blocks p).
Proof.
  unfold parity_block, len. split.
  - rewrite length_map, length_seq. lia.
  - apply Forall_map, Forall_forall. intros i _.
    apply parity_byte_range. lia.
Qed.

Lemma encode_ok_intro (e : FECEncoder) (data_blocks : list block) :
  len data_blocks = enc_k_ e ->
  Forall (fun b => len b = enc_block_size_ e) data_blocks ->
  encode e data_blocks
  = Ok (map (fun p => parity_block (enc_block_size_ e) data_blocks (Z.of_nat p))
          (seq 0 (Z.to_nat (enc_m_ e)))).
Proof.
  intros Hk Hall. unfold encode. rewrite Hk, Z.eqb_refl. cbn [negb].
  assert (Ef : forallb (fun b => len b =? enc_block_size_ e) data_blocks
               = true).
  { apply forallb_forall. intros b Hin. apply Z.eqb_eq.
    rewrite Forall_forall in Hall. now apply Hall. }
  now rewrite Ef.
Qed.

Lemma encode_ok_inv (e : FECEncoder) (data_blocks parity : list block) :
  encode e data_blocks = Ok parity ->
  len data_blocks = enc_k_ e
  /\ Forall (fun b => len b = enc_block_size_ e) data_blocks
  /\ parity
     = map (fun p => parity_block (enc_block_size_ e) data_blocks (Z.of_nat p))
         (seq 0 (Z.to_nat (enc_m_ e))).
Proof.
  unfold encode.
  destruct (Z.eqb_spec (len data_blocks) (enc_k_ e)) as [Hk|]; [|discriminate].
  cbn [negb].
  destruct (forallb (fun b => len b =? enc_block_size_ e) data_blocks) eqn:Ef;
    [|discriminate].
  cbn [negb]. intros [= <-]. split; [exact Hk|]. split; [|reflexivity].
  apply Forall_forall. intros b Hin. rewrite forallb_forall in Ef.
  now apply Z.eqb_eq, Ef.
Qed.

(** X3.  The encoder accepts exactly [k] blocks of [block_size] bytes: a
    wrong number of blocks is refused first, then a block of the wrong
    size; what it returns is [m] parity blocks of [block_size] bytes, each
    byte within [0, 255]. *)
Theorem encode_accepts_and_returns (e : FECEncoder) (data_blocks : list block) :
  (len data_blocks <> enc_k_ e ->
   encode e data_blocks = Err Expected_k_blocks)
  /\ (len data_blocks = enc_k_ e ->
      (exists b, In b data_blocks /\ len b <> enc_block_size_ e) ->
      encode e data_blocks = Err Block_size_mismatch)
  /\ (len data_blocks = enc_k_ e ->
      Forall (fun b => len b = enc_block_size_ e) data_blocks ->
      exists parity,
        encode e data_blocks = Ok parity
        /\ len parity = Z.max 0 (enc_m_ e)
        /\ Forall (fun p => len p = Z.max 0 (enc_block_size_ e)
                            /\ Forall (fun x => 0 <= x < 256) p) parity).
Proof.
  unfold encode. split; [|split].
  - intros Hne. destruct (Z.eqb_spec (len data_blocks) (enc_k_ e));
      [contradiction | reflexivity].
  - intros Hk (b & Hin & Hb). rewrite Hk, Z.eqb_refl. cbn [negb].
    destruct (forallb (fun b0 => len b0 =? enc_block_size_ e) data_blocks)
      eqn:Ef; [|reflexivity].
    rewrite forallb_forall in Ef. apply Ef in Hin.
    apply Z.eqb_eq in Hin. contradiction.
  - intros Hk Hall. rewrite Hk, Z.eqb_refl. cbn [negb].
    assert (Ef : forallb (fun b => len b =? enc_block_size_ e) data_blocks
                 = true).
    { apply forallb_forall. intros b Hin. apply Z.eqb_eq.
      rewrite Forall_forall in Hall. now apply Hall. }
    rewrite Ef. cbn [negb]. eexists. split; [reflexivity|]. split.
    + unfold len. rewrite length_map, length_seq. lia.
    + apply Forall_map, Forall_forall. intros p _. apply parity_block_shape.
Qed.

Lemma collect_sources_prefix (k : Z) (received : list block) :
  forall (ids : list Z) (recovered : list block) (j : nat),
    len recovered + Z.of_nat j = k ->
    (j <= length received)%nat ->
    length received = length ids ->
    Forall (fun id => id < k) (firstn j ids) ->
    collect_sources k received ids recovered = recovered ++ firstn j received.
Proof.
  induction received as [|b received IH]; intros ids recovered j Hk Hj Hlen Hids.
  - destruct j; [|simpl in Hj; lia]. simpl. now rewrite app_nil_r.
  - destruct ids as [|id ids]; [discriminate|]. cbn [collect_sources].
    destruct j as [|j].
    + destruct (Z.ltb_spec (len recovered) k); [lia|].
      simpl. now rewrite app_nil_r.
    + destruct (Z.ltb_spec (len recovered) k); [|lia].
      cbn [firstn] in Hids. apply Forall_cons_iff in Hids.
      destruct Hids as [Hid Hrest].
      destruct (Z.ltb_spec id k); [|lia].
      rewrite (IH ids (recovered ++ [b]) j).
      * cbn [firstn]. now rewrite <- app_assoc.
      * unfold len in *. rewrite length_app. simpl. lia.
      * simpl in Hj. lia.
      * now injection Hlen.
      * exact Hrest.
Qed.

(** X4.  The decoder is the identity on source blocks: when the first [k]
    ids presented are all source ids (below [k]), the result is the first
    [k] received blocks, in the order received, whatever follows them. *)
Theorem decode_returns_leading_sources (d : FECDecoder)
  (received : list block) (ids : list Z) :
  0 <= dec_k_ d <= len received ->
  length received = length ids ->
  Forall (fun id => id < dec_k_ d) (firstn (Z.to_nat (dec_k_ d)) ids) ->
  decode d received ids = Ok (firstn (Z.to_nat (dec_k_ d)) received).
Proof.
  intros Hk Hlen Hids. unfold decode.
  destruct (Z.ltb_spec (len received) (dec_k_ d)); [lia|].
  assert (He : (len received =? len ids) = true)
    by (unfold len; rewrite Hlen; apply Z.eqb_refl).
  rewrite He. cbn [negb]. f_equal.
  rewrite (collect_sources_prefix (dec_k_ d) received ids []
             (Z.to_nat (dec_k_ d))); try assumption.
  - cbn [app]. unfold pad_zero_blocks.
    assert (Hl : len (firstn (Z.to_nat (dec_k_ d)) received) = dec_k_ d).
    { unfold len in *. rewrite length_firstn. lia. }
    rewrite Hl, Z.sub_diag. simpl. apply app_nil_r.
  - unfold len. simpl. lia.
  - unfold len in Hk. lia.
Qed.

Lemma decode_returns_leading_sources_witness :
  decode (new_decoder 4 2 4) s_blocks [0; 1; 2; 3] = Ok s_blocks.
Proof.
  apply (decode_returns_leading_sources (new_decoder 4 2 4) s_blocks
           [0; 1; 2; 3]).
  - vm_compute. split; congruence.
  - reflexivity.
  - repeat constructor.
Defined.

Lemma collect_sources_from (k : Z) (received : list block) :
  forall (ids : list Z) (recovered : list block),
    Forall (fun b => In b received \/ In b recovered)
      (collect_sources k received ids recovered).
Proof.
  induction received as [|b received IH]; intros ids recovered.
  - simpl. apply Forall_forall. auto.
  - destruct ids as [|id ids]; [apply Forall_forall; auto|].
    cbn [collect_sources]. destruct (len recovered <? k);
      [|apply Forall_forall; auto].
    eapply Forall_impl; [|apply IH]. intros x [Hx|Hx].
    + left. now right.
    + destruct (id <? k); [|now right].
      apply in_app_or in Hx. destruct Hx as [Hx|[<-|[]]]; [now right|].
      left. now left.
Qed.

(** X5.  The decoder fails only on too few blocks or on an id list of
    another length; otherwise it returns exactly [k] blocks, each of them
    one of the received blocks or a zero block of [block_size] bytes. *)
Theorem decode_fails_or_returns_k_blocks (d : FECDecoder)
  (received : list block) (ids : list Z) :
  (len received < dec_k_ d -> decode d received ids = Err Not_enough_blocks)
  /\ (dec_k_ d <= len received -> length received <> length ids ->
      decode d received ids = Err Block_count_mismatch)
  /\ (dec_k_ d <= len received -> length received = length ids ->
      exists blocks,
        decode d received ids = Ok blocks
        /\ len blocks = Z.max 0 (dec_k_ d)
        /\ Forall (fun b => In b received
                            \/ b = repeat 0 (Z.to_nat (dec_block_size_ d)))
             blocks).
Proof.
  split; [|split].
  - intros H. unfold decode.
    destruct (Z.ltb_spec (len received) (dec_k_ d)); [reflexivity | lia].
  - intros H Hne. unfold decode.
    destruct (Z.ltb_spec (len received) (dec_k_ d)); [lia|].
    destruct (Z.eqb_spec (len received) (len ids)) as [E|_]; [|reflexivity].
    unfold len in E. apply Nat2Z.inj in E. contradiction.
  - intros H Hlen.
    destruct (decode_length d received ids H Hlen) as (blocks & Hd & Hl).
    exists blocks. split; [exact Hd|]. split; [exact Hl|].
    unfold decode in Hd.
    destruct (len received <? dec_k_ d); [discriminate|].
    destruct (negb _); [discriminate|]. injection Hd as <-.
    unfold pad_zero_blocks. apply Forall_app. split.
    + eapply Forall_impl; [|apply collect_sources_from].
      intros b [Hb|[]]. now left.
    + apply Forall_forall. intros b Hb. apply repeat_spec in Hb. now right.
Qed.

End BlockCodecMore.

(** ** Properties of the group manager *)

Section GroupManager.

Import Frame Hook Scenarios.

Lemma length_make_repair_frames (gm : FECGroupManager) (gid : Z)
  (parity : list (list Z)) :
  forall i, length (make_repair_frames gm gid i parity) = length parity.
Proof. induction parity as [|p rest IH]; intros i; simpl; auto. Qed.

Lemma index_make_repair_frames (gm : FECGroupManager) (gid : Z)
  (parity : list (list Z)) :
  forall i,
    map (fun f => block_index (header f)) (make_repair_frames gm gid i parity)
    = map (fun j => wrap32 (current_k_ gm + Z.of_nat j))
        (seq i (length parity)).
Proof.
  induction parity as [|p rest IH]; intros i; simpl; [reflexivity|].
  now rewrite IH.
Qed.

Lemma shape_make_repair_frames (gm : FECGroupManager) (gid : Z)
  (parity : list (list Z)) (size : Z) :
  Forall (fun p => len p = size) parity ->
  forall i,
    Forall (fun f => frame_type (header f) = FEC_REPAIR_FRAME
                     /\ group_id (header f) = gid
                     /\ total_blocks (header f)
                        = wrap32 (current_k_ gm + current_m_ gm)
                     /\ payload_length (header f) = wrap32 size
                     /\ len (payload f) = size)
      (make_repair_frames gm gid i parity).
Proof.
  induction 1 as [|p rest Hp _ IH]; intros i; simpl; constructor; auto.
  cbn. rewrite Hp. auto.
Qed.

Lemma parity_blocks_shape (e : Codec.FECEncoder) (blocks : list Codec.block) :
  let parity :=
    map (fun p => Codec.parity_block (Codec.enc_block_size_ e) blocks
                    (Z.of_nat p))
      (seq 0 (Z.to_nat (Codec.enc_m_ e))) in
  length parity = Z.to_nat (Codec.enc_m_ e)
  /\ Forall (fun p => len p = Z.max 0 (Codec.enc_block_size_ e)) parity.
Proof.
  cbv zeta. split.
  - now rewrite length_map, length_seq.
  - apply Forall_map, Forall_forall. intros p _.
    apply parity_block_shape.
Qed.

(** What a successful [perform_encoding] returns. *)
Lemma perform_encoding_ok_inv (gm : FECGroupManager) (g g' : EncodingGroup) :
  perform_encoding gm g = Ok g' ->
  len (source_packets g) = Codec.enc_k_ (encoder_ gm)
  /\ Forall (fun q => len (pp_data q) = Codec.enc_block_size_ (encoder_ gm))
       (source_packets g)
  /\ eg_group_id g' = eg_group_id g
  /\ eg_info g' = eg_info g
  /\ source_packets g' = source_packets g
  /\ is_encoded g' = true
  /\ length (repair_frames g') = Z.to_nat (Codec.enc_m_ (encoder_ gm))
  /\ map (fun f => block_index (header f)) (repair_frames g')
     = map (fun j => wrap32 (current_k_ gm + Z.of_nat j))
         (seq 0 (Z.to_nat (Codec.enc_m_ (encoder_ gm))))
  /\ Forall (fun f => frame_type (header f) = FEC_REPAIR_FRAME
                      /\ group_id (header f) = eg_group_id g
                      /\ total_blocks (header f)
                         = wrap32 (current_k_ gm + current_m_ gm)
                      /\ payload_length (header f)
                         = wrap32 (Z.max 0 (Codec.enc_block_size_ (encoder_ gm)))
                      /\ len (payload f)
                         = Z.max 0 (Codec.enc_block_size_ (encoder_ gm)))
       (repair_frames g').
Proof.
  unfold perform_encoding.
  destruct (Codec.encode (encoder_ gm) (map pp_data (source_packets g)))
    as [parity|e] eqn:E; [|discriminate].
  intros [= <-]. apply encode_ok_inv in E. destruct E as (Hk & Hall & ->).
  destruct (parity_blocks_shape (encoder_ gm) (map pp_data (source_packets g)))
    as [Hlen Hshape].
  cbn [eg_group_id eg_info source_packets is_encoded repair_frames].
  repeat split.
  - unfold len in *. now rewrite length_map in Hk.
  - rewrite Forall_map in Hall. exact Hall.
  - rewrite length_make_repair_frames. exact Hlen.
  - rewrite index_make_repair_frames. do 2 f_equal. exact Hlen.
  - now apply shape_make_repair_frames.
Qed.

(** X6.  When [add_source_packet] completes a group, the id it returns
    is the id of that group, and the group is stored sealed: encoded, with
    exactly [k] source packets of [block_size] bytes (the pending ones
    followed by the new one) and [m] repair frames of [block_size] bytes
    with block indices [k .. k+m-1]; the manager starts a new, empty group
    under the next id. *)
Theorem completed_group_is_sealed (gm gm' : FECGroupManager)
  (p : PendingPacket) (now id : Z) :
  add_source_packet gm p now = (gm', Ok id) ->
  current_k_ gm <= len (source_packets (current_group_ gm)) + 1 ->
  let enc := encoder_ gm in
  id = eg_group_id (current_group_ gm)
  /\ (exists g,
         get_encoded_group gm' id = Some g
         /\ is_encoded g = true
         /\ source_packets g = source_packets (current_group_ gm) ++ [p]
         /\ len (source_packets g) = Codec.enc_k_ enc
         /\ Forall (fun q => len (pp_data q) = Codec.enc_block_size_ enc)
              (source_packets g)
         /\ len (repair_frames g) = Z.max 0 (Codec.enc_m_ enc)
         /\ map (fun f => block_index (header f)) (repair_frames g)
            = map (fun j => wrap32 (current_k_ gm + Z.of_nat j))
                (seq 0 (Z.to_nat (Codec.enc_m_ enc)))
         /\ Forall (fun f => frame_type (header f) = FEC_REPAIR_FRAME
                             /\ group_id (header f) = id
                             /\ len (payload f)
                                = Z.max 0 (Codec.enc_block_size_ enc))
              (repair_frames g))
  /\ source_packets (current_group_ gm') = []
  /\ eg_group_id (current_group_ gm') = next_group_id_ gm
  /\ next_group_id_ gm' = wrap64 (next_group_id_ gm + 1).
Proof.
  intros Hadd Hk. cbv zeta. unfold add_source_packet in Hadd.
  set (g := push_source (current_group_ gm) p) in *.
  assert (Hlen : len (source_packets g)
                 = len (source_packets (current_group_ gm)) + 1).
  { unfold g, push_source, len. cbn [source_packets].
    rewrite length_app. simpl. lia. }
  rewrite Hlen in Hadd.
  destruct (Z.geb_spec (len (source_packets (current_group_ gm)) + 1)
              (current_k_ gm)) as [_|H]; [|lia].
  destruct (perform_encoding (set_current_group gm g) g) as [g'|e] eqn:E;
    [|discriminate].
  apply perform_encoding_ok_inv in E.
  destruct E as (Hsk & Hall & Hid & Hinfo & Hsrc & Henc & Hrl & Hidx & Hshape).
  cbn [encoder_ current_k_ current_m_ set_current_group] in *.
  cbn [create_new_group] in Hadd. injection Hadd as <- <-.
  split; [reflexivity|]. split.
  - exists g'. unfold get_encoded_group. cbn [encoded_groups_].
    rewrite zfind_zinsert_same. rewrite Hsrc.
    repeat split; auto.
    + unfold len. rewrite Hrl. lia.
    + revert Hshape. apply Forall_impl. intros f (? & ? & _ & _ & ?). auto.
  - cbn. repeat split.
Qed.

Lemma completed_group_is_sealed_witness :
  match new_manager 2 1 4 0 with
  | Err _ => True
  | Ok gm0 =>
      let gm1 := fst (add_source_packet gm0 (mkPending 0 0 [1; 2; 3; 4] 0) 0) in
      let res := add_source_packet gm1 (mkPending 0 0 [5; 6; 7; 8] 0) 0 in
      snd res = Ok 1
      /\ source_packets (current_group_ (fst res)) = []
  end.
Proof.
  destruct (new_manager 2 1 4 0) as [gm0|e] eqn:E0; [|exact I].
  vm_compute in E0. injection E0 as <-. cbv zeta.
  match goal with
  | |- context [add_source_packet ?gm ?p 0] =>
      match gm with
      | fst _ =>
          destruct (add_source_packet gm p 0) as [gm2 r] eqn:E;
          assert (Hr : r = Ok 1) by (vm_compute in E; congruence);
          subst r;
          pose proof (completed_group_is_sealed gm gm2 p 0 1 E) as T
      end
  end.
  cbn [fst snd]. split; [reflexivity|].
  apply T. vm_compute. congruence.
Defined.

Lemma encode_err_kinds (e : Codec.FECEncoder) (blocks : list Codec.block)
  (x : exn) :
  Codec.encode e blocks = Err x ->
  x = Expected_k_blocks \/ x = Block_size_mismatch.
Proof.
  unfold Codec.encode. destruct (negb _); [intros [= <-]; auto|].
  destruct (negb _); [intros [= <-]; auto | discriminate].
Qed.

(** A group that holds too many packets or a packet of the wrong size is
    refused by [perform_encoding]. *)
Lemma perform_encoding_refuses (gm : FECGroupManager) (g : EncodingGroup) :
  encoder_consistent gm ->
  current_k_ gm < len (source_packets g)
  \/ (exists q, In q (source_packets g) /\ len (pp_data q) <> block_size_ gm) ->
  perform_encoding gm g = Err Expected_k_blocks
  \/ perform_encoding gm g = Err Block_size_mismatch.
Proof.
  intros (Hk & _ & Hbs) Hbad.
  destruct (perform_encoding gm g) as [g'|x] eqn:E.
  - exfalso. apply perform_encoding_ok_inv in E.
    destruct E as (Hlen & Hall & _).
    destruct Hbad as [Hbig | (q & Hin & Hq)]; [lia|].
    rewrite Forall_forall in Hall. apply Hall in Hin. congruence.
  - unfold perform_encoding in E.
    destruct (Codec.encode _ _) as [?|x'] eqn:E'; [discriminate|].
    injection E as <-. apply encode_err_kinds in E'.
    destruct E' as [-> | ->]; auto.
Qed.

(** A packet of the wrong size makes the manager stuck. *)
Lemma add_wrong_size_packet (gm : FECGroupManager) (p : PendingPacket)
  (now : Z) :
  encoder_consistent gm ->
  0 <= current_k_ gm ->
  len (pp_data p) <> block_size_ gm ->
  stuck (fst (add_source_packet gm p now))
  /\ (snd (add_source_packet gm p now) = Ok 0
      \/ snd (add_source_packet gm p now) = Err Expected_k_blocks
      \/ snd (add_source_packet gm p now) = Err Block_size_mismatch).
Proof.
  intros Hcons Hk0 Hp. unfold add_source_packet.
  set (g := push_source (current_group_ gm) p).
  set (gm1 := set_current_group gm g).
  assert (Hcons1 : encoder_consistent gm1) by exact Hcons.
  assert (Hbad : exists q, In q (source_packets g)
                           /\ len (pp_data q) <> block_size_ gm1).
  { exists p. split; [|exact Hp]. unfold g, push_source.
    cbn [source_packets]. apply in_or_app. right. now left. }
  assert (Hstuck : stuck gm1).
  { split; [exact Hcons1|]. split; [exact Hk0|]. right. exact Hbad. }
  destruct (_ >=? _).
  - destruct (perform_encoding_refuses gm1 g Hcons1 (or_intror Hbad))
      as [-> | ->]; cbn [fst snd]; auto.
  - cbn [fst snd]. auto.
Qed.

(** A packet added to a stuck manager. *)
Lemma add_to_stuck_manager (gm : FECGroupManager) (p : PendingPacket)
  (now : Z) :
  stuck gm ->
  stuck (fst (add_source_packet gm p now))
  /\ (snd (add_source_packet gm p now) = Ok 0
      \/ snd (add_source_packet gm p now) = Err Expected_k_blocks
      \/ snd (add_source_packet gm p now) = Err Block_size_mismatch).
Proof.
  intros (Hcons & Hk0 & Hbad). unfold add_source_packet.
  set (g := push_source (current_group_ gm) p).
  set (gm1 := set_current_group gm g).
  assert (Hcons1 : encoder_consistent gm1) by exact Hcons.
  assert (Hlen : len (source_packets g)
                 = len (source_packets (current_group_ gm)) + 1).
  { unfold g, push_source, len. cbn [source_packets].
    rewrite length_app. simpl. lia. }
  assert (Hbad1 : current_k_ gm1 < len (source_packets g)
                  \/ exists q, In q (source_packets g)
                               /\ len (pp_data q) <> block_size_ gm1).
  { destruct Hbad as [Hbig | (q & Hin & Hq)].
    - left. change (current_k_ gm1) with (current_k_ gm). lia.
    - right. exists q. split; [|exact Hq]. unfold g, push_source.
      cbn [source_packets]. apply in_or_app. now left. }
  assert (Hstuck : stuck gm1) by (split; [|split]; assumption).
  destruct (_ >=? _).
  - destruct (perform_encoding_refuses gm1 g Hcons1 Hbad1) as [-> | ->];
      cbn [fst snd]; auto.
  - cbn [fst snd]. auto.
Qed.

(** A stuck manager flushed. *)
Lemma flush_stuck_manager (gm : FECGroupManager) (now : Z) :
  stuck gm ->
  stuck (fst (flush_pending_groups gm now))
  /\ (snd (flush_pending_groups gm now) = Err Expected_k_blocks
      \/ snd (flush_pending_groups gm now) = Err Block_size_mismatch).
Proof.
  intros (Hcons & Hk0 & Hbad). unfold flush_pending_groups.
  destruct (source_packets (current_group_ gm)) as [|q0 rest] eqn:Es.
  - exfalso. destruct Hbad as [Hbig | (q & [] & _)].
    unfold len in Hbig. simpl in Hbig. lia.
  - rewrite <- Es in Hbad.
    set (g := pad_group gm (current_group_ gm) now).
    set (gm1 := set_current_group gm g).
    assert (Hcons1 : encoder_consistent gm1) by exact Hcons.
    assert (Hbad1 : current_k_ gm1 < len (source_packets g)
                    \/ exists q, In q (source_packets g)
                                 /\ len (pp_data q) <> block_size_ gm1).
    { destruct Hbad as [Hbig | (q & Hin & Hq)].
      - left. unfold g, pad_group, len in *. cbn [source_packets].
        rewrite length_app. change (current_k_ gm1) with (current_k_ gm).
        lia.
      - right. exists q. split; [|exact Hq]. unfold g, pad_group.
        cbn [source_packets]. apply in_or_app. now left. }
    assert (Hstuck : stuck gm1) by (split; [|split]; assumption).
    destruct (perform_encoding_refuses gm1 g Hcons1 Hbad1) as [-> | ->];
      cbn [fst snd]; auto.
Qed.

(** X7.  A packet whose size is not the block size is accepted without
    complaint, and from then on the current group can never be completed:
    the manager is left with a group that every later attempt to encode
    refuses. *)
Theorem wrong_size_packet_sticks (gm : FECGroupManager) (p : PendingPacket)
  (now : Z) :
  encoder_consistent gm ->
  0 <= current_k_ gm ->
  len (pp_data p) <> block_size_ gm ->
  let res := add_source_packet gm p now in
  stuck (fst res)
  /\ (snd res = Ok 0
      \/ snd res = Err Expected_k_blocks
      \/ snd res = Err Block_size_mismatch).
Proof.
  intros Hcons Hk0 Hp. cbv zeta. now apply add_wrong_size_packet.
Qed.

Lemma wrong_size_packet_sticks_witness :
  match new_manager 4 2 1200 0 with
  | Err _ => True
  | Ok gm =>
      stuck (fst (add_source_packet gm (mkPending 0 0 (repeat 0 3000) 0) 0))
  end.
Proof.
  destruct (new_manager 4 2 1200 0) as [gm|e] eqn:E; [|exact I].
  vm_compute in E. injection E as <-.
  apply wrong_size_packet_sticks.
  - repeat split.
  - cbn. lia.
  - vm_compute. congruence.
Defined.

(** X8.  A stuck manager stays stuck: neither [add_source_packet] nor
    [flush_pending_groups] ever completes its current group again; every
    such call either reports the packet as pending or throws. *)
Theorem stuck_manager_stays_stuck (gm : FECGroupManager) (p : PendingPacket)
  (now : Z) :
  stuck gm ->
  (let res := add_source_packet gm p now in
   stuck (fst res)
   /\ (snd res = Ok 0
       \/ snd res = Err Expected_k_blocks
       \/ snd res = Err Block_size_mismatch))
  /\ (let res := flush_pending_groups gm now in
      stuck (fst res)
      /\ (snd res = Err Expected_k_blocks
          \/ snd res = Err Block_size_mismatch)).
Proof.
  intros Hstuck. cbv zeta. split.
  - now apply add_to_stuck_manager.
  - now apply flush_stuck_manager.
Qed.

Lemma stuck_manager_stays_stuck_witness :
  match new_manager 4 2 1200 0 with
  | Err _ => True
  | Ok gm =>
      let gm1 :=
        fst (add_source_packet gm (mkPending 0 0 (repeat 0 3000) 0) 0) in
      stuck (fst (add_source_packet gm1 (mkPending 0 0 (repeat 0 1200) 0) 0))
  end.
Proof.
  destruct (new_manager 4 2 1200 0) as [gm|e] eqn:E; [|exact I].
  vm_compute in E. injection E as <-. cbv zeta.
  match goal with
  | |- stuck (fst (add_source_packet ?g ?p 0)) =>
      refine (proj1 (proj1 (stuck_manager_stays_stuck g p 0 _)))
  end.
  split; [repeat split|]. split; [cbn; lia|].
  right. eexists. split; [left; reflexivity|]. vm_compute. congruence.
Defined.

(** X9.  [flush_pending_groups] does nothing to an empty current group.
    A current group with 1 to [k] packets of [block_size] bytes is padded
    with zero blocks up to [k], encoded and stored under its id, which is
    the one id returned; the manager starts a new, empty group. *)
Theorem flush_pads_and_seals (gm : FECGroupManager) (now : Z) :
  encoder_consistent gm ->
  0 <= block_size_ gm ->
  len (source_packets (current_group_ gm)) <= current_k_ gm ->
  Forall (fun q => len (pp_data q) = block_size_ gm)
    (source_packets (current_group_ gm)) ->
  let old := source_packets (current_group_ gm) in
  let res := flush_pending_groups gm now in
  (old = [] -> res = (gm, Ok []))
  /\ (old <> [] ->
      snd res = Ok [eg_group_id (current_group_ gm)]
      /\ (exists g,
             get_encoded_group (fst res) (eg_group_id (current_group_ gm))
             = Some g
             /\ is_encoded g = true
             /\ map pp_data (source_packets g)
                = map pp_data old
                    ++ repeat (repeat 0 (Z.to_nat (block_size_ gm)))
                         (Z.to_nat (current_k_ gm - len old))
             /\ len (repair_frames g) = Z.max 0 (current_m_ gm))
      /\ source_packets (current_group_ (fst res)) = []
      /\ eg_group_id (current_group_ (fst res)) = next_group_id_ gm).
Proof.
  intros (Hk & Hm & Hbs) Hbs0 Hlen Hall. cbv zeta.
  unfold flush_pending_groups.
  destruct (source_packets (current_group_ gm)) as [|q0 rest] eqn:Es.
  - split; [reflexivity | congruence].
  - split; [discriminate|]. intros _. rewrite <- Es in *.
    set (g := pad_group gm (current_group_ gm) now).
    set (gm1 := set_current_group gm g).
    assert (Hsrc : map pp_data (source_packets g)
                   = map pp_data (source_packets (current_group_ gm))
                       ++ repeat (repeat 0 (Z.to_nat (block_size_ gm)))
                            (Z.to_nat (current_k_ gm
                                       - len (source_packets (current_group_ gm))))).
    { unfold g, pad_group. cbn [source_packets].
      now rewrite map_app, map_repeat. }
    assert (Henc : Codec.encode (encoder_ gm1) (map pp_data (source_packets g))
                   = Ok (map (fun p => Codec.parity_block
                                         (Codec.enc_block_size_ (encoder_ gm1))
                                         (map pp_data (source_packets g))
                                         (Z.of_nat p))
                           (seq 0 (Z.to_nat (Codec.enc_m_ (encoder_ gm1)))))).
    { apply encode_ok_intro.
      - rewrite Hsrc. unfold len in *.
        rewrite length_app, length_map, repeat_length.
        change (encoder_ gm1) with (encoder_ gm). lia.
      - rewrite Hsrc. apply Forall_app. split.
        + apply Forall_map. revert Hall. apply Forall_impl.
          intros q Hq. change (encoder_ gm1) with (encoder_ gm). congruence.
        + apply Forall_forall. intros b Hb. apply repeat_spec in Hb. subst b.
          unfold len. rewrite repeat_length.
          change (encoder_ gm1) with (encoder_ gm). lia. }
    unfold perform_encoding. rewrite Henc. cbn [create_new_group fst snd].
    split; [reflexivity|]. split.
    + eexists. unfold get_encoded_group. cbn [encoded_groups_].
      change (eg_group_id g) with (eg_group_id (current_group_ gm)).
      rewrite zfind_zinsert_same. split; [reflexivity|].
      cbn [is_encoded source_packets repair_frames].
      split; [reflexivity|]. split; [exact Hsrc|].
      unfold len. rewrite length_make_repair_frames, length_map, length_seq.
      change (encoder_ gm1) with (encoder_ gm). lia.
    + cbn. split; reflexivity.
Qed.

Lemma flush_pads_and_seals_witness :
  match new_manager 4 2 2 0 with
  | Err _ => True
  | Ok gm0 =>
      let gm := fst (add_source_packet gm0 (mkPending 0 0 [7; 9] 0) 0) in
      snd (flush_pending_groups gm 0) = Ok [1]
  end.
Proof.
  destruct (new_manager 4 2 2 0) as [gm0|e] eqn:E; [|exact I].
  vm_compute in E. injection E as <-. cbv zeta.
  match goal with
  | |- snd (flush_pending_groups ?g 0) = _ =>
      assert (H1 : encoder_consistent g) by (repeat split);
      assert (H2 : 0 <= block_size_ g) by (cbn; lia);
      assert (H3 : len (source_packets (current_group_ g)) <= current_k_ g)
        by (vm_compute; congruence);
      assert (H4 : Forall (fun q => len (pp_data q) = block_size_ g)
                     (source_packets (current_group_ g)))
        by (repeat constructor);
      pose proof (flush_pads_and_seals g 0 H1 H2 H3 H4) as T
  end.
  cbv zeta in T. destruct T as [_ T].
  destruct T as [T _]; [vm_compute; discriminate|]. exact T.
Defined.

(** Flushing a group that holds more than [k] packets: nothing is padded,
    the encoder throws on the block count. *)
Lemma flush_overfull (gm : FECGroupManager) (now : Z) :
  encoder_consistent gm ->
  current_k_ gm < len (source_packets (current_group_ gm)) ->
  0 <= current_k_ gm ->
  flush_pending_groups gm now
  = (set_current_group gm (pad_group gm (current_group_ gm) now),
     Err Expected_k_blocks).
Proof.
  intros (Hk & _ & _) Hbig Hk0. unfold flush_pending_groups.
  destruct (source_packets (current_group_ gm)) as [|q0 rest] eqn:Es.
  { unfold len in Hbig. simpl in Hbig. lia. }
  rewrite <- Es in *.
  unfold perform_encoding, Codec.encode.
  replace (len (map pp_data (source_packets
                               (pad_group gm (current_group_ gm) now)))
           =? _) with false; [reflexivity|].
  symmetry. apply Z.eqb_neq.
  unfold pad_group, len in *. cbn [source_packets set_current_group encoder_].
  rewrite length_map, length_app. lia.
Qed.



(** Looking a key up after the entries below a bound were removed. *)
Lemma zfind_filter_below {V : Type} (bound gid : Z) (m : zmap V) :
  zfind gid (filter (fun kv => negb (fst kv <? bound)) m)
  = if gid <? bound then None else zfind gid m.
Proof.
  induction m as [|[k' v] m IH]; [now destruct (gid <? bound)|].
  cbn [filter fst]. unfold zfind in *. cbn [find].
  destruct (Z.compare_spec gid k') as [-> | Hlt | Hgt].
  - destruct (k' <? bound) eqn:Eb; cbn [negb].
    + exact IH.
    + cbn [find]. now rewrite Z.compare_refl.
  - destruct (k' <? bound); cbn [negb]; [exact IH|].
    cbn [find]. apply Z.compare_lt_iff in Hlt. now rewrite Hlt.
  - destruct (k' <? bound); cbn [negb]; [exact IH|].
    cbn [find]. apply Z.compare_gt_iff in Hgt. now rewrite Hgt.
Qed.

(** X11.  [cleanup_old_groups] forgets exactly the encoded groups whose id
    is below the bound, and touches neither the parameters nor the current
    group. *)
Theorem cleanup_old_groups_lookup (gm : FECGroupManager)
  (before_group_id gid : Z) :
  get_encoded_group (cleanup_old_groups gm before_group_id) gid
  = (if gid <? before_group_id then None else get_encoded_group gm gid)
  /\ current_group_ (cleanup_old_groups gm before_group_id) = current_group_ gm
  /\ get_coding_params (cleanup_old_groups gm before_group_id)
     = get_coding_params gm.
Proof.
  split; [|split; reflexivity].
  unfold get_encoded_group, cleanup_old_groups. cbn [encoded_groups_].
  apply zfind_filter_below.
Qed.

End GroupManager.

(** ** Properties of the receive hook *)

Section ReceiveHook.

Import Frame Hook Scenarios.

Lemma group_at_zinsert_other (h : PacketReceiveHook) (gid gid' : Z)
  (g : ReceivedGroup) (decoders : pmap Codec.FECDecoder) :
  gid <> gid' ->
  group_at (mkReceiveHook (zinsert gid' g (received_groups_ h)) decoders) gid
  = group_at h gid.
Proof.
  intros Hne. unfold group_at. cbn [received_groups_].
  now rewrite zfind_zinsert_other.
Qed.

(** [try_decode_group] writes to its own group only, and never to its
    frames. *)
Lemma try_decode_group_frames (h : PacketReceiveHook) (gid : Z) :
  received_frames (group_at (fst (try_decode_group h gid)) gid)
  = received_frames (group_at h gid).
Proof.
  unfold try_decode_group.
  destruct (is_complete (group_at h gid));
    [cbn [fst]; now rewrite group_at_zinsert|].
  destruct (Codec.decode _ _ _); cbn [fst]; now rewrite group_at_zinsert.
Qed.

Lemma try_decode_group_other (h : PacketReceiveHook) (gid gid' : Z) :
  gid' <> gid ->
  group_at (fst (try_decode_group h gid)) gid' = group_at h gid'.
Proof.
  intros Hne. unfold try_decode_group.
  destruct (is_complete (group_at h gid));
    [cbn [fst]; now rewrite group_at_zinsert_other|].
  destruct (Codec.decode _ _ _); cbn [fst];
    now rewrite group_at_zinsert_other.
Qed.

Lemma store_frame_complete (g : ReceivedGroup) (f : FECFrame) :
  is_complete (store_frame g f) = is_complete g.
Proof. unfold store_frame. now destruct (_ =? _). Qed.

(** X12.  A group is delivered at most once: once it is marked complete,
    every further frame of the group returns nothing and leaves it
    complete; and a call that returns blocks marks the group complete. *)
Theorem group_is_delivered_once (h : PacketReceiveHook) (f : FECFrame) :
  let gid := group_id (header f) in
  let res := on_frame_received h f in
  (is_complete (group_at h gid) = true ->
   snd res = [] /\ is_complete (group_at (fst res) gid) = true)
  /\ (snd res <> [] -> is_complete (group_at (fst res) gid) = true).
Proof.
  cbv zeta. unfold on_frame_received.
  set (gid := group_id (header f)).
  set (g := store_frame (group_at h gid) f).
  set (h1 := mkReceiveHook _ _).
  assert (Hg : group_at h1 gid = g) by apply group_at_zinsert.
  split.
  - intros Hc.
    assert (Hc1 : is_complete g = true)
      by (unfold g; now rewrite store_frame_complete).
    destruct (_ >=? _); cbn [fst snd].
    + unfold try_decode_group. rewrite Hg, Hc1. cbn [fst snd].
      now rewrite group_at_zinsert.
    + now rewrite Hg.
  - destruct (_ >=? _); cbn [fst snd]; [|congruence].
    unfold try_decode_group. rewrite Hg.
    destruct (is_complete g) eqn:Hc; cbn [fst snd]; [congruence|].
    destruct (Codec.decode _ _ _); cbn [fst snd]; [|congruence].
    intros _. now rewrite group_at_zinsert.
Qed.

(** X13.  A frame changes the state of its own group only: every other
    group is as it was before the call. *)
Theorem other_groups_are_untouched (h : PacketReceiveHook) (f : FECFrame)
  (gid : Z) :
  gid <> group_id (header f) ->
  group_at (fst (on_frame_received h f)) gid = group_at h gid.
Proof.
  intros Hne. unfold on_frame_received.
  destruct (_ >=? _); cbn [fst].
  - rewrite try_decode_group_other by exact Hne.
    now apply group_at_zinsert_other.
  - now apply group_at_zinsert_other.
Qed.

Lemma other_groups_are_untouched_witness :
  group_at
    (fst (on_frame_received
            (fst (on_frame_received new_receive_hook
                    (wrap_source_frame 1 0 6 [7; 7])))
            (wrap_source_frame 2 0 6 [8; 8])))
    1
  = group_at
      (fst (on_frame_received new_receive_hook
              (wrap_source_frame 1 0 6 [7; 7])))
      1.
Proof.
  apply other_groups_are_untouched. cbn. lia.
Defined.

Lemma insert_twice {K V : Type} (cmp : K -> K -> comparison) (k : K) (v : V)
  (m : list (K * V)) :
  cmp k k = Eq ->
  insert cmp k v (insert cmp k v m) = insert cmp k v m.
Proof.
  intros Hr. induction m as [|[k' v'] m IH]; cbn [insert].
  - now rewrite Hr.
  - destruct (cmp k k') eqn:E; cbn [insert]; rewrite ?Hr, ?E; congruence.
Qed.

Lemma on_frame_received_frames (h : PacketReceiveHook) (f : FECFrame) :
  received_frames (group_at (fst (on_frame_received h f)) (group_id (header f)))
  = zinsert (block_index (header f)) f
      (received_frames (group_at h (group_id (header f)))).
Proof.
  unfold on_frame_received.
  set (gid := group_id (header f)).
  assert (Hs : received_frames (store_frame (group_at h gid) f)
               = zinsert (block_index (header f)) f
                   (received_frames (group_at h gid))).
  { unfold store_frame. now destruct (_ =? _). }
  destruct (_ >=? _); cbn [fst].
  - now rewrite try_decode_group_frames, group_at_zinsert.
  - now rewrite group_at_zinsert.
Qed.

(** X14.  A retransmission is not counted: when a frame is delivered a
    second time, the frames held for its group are the same as after the
    first delivery, so the group is no closer to the decoding threshold. *)
Theorem redelivered_frame_is_not_counted (h : PacketReceiveHook)
  (f : FECFrame) :
  let gid := group_id (header f) in
  let h1 := fst (on_frame_received h f) in
  let h2 := fst (on_frame_received h1 f) in
  received_frames (group_at h2 gid) = received_frames (group_at h1 gid).
Proof.
  cbv zeta. rewrite !on_frame_received_frames.
  apply insert_twice, Z.compare_refl.
Qed.

(** *** Source frames delivered in order *)

Lemma wrap_source_frames_app (gid total : Z) (pk : list PendingPacket)
  (p : PendingPacket) :
  forall i,
    wrap_source_frames gid total i (pk ++ [p])
    = wrap_source_frames gid total i pk
        ++ [wrap_source_frame gid (wrap32 (Z.of_nat (i + length pk))) total
              (pp_data p)].
Proof.
  induction pk as [|q pk IH]; intros i; cbn [wrap_source_frames app length].
  - now rewrite Nat.add_0_r.
  - rewrite IH. now rewrite Nat.add_succ_comm.
Qed.

Lemma length_wrap_source_frames (gid total : Z) (pk : list PendingPacket) :
  forall i, length (wrap_source_frames gid total i pk) = length pk.
Proof.
  induction pk as [|q pk IH]; intros i; cbn [wrap_source_frames length];
    [reflexivity | now rewrite IH].
Qed.

Lemma receive_all_app (h : PacketReceiveHook) (frames : list FECFrame)
  (f : FECFrame) :
  receive_all h (frames ++ [f])
  = (fst (on_frame_received (fst (receive_all h frames)) f),
     snd (receive_all h frames)
       ++ [snd (on_frame_received (fst (receive_all h frames)) f)]).
Proof.
  unfold receive_all. rewrite fold_left_app. cbn [fold_left].
  now destruct (on_frame_received _ f).
Qed.

(** In an ordered map, a key above all the others goes to the end. *)
Lemma zinsert_at_end {V : Type} (k : Z) (v : V) (m : zmap V) :
  Forall (fun k' => k' < k) (keys m) -> zinsert k v m = m ++ [(k, v)].
Proof.
  unfold zinsert. induction m as [|[k' v'] m IH]; intros Hk; [reflexivity|].
  apply Forall_cons_iff in Hk. destruct Hk as [Hlt Hk]. cbn [fst] in Hlt.
  cbn [insert app]. apply Z.compare_gt_iff in Hlt. rewrite Hlt.
  now rewrite IH.
Qed.

(** One source frame more, delivered to a group that holds the frames
    before it, in order, and is not complete. *)
Lemma receive_next_source (h : PacketReceiveHook) (gid total : Z)
  (pk : list PendingPacket) (p : PendingPacket) :
  let K := inferred_k total in
  let g := group_at h gid in
  let f := wrap_source_frame gid (wrap32 (len pk)) total (pp_data p) in
  let res := on_frame_received h f in
  let g' := group_at (fst res) gid in
  decoders_consistent h ->
  len pk < K ->
  keys (received_frames g) = map Z.of_nat (seq 0 (length pk)) ->
  map (fun kv => payload (snd kv)) (received_frames g) = map pp_data pk ->
  is_complete g = false ->
  info_group_id (rg_info g) = 0 \/ info_k (rg_info g) = K ->
  decoders_consistent (fst res)
  /\ keys (received_frames g') = map Z.of_nat (seq 0 (length (pk ++ [p])))
  /\ map (fun kv => payload (snd kv)) (received_frames g')
     = map pp_data (pk ++ [p])
  /\ (info_group_id (rg_info g') = 0 \/ info_k (rg_info g') = K)
  /\ (len pk + 1 < K -> snd res = [] /\ is_complete g' = false)
  /\ (len pk + 1 = K -> snd res = map pp_data (pk ++ [p])).
Proof.
  intros K g f res g' Hcons Hlt Hkeys Hpay Hinc Hinfo.
  assert (HK : K < 2 ^ 32).
  { unfold K, inferred_k, wrap32.
    pose proof (Z.mod_pos_bound (total * 2) (2 ^ 32) ltac:(lia)) as Hm.
    apply Z.div_lt_upper_bound; [lia|].
    change (2 ^ 32) with 4294967296 in *. lia. }
  assert (Hw : wrap32 (len pk) = len pk).
  { unfold wrap32. apply Z.mod_small. unfold len in *. lia. }
  assert (Hfr : received_frames g'
                = received_frames g ++ [(len pk, f)]).
  { unfold g', res.
    replace gid with (group_id (header f)) at 1 by reflexivity.
    rewrite on_frame_received_frames.
    change (block_index (header f)) with (wrap32 (len pk)).
    change (group_id (header f)) with gid.
    fold g. rewrite Hw. apply zinsert_at_end.
    rewrite Hkeys. apply Forall_map, Forall_forall. intros i Hi.
    apply in_seq in Hi. unfold len. lia. }
  assert (Hkeys' : keys (received_frames g')
                   = map Z.of_nat (seq 0 (length (pk ++ [p])))).
  { rewrite Hfr. unfold keys in *. rewrite map_app, Hkeys.
    rewrite length_app. cbn [length map fst]. rewrite Nat.add_1_r, seq_S.
    now rewrite map_app. }
  assert (Hpay' : map (fun kv => payload (snd kv)) (received_frames g')
                  = map pp_data (pk ++ [p])).
  { rewrite Hfr, !map_app, Hpay. reflexivity. }
  (* the group as stored before the decoding attempt *)
  set (g1 := store_frame g f).
  assert (Hk1 : info_k (rg_info g1) = K).
  { unfold g1, store_frame. destruct (_ =? _) eqn:E; [reflexivity|].
    cbn [rg_info]. destruct Hinfo as [H0|H0]; [|exact H0].
    apply Z.eqb_neq in E. contradiction. }
  assert (Hfr1 : received_frames g1 = received_frames g ++ [(len pk, f)]).
  { unfold g1, store_frame.
    assert (Hz : zinsert (block_index (header f)) f (received_frames g)
                 = received_frames g ++ [(len pk, f)]).
    { change (block_index (header f)) with (wrap32 (len pk)).
      rewrite Hw. apply zinsert_at_end.
      rewrite Hkeys. apply Forall_map, Forall_forall. intros i Hi.
      apply in_seq in Hi. unfold len. lia. }
    destruct (_ =? _); cbn [received_frames]; exact Hz. }
  assert (Hc1 : is_complete g1 = false)
    by (unfold g1; now rewrite store_frame_complete).
  assert (Hlen1 : len (received_frames g1) = len pk + 1).
  { rewrite Hfr1. unfold len. rewrite length_app.
    replace (length (received_frames g)) with (length (keys (received_frames g)))
      by (unfold keys; apply length_map).
    rewrite Hkeys, length_map, length_seq. cbn [length]. lia. }
  unfold g', res, on_frame_received.
  change (group_id (header f)) with gid. fold g. fold g1.
  rewrite Hlen1, Hk1.
  set (h1 := mkReceiveHook _ _).
  assert (Hg1 : group_at h1 gid = g1) by apply group_at_zinsert.
  destruct (Z.geb_spec (len pk + 1) K) as [Hge|Hlt'].
  - (* the last frame: the group is decoded *)
    assert (HeqK : len pk + 1 = K) by lia.
    unfold try_decode_group. rewrite Hg1, Hc1, Hk1.
    set (key := (K, info_m (rg_info g1))).
    set (decoders := match pfind key (decoders_ h1) with
                     | Some _ => decoders_ h1
                     | None => _
                     end).
    assert (Hd : exists d, pfind key decoders = Some d
                           /\ Codec.dec_k_ d = K
                           /\ (forall key' d', pfind key' decoders = Some d' ->
                                               Codec.dec_k_ d' = fst key')).
    { unfold decoders. destruct (pfind key (decoders_ h1)) as [d|] eqn:E.
      - exists d. split; [exact E|]. split; [now apply Hcons in E|].
        exact Hcons.
      - eexists. split; [apply pfind_pinsert_same|]. split; [reflexivity|].
        intros key' d'.
        assert (Hdec : key' = key \/ key' <> key).
        { destruct key' as [a b], key as [a' b'].
          destruct (Z.eq_dec a a'), (Z.eq_dec b b');
            [left; congruence | right; congruence ..]. }
        destruct Hdec as [->|Hne].
        + rewrite pfind_pinsert_same. now intros [= <-].
        + rewrite pfind_pinsert_other by exact Hne. apply Hcons. }
    destruct Hd as (d & -> & Hdk & Hcons').
    assert (Hdec : Codec.decode d
                     (map (fun kv => payload (snd kv)) (received_frames g1))
                     (keys (received_frames g1))
                   = Ok (map pp_data (pk ++ [p]))).
    { rewrite <- Hfr1 in Hfr. rewrite <- Hfr.
      rewrite Hpay', Hkeys'. unfold Codec.decode.
      assert (Hl : @len Codec.block (map pp_data (pk ++ [p])) = K).
      { unfold len in *. rewrite length_map, length_app. cbn [length]. lia. }
      rewrite Hdk, Hl, Z.ltb_irrefl.
      replace (len (map Z.of_nat (seq 0 (length (pk ++ [p]))))) with K
        by (unfold len in *; rewrite length_map, length_seq, length_app;
            cbn [length]; lia).
      rewrite Z.eqb_refl. cbn [negb]. f_equal.
      rewrite (collect_sources_prefix K _ _ [] (length (pk ++ [p]))).
      - cbn [app]. rewrite firstn_all2 by (rewrite length_map; lia).
        unfold Codec.pad_zero_blocks. rewrite Hl, Z.sub_diag. cbn.
        apply app_nil_r.
      - unfold len in *. rewrite length_app. cbn [length]. lia.
      - now rewrite length_map.
      - now rewrite !length_map, length_seq.
      - rewrite firstn_all2 by (rewrite length_map, length_seq; lia).
        apply Forall_map, Forall_forall. intros i Hi. apply in_seq in Hi.
        unfold len in *. rewrite length_app in Hi. cbn [length] in Hi. lia. }
    rewrite Hdec. cbn [fst snd]. rewrite group_at_zinsert.
    cbn [received_frames rg_info].
    rewrite <- Hfr1 in Hfr. rewrite <- Hfr.
    refine (conj Hcons' (conj Hkeys' (conj Hpay' (conj (or_intror Hk1) _)))).
    split; [lia | reflexivity].
  - cbn [fst snd]. rewrite Hg1.
    rewrite <- Hfr1 in Hfr. rewrite <- Hfr.
    refine (conj Hcons (conj Hkeys' (conj Hpay' (conj (or_intror Hk1) _)))).
    split; [auto | lia].
Qed.

(** The first source frames of a group, fewer than [k], delivered in order
    to a hook that has not seen the group. *)
Lemma receive_source_prefix (h : PacketReceiveHook) (gid total : Z) :
  decoders_consistent h ->
  zfind gid (received_groups_ h) = None ->
  forall pk : list PendingPacket,
    len pk < inferred_k total ->
    let r := receive_all h (wrap_source_frames gid total 0 pk) in
    let g := group_at (fst r) gid in
    snd r = repeat [] (length pk)
    /\ decoders_consistent (fst r)
    /\ keys (received_frames g) = map Z.of_nat (seq 0 (length pk))
    /\ map (fun kv => payload (snd kv)) (received_frames g) = map pp_data pk
    /\ is_complete g = false
    /\ (info_group_id (rg_info g) = 0 \/ info_k (rg_info g) = inferred_k total).
Proof.
  intros Hcons Hnew pk. induction pk as [|p pk IH] using rev_ind; intros Hlt.
  - cbv zeta. cbn [wrap_source_frames receive_all fold_left fst snd length
                   repeat seq map].
    unfold group_at. rewrite Hnew. cbn.
    repeat split; auto.
  - assert (Hlt' : len pk + 1 < inferred_k total).
    { unfold len in *. rewrite length_app in Hlt. cbn [length] in Hlt. lia. }
    destruct (IH ltac:(lia)) as (Hout & Hc & Hkeys & Hpay & Hinc & Hinfo).
    cbv zeta. rewrite wrap_source_frames_app, receive_all_app.
    cbn [fst snd]. rewrite Nat.add_0_l. fold (len pk).
    destruct (receive_next_source _ gid total pk p Hc ltac:(lia) Hkeys Hpay
                Hinc Hinfo) as (Hc' & Hkeys' & Hpay' & Hinfo' & Hsmall & _).
    destruct (Hsmall Hlt') as [Hnil Hinc'].
    rewrite Hout, Hnil. repeat split; try assumption.
    rewrite length_app. cbn [length]. rewrite Nat.add_1_r.
    now rewrite <- repeat_cons.
Qed.

(** X15.  Round trip through the hooks, without loss: when the [k] source
    frames of a group, as the send hook numbers them, reach a hook that
    has not seen the group, in order, and the [total_blocks] they announce
    makes the receiver infer that [k], the first [k - 1] deliveries return
    nothing and the last returns the [k] payloads, in order. *)
Theorem in_order_source_frames_recover_payloads (h : PacketReceiveHook)
  (gid total : Z) (packets : list PendingPacket) :
  decoders_consistent h ->
  zfind gid (received_groups_ h) = None ->
  packets <> [] ->
  len packets = inferred_k total ->
  snd (receive_all h (wrap_source_frames gid total 0 packets))
  = repeat [] (length packets - 1) ++ [map pp_data packets].
Proof.
  intros Hcons Hnew Hne Hlen.
  destruct (exists_last Hne) as (pk & p & ->).
  assert (Hk : len pk + 1 = inferred_k total).
  { unfold len in *. rewrite length_app in Hlen. cbn [length] in Hlen. lia. }
  destruct (receive_source_prefix h gid total Hcons Hnew pk ltac:(lia))
    as (Hout & Hc & Hkeys & Hpay & Hinc & Hinfo).
  rewrite wrap_source_frames_app, receive_all_app.
  cbn [fst snd]. rewrite Nat.add_0_l. fold (len pk).
  destruct (receive_next_source _ gid total pk p Hc ltac:(lia) Hkeys Hpay
              Hinc Hinfo) as (_ & _ & _ & _ & _ & Hlast).
  rewrite Hout, (Hlast Hk). rewrite length_app. cbn [length].
  now rewrite Nat.add_sub.
Qed.

Lemma in_order_source_frames_recover_payloads_witness :
  snd (receive_all new_receive_hook (source_frames_of 1 6 s_blocks))
  = [[]; []; []; s_blocks].
Proof.
  refine (in_order_source_frames_recover_payloads new_receive_hook 1 6
            (map (fun b => mkPending 0 0 b 0) s_blocks) _ _ _ _).
  - intros key d. discriminate.
  - reflexivity.
  - discriminate.
  - reflexivity.
Defined.

End ReceiveHook.

(** ** Properties of the send hook *)

Section SendHook.

Import Frame Hook Scenarios.

Lemma index_wrap_source_frames (gid total : Z) (pk : list PendingPacket) :
  forall i,
    map (fun f => block_index (header f)) (wrap_source_frames gid total i pk)
    = map (fun j => wrap32 (Z.of_nat j)) (seq i (length pk)).
Proof.
  induction pk as [|q pk IH]; intros i; cbn [wrap_source_frames map length seq];
    [reflexivity | now rewrite IH].
Qed.

Lemma shape_wrap_source_frames (gid total : Z) (pk : list PendingPacket) :
  forall i,
    Forall (fun f => frame_type (header f) = FEC_SOURCE_FRAME
                     /\ group_id (header f) = gid
                     /\ total_blocks (header f) = total
                     /\ payload_length (header f) = wrap32 (len (payload f)))
      (wrap_source_frames gid total i pk).
Proof.
  induction pk as [|q pk IH]; intros i; cbn [wrap_source_frames];
    constructor; auto.
Qed.

(** X16.  What the send hook emits when a packet completes a group: the
    [k] source frames first, carrying the pending payloads and the new one
    in submission order under block indices [0 .. k-1], then the [m]
    repair frames under block indices [k .. k+m-1], all with the id of the
    group.  The source frames announce the [k + m] recorded when the group
    was created, the repair frames the manager's current [k + m]. *)
Theorem emitted_frames_layout (gm gm' : FECGroupManager)
  (packet_num path_id : Z) (stream_data : list Z) (now : Z)
  (frames : list FECFrame) :
  on_packet_send true gm packet_num path_id stream_data now
  = (gm', Ok (true, frames)) ->
  let g := current_group_ gm in
  let enc := encoder_ gm in
  exists sources repairs,
    frames = sources ++ repairs
    /\ map payload sources = map pp_data (source_packets g) ++ [stream_data]
    /\ len sources = Codec.enc_k_ enc
    /\ map (fun f => block_index (header f)) sources
       = map (fun j => wrap32 (Z.of_nat j)) (seq 0 (length sources))
    /\ Forall (fun f => frame_type (header f) = FEC_SOURCE_FRAME
                        /\ group_id (header f) = eg_group_id g
                        /\ total_blocks (header f)
                           = wrap32 (info_k (eg_info g) + info_m (eg_info g)))
         sources
    /\ len repairs = Z.max 0 (Codec.enc_m_ enc)
    /\ map (fun f => block_index (header f)) repairs
       = map (fun j => wrap32 (current_k_ gm + Z.of_nat j))
           (seq 0 (length repairs))
    /\ Forall (fun f => frame_type (header f) = FEC_REPAIR_FRAME
                        /\ group_id (header f) = eg_group_id g
                        /\ total_blocks (header f)
                           = wrap32 (current_k_ gm + current_m_ gm))
         repairs.
Proof.
  intros Hsend. cbv zeta. unfold on_packet_send in Hsend. cbn [negb] in Hsend.
  set (p := mkPending packet_num path_id stream_data now) in *.
  unfold add_source_packet in Hsend.
  set (g1 := push_source (current_group_ gm) p) in *.
  destruct (_ >=? _); [|cbn in Hsend; discriminate].
  destruct (perform_encoding (set_current_group gm g1) g1) as [g'|e] eqn:E;
    [|discriminate].
  cbn [create_new_group] in Hsend.
  destruct (eg_group_id g1 >? 0); [|discriminate].
  unfold get_encoded_group in Hsend. cbn [encoded_groups_] in Hsend.
  rewrite zfind_zinsert_same in Hsend.
  apply perform_encoding_ok_inv in E.
  destruct E as (Hsk & Hall & Hid & Hinfo & Hsrc & Henc & Hrl & Hidx & Hshape).
  rewrite Henc, Hid, Hinfo, Hsrc in Hsend. injection Hsend as _ <-.
  cbn [encoder_ current_k_ current_m_ set_current_group] in *.
  change (eg_group_id g1) with (eg_group_id (current_group_ gm)) in *.
  change (eg_info g1) with (eg_info (current_group_ gm)) in *.
  change (source_packets g1)
    with (source_packets (current_group_ gm) ++ [p]) in *.
  eexists. exists (repair_frames g').
  split; [reflexivity|].
  split; [rewrite payload_wrap_source_frames; now rewrite map_app|].
  split; [unfold len in *; now rewrite length_wrap_source_frames|].
  split; [rewrite index_wrap_source_frames;
          now rewrite length_wrap_source_frames|].
  split.
  { eapply Forall_impl; [|apply shape_wrap_source_frames].
    cbv beta. intros f (? & ? & ? & _). auto. }
  split; [unfold len; rewrite Hrl; lia|].
  split; [rewrite Hidx, Hrl; reflexivity|].
  revert Hshape. apply Forall_impl. intros f (? & ? & ? & _). auto.
Qed.

Lemma emitted_frames_layout_witness :
  match new_manager 2 1 4 0 with
  | Err _ => True
  | Ok gm0 =>
      let gm1 := fst (on_packet_send true gm0 0 0 [1; 2; 3; 4] 0) in
      exists sources repairs,
        snd (on_packet_send true gm1 1 0 [5; 6; 7; 8] 0)
        = Ok (true, sources ++ repairs)
        /\ map payload sources = [[1; 2; 3; 4]; [5; 6; 7; 8]]
        /\ len repairs = 1
  end.
Proof.
  destruct (new_manager 2 1 4 0) as [gm0|e] eqn:E0; [|exact I].
  vm_compute in E0. injection E0 as <-. cbv zeta.
  match goal with
  | |- context [on_packet_send true ?gm ?n ?pa ?d ?t] =>
      match gm with
      | fst _ =>
          destruct (on_packet_send true gm n pa d t) as [gm2 r] eqn:E;
          assert (Hr : exists frames, r = Ok (true, frames))
            by (vm_compute in E; injection E as _ <-; eexists; reflexivity);
          destruct Hr as (frames & ->);
          destruct (emitted_frames_layout gm gm2 n pa d t frames E)
            as (sources & repairs & H1 & H2 & _ & _ & _ & H3 & _)
      end
  end.
  exists sources, repairs. cbn [snd]. rewrite H1.
  split; [reflexivity|]. split; [exact H2 | exact H3].
Defined.

(** X17.  [update_coding_params] on a manager whose current group is empty
    rebuilds the encoder for the new [(k, m)] and leaves the current group
    as it is, with the [(k, m)] recorded at its creation: the source frames
    of that group will announce the old [k + m]. *)
Theorem update_keeps_info_of_empty_group (gm : FECGroupManager) (k m now : Z) :
  source_packets (current_group_ gm) = [] ->
  k <> current_k_ gm \/ m <> current_m_ gm ->
  k <> 0 -> m <> 0 ->
  let res := update_coding_params gm k m now in
  snd res = Ok tt
  /\ get_coding_params (fst res) = (k, m)
  /\ encoder_consistent (fst res)
  /\ current_group_ (fst res) = current_group_ gm
  /\ encoded_groups_ (fst res) = encoded_groups_ gm.
Proof.
  intros Hempty Hdiff Hk Hm. cbv zeta. unfold update_coding_params.
  assert (Hb : negb (k =? current_k_ gm) || negb (m =? current_m_ gm) = true).
  { destruct Hdiff as [H|H]; apply Z.eqb_neq in H; rewrite H;
      auto using orb_true_r. }
  rewrite Hb. unfold Codec.new_encoder.
  destruct (Z.eqb_spec k 0); [contradiction|].
  destruct (Z.eqb_spec m 0); [contradiction|].
  cbn [orb]. unfold flush_pending_groups. cbn [current_group_].
  rewrite Hempty. cbn. repeat split.
Qed.

Lemma update_keeps_info_of_empty_group_witness :
  match new_manager 4 2 1200 0 with
  | Err _ => True
  | Ok gm =>
      let gm' := fst (update_coding_params gm 8 2 0) in
      get_coding_params gm' = (8, 2)
      /\ info_k (eg_info (current_group_ gm')) = 4
  end.
Proof.
  destruct (new_manager 4 2 1200 0) as [gm|e] eqn:E; [|exact I].
  vm_compute in E. injection E as <-. cbv zeta.
  match goal with
  | |- context [update_coding_params ?g 8 2 0] =>
      destruct (update_keeps_info_of_empty_group g 8 2 0)
        as (_ & H1 & _ & H2 & _);
        [reflexivity | left; cbn; lia | lia | lia |]
  end.
  split; [exact H1|]. rewrite H2. reflexivity.
Defined.

End SendHook.

(** ** Properties of the packet-number mapper *)

Section EraseFacts.

Context {K V : Type}.
Variable cmp : K -> K -> comparison.
Hypothesis cmp_refl : forall a, cmp a a = Eq.
Hypothesis cmp_eq : forall a b, cmp a b = Eq -> a = b.

Lemma find_erase_other (k k' : K) (m : list (K * V)) :
  k <> k' -> find cmp k (erase cmp k' m) = find cmp k m.
Proof.
  intros Hne. induction m as [|[k1 v1] m IH]; [reflexivity|].
  cbn [erase find]. destruct (cmp k' k1) eqn:E; cbn [find]; rewrite ?IH; auto.
  apply cmp_eq in E. subst k1.
  destruct (cmp k k') eqn:E'; auto. apply cmp_eq in E'. contradiction.
Qed.

Lemma find_none_not_in (k : K) (m : list (K * V)) :
  ~ In k (keys m) -> find cmp k m = None.
Proof.
  induction m as [|[k1 v1] m IH]; intros Hn; [reflexivity|].
  cbn [find]. destruct (cmp k k1) eqn:E;
    try (apply IH; intros H; apply Hn; now right).
  exfalso. apply Hn. left. symmetry. now apply cmp_eq.
Qed.

Lemma find_in_unique (k : K) (v : V) (m : list (K * V)) :
  NoDup (keys m) -> In (k, v) m -> find cmp k m = Some v.
Proof.
  induction m as [|[k1 v1] m IH]; intros Hnd Hin; [contradiction|].
  apply NoDup_cons_iff in Hnd. destruct Hnd as [Hn Hnd]. cbn [find].
  destruct Hin as [Heq | Hin].
  - injection Heq as -> ->. now rewrite cmp_refl.
  - destruct (cmp k k1) eqn:E; auto.
    apply cmp_eq in E. subst k1. exfalso. apply Hn.
    apply (in_map fst m (k, v)) in Hin. exact Hin.
Qed.

Lemma keys_erase_incl (k : K) (m : list (K * V)) :
  forall x, In x (keys (erase cmp k m)) -> In x (keys m).
Proof.
  induction m as [|[k1 v1] m IH]; intros x; [auto|].
  cbn [erase]. destruct (cmp k k1); unfold keys in *; cbn [map fst].
  - intros H. now right.
  - intros [H | H]; [now left | right; now apply IH].
  - intros [H | H]; [now left | right; now apply IH].
Qed.

Lemma NoDup_keys_erase (k : K) (m : list (K * V)) :
  NoDup (keys m) -> NoDup (keys (erase cmp k m)).
Proof.
  induction m as [|[k1 v1] m IH]; intros Hnd; [exact Hnd|].
  apply NoDup_cons_iff in Hnd. destruct Hnd as [Hn Hnd].
  cbn [erase]. destruct (cmp k k1); auto; cbn [keys map fst];
    apply NoDup_cons; auto; intros H; apply Hn; now apply keys_erase_incl in H.
Qed.

Lemma find_erase_same (k : K) (m : list (K * V)) :
  NoDup (keys m) -> find cmp k (erase cmp k m) = None.
Proof.
  induction m as [|[k1 v1] m IH]; intros Hnd; [reflexivity|].
  apply NoDup_cons_iff in Hnd. destruct Hnd as [Hn Hnd].
  cbn [erase]. destruct (cmp k k1) eqn:E; cbn [find]; rewrite ?E; auto.
  apply cmp_eq in E. subst k1. now apply find_none_not_in.
Qed.

Lemma find_erase_none (k k' : K) (m : list (K * V)) :
  find cmp k m = None -> find cmp k (erase cmp k' m) = None.
Proof.
  induction m as [|[k1 v1] m IH]; [auto|].
  cbn [find erase]. destruct (cmp k k1) eqn:E; [discriminate| |];
    intros H; destruct (cmp k' k1); cbn [find]; rewrite ?E; auto.
Qed.

(** Erasing, one after the other, the keys of the entries that satisfy a
    test on the key leaves the entries that fail it. *)
Lemma erase_all_matching (test : K -> bool) (m : list (K * V)) :
  fold_left (fun acc k => erase cmp k acc)
    (keys (filter (fun kv => test (fst kv)) m)) m
  = filter (fun kv => negb (test (fst kv))) m.
Proof.
  induction m as [|[k1 v1] m IH]; [reflexivity|].
  cbn [filter fst]. destruct (test k1) eqn:Et; cbn [negb keys map fold_left fst].
  - cbn [erase]. rewrite cmp_refl. exact IH.
  - rewrite <- IH. clear IH.
    assert (Hall : Forall (fun k => test k = true)
                     (keys (filter (fun kv => test (fst kv)) m))).
    { apply Forall_map, Forall_forall. intros kv Hin.
      now apply filter_In in Hin. }
    revert Hall. generalize (keys (filter (fun kv => test (fst kv)) m)).
    intros ks. generalize m. induction ks as [|k ks IHk]; intros m0 Hall;
      [reflexivity|].
    apply Forall_cons_iff in Hall. destruct Hall as [Hk Hall].
    cbn [fold_left erase].
    destruct (cmp k k1) eqn:E; try now apply IHk.
    apply cmp_eq in E. congruence.
Qed.

End EraseFacts.

Section Mapper.

Import Frame Hook Controller.

(** X18.  A mapping that was added is found again: by its path and packet
    number, and at the end of the list of its group.  Nothing else
    changes: other packets and other groups read as before. *)
Theorem added_mapping_is_found (pm : PacketNumberMapper)
  (gid block_idx path pkt_num : Z) (repair : bool) :
  let pm' := add_mapping pm gid block_idx path pkt_num repair in
  let mapping := mkMapping gid block_idx path pkt_num repair in
  find_by_packet pm' path pkt_num = Some mapping
  /\ find_by_group pm' gid = find_by_group pm gid ++ [mapping]
  /\ (forall path' pkt_num',
         (path', pkt_num') <> (path, pkt_num) ->
         find_by_packet pm' path' pkt_num' = find_by_packet pm path' pkt_num')
  /\ (forall gid',
         gid' <> gid -> find_by_group pm' gid' = find_by_group pm gid').
Proof.
  cbv zeta. unfold find_by_packet, find_by_group, add_mapping.
  cbn [pkt_to_mapping_ group_to_mappings_].
  split; [apply pfind_pinsert_same|].
  split; [now rewrite zfind_zinsert_same|].
  split.
  - intros path' pkt_num' Hne. now apply pfind_pinsert_other.
  - intros gid' Hne. now rewrite zfind_zinsert_other.
Qed.

Lemma perase_fold_keeps (ms : list PacketMapping) (key : Z * Z) :
  forall m : pmap PacketMapping,
    Forall (fun mp => (pm_path_id mp, pm_packet_number mp) <> key) ms ->
    pfind key
      (fold_left (fun acc mp => perase (pm_path_id mp, pm_packet_number mp) acc)
         ms m)
    = pfind key m.
Proof.
  induction ms as [|mp ms IH]; intros m Hall; [reflexivity|].
  apply Forall_cons_iff in Hall. destruct Hall as [Hne Hall].
  cbn [fold_left]. rewrite IH by exact Hall.
  apply find_erase_other; [apply pair_compare_eq | congruence].
Qed.

Lemma perase_fold_none (ms : list PacketMapping) (key : Z * Z) :
  forall m : pmap PacketMapping,
    pfind key m = None ->
    pfind key
      (fold_left (fun acc mp => perase (pm_path_id mp, pm_packet_number mp) acc)
         ms m)
    = None.
Proof.
  induction ms as [|mp ms IH]; intros m Hn; [exact Hn|].
  cbn [fold_left]. apply IH. now apply find_erase_none.
Qed.

Lemma perase_fold_removes (ms : list PacketMapping) (key : Z * Z) :
  forall m : pmap PacketMapping,
    NoDup (keys m) ->
    (exists mp, In mp ms /\ (pm_path_id mp, pm_packet_number mp) = key) ->
    pfind key
      (fold_left (fun acc mp => perase (pm_path_id mp, pm_packet_number mp) acc)
         ms m)
    = None.
Proof.
  induction ms as [|mp ms IH]; intros m Hnd (mp' & Hin & Hkey);
    [contradiction|].
  cbn [fold_left]. destruct Hin as [<- | Hin].
  - apply perase_fold_none. rewrite Hkey.
    apply find_erase_same; [apply pair_compare_eq | exact Hnd].
  - apply IH; [now apply NoDup_keys_erase | eauto].
Qed.

(** X19.  [cleanup_old_mappings] forgets the groups below the bound and
    the packets listed under them: such a group reads as empty and such a
    packet is no longer found, while every other group and every packet
    not listed under a forgotten group read as before.  (The keys of the
    two maps are distinct, as in any [std::map].) *)
Theorem cleanup_old_mappings_lookup (pm : PacketNumberMapper)
  (before_group_id : Z) :
  NoDup (keys (pkt_to_mapping_ pm)) ->
  NoDup (keys (group_to_mappings_ pm)) ->
  let pm' := cleanup_old_mappings pm before_group_id in
  (forall gid,
      find_by_group pm' gid
      = if gid <? before_group_id then [] else find_by_group pm gid)
  /\ (forall gid mp,
         gid < before_group_id ->
         In mp (find_by_group pm gid) ->
         find_by_packet pm' (pm_path_id mp) (pm_packet_number mp) = None)
  /\ (forall path pkt_num,
         (forall gid mp,
             gid < before_group_id ->
             In mp (find_by_group pm gid) ->
             (pm_path_id mp, pm_packet_number mp) <> (path, pkt_num)) ->
         find_by_packet pm' path pkt_num = find_by_packet pm path pkt_num).
Proof.
  intros Hndp Hndg. cbv zeta.
  unfold find_by_group, find_by_packet, cleanup_old_mappings.
  cbn [pkt_to_mapping_ group_to_mappings_].
  split; [|split].
  - intros gid. unfold zerase.
    rewrite (erase_all_matching Z.compare Z.compare_refl Z.compare_eq
               (fun k => k <? before_group_id)).
    rewrite zfind_filter_below. now destruct (gid <? before_group_id).
  - intros gid mp Hlt Hin. apply perase_fold_removes; [exact Hndp|].
    exists mp. split; [|reflexivity].
    destruct (zfind gid (group_to_mappings_ pm)) as [l|] eqn:E;
      [|contradiction].
    apply in_concat. exists l. split; [|exact Hin].
    change l with (snd (gid, l)). apply in_map, filter_In. split.
    + clear - E. induction (group_to_mappings_ pm) as [|[k1 v1] m IH];
        [discriminate|].
      unfold zfind in *. cbn [find] in E.
      destruct (Z.compare_spec gid k1) as [-> | |];
        [injection E as ->; now left | right; auto ..].
    + cbn [fst]. now apply Z.ltb_lt.
  - intros path pkt_num Hfree. apply perase_fold_keeps.
    apply Forall_forall. intros mp Hin.
    apply in_concat in Hin. destruct Hin as (l & Hl & Hin).
    apply in_map_iff in Hl. destruct Hl as ([gid l'] & Hs & Hl).
    cbn [snd] in Hs. subst l'. apply filter_In in Hl.
    destruct Hl as [Hl Hlt]. cbn [fst] in Hlt. apply Z.ltb_lt in Hlt.
    apply (Hfree gid mp Hlt). unfold zfind.
    rewrite (find_in_unique Z.compare Z.compare_refl Z.compare_eq gid l
               (group_to_mappings_ pm) Hndg Hl).
    exact Hin.
Qed.

Lemma cleanup_old_mappings_lookup_witness :
  let pm := add_mapping (add_mapping (mkMapper [] []) 1 0 0 1 false)
              2 0 0 2 false in
  find_by_group (cleanup_old_mappings pm 2) 1 = []
  /\ find_by_group (cleanup_old_mappings pm 2) 2 = find_by_group pm 2
  /\ find_by_packet (cleanup_old_mappings pm 2) 0 1 = None.
Proof.
  cbv zeta.
  set (pm := add_mapping (add_mapping (mkMapper [] []) 1 0 0 1 false)
               2 0 0 2 false).
  assert (Hp : NoDup (keys (pkt_to_mapping_ pm))).
  { vm_compute. repeat (constructor; [cbn; intuition congruence|]).
    constructor. }
  assert (Hg : NoDup (keys (group_to_mappings_ pm))).
  { vm_compute. repeat (constructor; [cbn; intuition congruence|]).
    constructor. }
  destruct (cleanup_old_mappings_lookup pm 2 Hp Hg) as (H1 & H2 & _).
  split; [exact (H1 1)|]. split; [exact (H1 2)|].
  apply (H2 1 (mkMapping 1 0 0 1 false)); [lia|]. vm_compute. now left.
Defined.

End Mapper.

(** ** Properties of the path selection *)

Section SchedulerSelection.

Import Scheduler.




(** The loop of [find_least_correlated_path]. *)
Lemma least_correlated_loop_min (s : PathScheduler) (id : Z)
  (candidates : list Z) :
  forall (min_correlation : Q) (best_path : Z),
    let p := least_correlated_loop s id candidates min_correlation best_path in
    (p = best_path
     /\ forall c, In c candidates -> c <> id ->
                  (min_correlation <= dabs (get_path_correlation s id c))%Q)
    \/ (In p candidates /\ p <> id
        /\ (dabs (get_path_correlation s id p) < min_correlation)%Q
        /\ forall c, In c candidates -> c <> id ->
                     (dabs (get_path_correlation s id p)
                      <= dabs (get_path_correlation s id c))%Q).
Proof.
  induction candidates as [|cand rest IH]; intros mc bp; cbv zeta.
  - left. split; [reflexivity | contradiction].
  - cbn [least_correlated_loop]. destruct (Z.eqb_spec cand id) as [-> | Hne].
    + destruct (IH mc bp) as [[Hp Hall] | (Hin & Hpid & Hlt & Hall)].
      * left. split; [exact Hp|]. intros c [<- | Hc] Hcid;
          [contradiction | auto].
      * right. split; [now right|]. split; [exact Hpid|]. split; [exact Hlt|].
        intros c [<- | Hc] Hcid; [contradiction | auto].
    + destruct (Qltb (dabs (get_path_correlation s id cand)) mc) eqn:E.
      * apply Qltb_lt in E. right.
        destruct (IH (dabs (get_path_correlation s id cand)) cand)
          as [[Hp Hall] | (Hin & Hpid & Hlt & Hall)].
        -- rewrite Hp. split; [now left|]. split; [exact Hne|].
           split; [exact E|].
           intros c [<- | Hc] Hcid; [lra | auto].
        -- split; [now right|]. split; [exact Hpid|]. split; [lra|].
           intros c [<- | Hc] Hcid; [lra | auto].
      * apply Qltb_ge in E.
        destruct (IH mc bp) as [[Hp Hall] | (Hin & Hpid & Hlt & Hall)].
        -- left. split; [exact Hp|].
           intros c [<- | Hc] Hcid; [exact E | auto].
        -- right. split; [now right|]. split; [exact Hpid|].
           split; [exact Hlt|].
           intros c [<- | Hc] Hcid; [lra | auto].
Qed.

Lemma first_other_path_differs (paths : list Z) (source repair : Z) :
  (exists id, In id paths /\ id <> source) ->
  In (first_other_path paths source repair) paths
  /\ first_other_path paths source repair <> source.
Proof.
  induction paths as [|id rest IH]; intros (x & Hin & Hx); [contradiction|].
  cbn [first_other_path]. destruct (Z.eqb_spec id source) as [-> | Hne];
    cbn [negb].
  - destruct Hin as [<- | Hin]; [contradiction|].
    destruct IH as [H1 H2]; [eauto|]. split; [now right | exact H2].
  - split; [now left | exact Hne].
Qed.

(** X21.  With at least two registered paths the repair path is never the
    source path.  It is a registered path whose loss correlation with the
    source path is, in absolute value, the lowest among the other paths,
    coefficients of absolute value 2 or more aside (the scheduler stores
    coefficients as they are passed). *)
Theorem repair_path_avoids_source (s : PathScheduler) (src size : Z) :
  (2 <= len (paths_ s)) ->
  (exists id, In id (keys (paths_ s)) /\ id <> src) ->
  exists p,
    select_repair_path s src size = Ok p
    /\ In p (keys (paths_ s))
    /\ p <> src
    /\ forall c, In c (keys (paths_ s)) -> c <> src ->
                 (dabs (get_path_correlation s src p)
                  <= dabs (get_path_correlation s src c))%Q
                 \/ (2 <= dabs (get_path_correlation s src c))%Q.
Proof.
  intros Hlen Hother. unfold select_repair_path.
  destruct (paths_ s) as [|e1 [|e2 rest]] eqn:E;
    [unfold len in Hlen; simpl in Hlen; lia
    | unfold len in Hlen; simpl in Hlen; lia |].
  destruct e1 as [id1 st1]. rewrite <- E in *.
  assert (Hgt : (len (paths_ s) >? 1) = true) by (apply Z.gtb_lt; lia).
  assert (Hle : (len (paths_ s) <=? 1) = false) by (apply Z.leb_gt; lia).
  unfold find_least_correlated_path. rewrite Hle, Hgt.
  destruct (least_correlated_loop_min s src (keys (paths_ s)) 2.0%Q src)
    as [[Hp Hall] | (Hin & Hpid & Hlt & Hall)].
  - rewrite Hp, Z.eqb_refl. cbn [andb].
    destruct (first_other_path_differs (keys (paths_ s)) src src Hother)
      as [Hin Hne].
    eexists. split; [reflexivity|]. split; [exact Hin|]. split; [exact Hne|].
    intros c Hc Hcs. right. specialize (Hall c Hc Hcs).
    assert (H2 : (2 == 2.0)%Q) by reflexivity. now rewrite H2.
  - destruct (Z.eqb_spec
                (least_correlated_loop s src (keys (paths_ s)) 2.0%Q src) src)
      as [Heq | _]; [contradiction|].
    cbn [andb]. eexists. split; [reflexivity|]. split; [exact Hin|].
    split; [exact Hpid|]. intros c Hc Hcs. left. now apply Hall.
Qed.

Lemma repair_path_avoids_source_witness :
  let s := mkScheduler [(0, Scenarios.good_path 0); (1, Scenarios.good_path 1)]
             [] false [] in
  exists p, select_repair_path s 0 1200 = Ok p /\ p <> 0.
Proof.
  cbv zeta.
  match goal with
  | |- exists p, select_repair_path ?s 0 1200 = Ok p /\ _ =>
      destruct (repair_path_avoids_source s 0 1200) as (p & H1 & _ & H2 & _)
  end.
  - vm_compute. congruence.
  - exists 1. split; [right; now left | lia].
  - exists p. split; assumption.
Defined.

End SchedulerSelection.

(** ** Properties of the redundancy controller *)

Section RedundancyMore.

Import OCO.

Lemma Forall_insert {K V : Type} (cmp : K -> K -> comparison)
  (P : K * V -> Prop) (k : K) (v : V) (m : list (K * V)) :
  Forall P m -> P (k, v) -> Forall P (insert cmp k v m).
Proof.
  intros Hall Hv. induction Hall as [|[k1 v1] m Hkv Hall IH]; cbn [insert].
  - now constructor.
  - destruct (cmp k k1); repeat constructor; auto.
Qed.

Lemma find_in {K V : Type} (cmp : K -> K -> comparison) (k : K) (v : V)
  (m : list (K * V)) :
  find cmp k m = Some v -> exists k', In (k', v) m.
Proof.
  induction m as [|[k1 v1] m IH]; cbn [find]; [discriminate|].
  destruct (cmp k k1).
  - intros [= ->]. exists k1. now left.
  - intros H. destruct (IH H) as (k' & Hin). exists k'. now right.
  - intros H. destruct (IH H) as (k' & Hin). exists k'. now right.
Qed.

(** X22.  Whatever updates the loss-correlation matrix of the redundancy
    controller has received, every coefficient read from it lies in
    [-1, 1], and the matrix reads the same in both orders of a pair. *)
Theorem correlation_matrix_stays_bounded (updates : list (Z * Z * Q))
  (i j : Z) :
  let cm :=
    fold_left
      (fun cm u => update_correlation cm (fst (fst u)) (snd (fst u)) (snd u))
      updates [] in
  (-1 <= get_correlation cm i j <= 1)%Q
  /\ get_correlation cm i j = get_correlation cm j i.
Proof.
  cbv zeta.
  assert (Hinv : forall (cm : LossCorrelationMatrix),
             Forall (fun kv => (-1 <= snd kv <= 1)%Q) cm ->
             Forall (fun kv => (-1 <= snd kv <= 1)%Q)
               (fold_left
                  (fun cm u =>
                     update_correlation cm (fst (fst u)) (snd (fst u)) (snd u))
                  updates cm)).
  { induction updates as [|u updates IH]; intros cm Hcm; [exact Hcm|].
    cbn [fold_left]. apply IH. unfold update_correlation.
    apply Forall_insert; [exact Hcm|]. cbn [snd]. apply clamp_bounds. }
  specialize (Hinv [] (Forall_nil _)).
  match type of Hinv with Forall _ ?l => set (cm := l) in * end.
  split.
  - unfold get_correlation. destruct (i =? j); [lra|].
    destruct (pfind (canonical_key i j) cm) as [rho|] eqn:E; [|lra].
    apply find_in in E. destruct E as (k' & Hin).
    rewrite Forall_forall in Hinv. exact (Hinv _ Hin).
  - unfold get_correlation.
    now rewrite (Z.eqb_sym j i), (canonical_key_sym j i).
Qed.

End RedundancyMore.

(** ** Properties of the controller *)

Section ControllerMore.

Import Frame Hook Controller Scenarios.

(** X23.  After [set_fec_strategy] every decision computed from link
    metrics has a redundancy rate within the range of the strategy.
    Without link metrics the decision is the default one, at rate 0.5,
    whatever the strategy. *)
Theorem strategy_bounds_the_rate (c : MPQUICFECController)
  (strategy : OCO.Strategy) :
  let c' := set_fec_strategy c strategy in
  let d := OCO.compute_optimal_redundancy (oco_controller_ c') in
  let lo := fst (OCO.get_strategy_redundancy_range strategy) in
  let hi := snd (OCO.get_strategy_redundancy_range strategy) in
  (OCO.link_metrics_ (oco_controller_ c) <> [] ->
   (lo <= OCO.redundancy_rate d <= hi)%Q)
  /\ (OCO.link_metrics_ (oco_controller_ c) = [] ->
      d = OCO.default_decision).
Proof.
  cbv zeta. unfold set_fec_strategy, OCO.compute_optimal_redundancy.
  split.
  - intros Hne.
    destruct strategy; cbn [OCO.get_strategy_redundancy_range fst snd set_oco
      oco_controller_ OCO.set_redundancy_constraints OCO.link_metrics_
      OCO.min_redundancy_rate_ OCO.max_redundancy_rate_];
      (destruct (OCO.link_metrics_ (oco_controller_ c)) as [|e l];
       [contradiction|]);
      destruct (OCO.redundancy_rate_to_params _) as [k m];
      cbn [OCO.redundancy_rate];
      match goal with
      | |- context [OCO.estimate_required_redundancy ?o ?x] =>
          generalize (OCO.estimate_required_redundancy o x)
      end;
      intros r; unfold dmax, dmin; split_Qltb; lra.
  - intros He.
    destruct strategy; cbn [OCO.get_strategy_redundancy_range fst snd set_oco
      oco_controller_ OCO.set_redundancy_constraints OCO.link_metrics_];
      now rewrite He.
Qed.

(** *** A stuck group manager silences the sender *)

Lemma get_next_packet_number_keeps (c : MPQUICFECController) (path : Z) :
  group_manager_ (fst (get_next_packet_number c path)) = group_manager_ c
  /\ fec_enabled_ (fst (get_next_packet_number c path)) = fec_enabled_ c
  /\ send_hook_fec_enabled_ (fst (get_next_packet_number c path))
     = send_hook_fec_enabled_ c.
Proof. unfold get_next_packet_number. cbn. auto. Qed.

Lemma send_on_stuck_manager (c : MPQUICFECController) (data : list Z)
  (path now : Z) :
  fec_enabled_ c = true ->
  stuck (group_manager_ c) ->
  fec_enabled_ (fst (send_stream_data c data path now)) = true
  /\ stuck (group_manager_ (fst (send_stream_data c data path now)))
  /\ (snd (send_stream_data c data path now) = Ok []
      \/ exists e, snd (send_stream_data c data path now) = Err e).
Proof.
  intros Hfec Hstuck. unfold send_stream_data. rewrite Hfec. cbn [negb].
  destruct (get_next_packet_number_keeps c path) as (Hgm & Hf & _).
  destruct (get_next_packet_number c path) as [c1 next].
  cbn [fst] in Hgm, Hf. cbv beta iota. rewrite Hgm. unfold on_packet_send.
  destruct (send_hook_fec_enabled_ c1); cbn [negb].
  - set (p := mkPending _ _ _ _).
    destruct (add_to_stuck_manager (group_manager_ c) p now Hstuck)
      as [Hs Hr].
    destruct (add_source_packet (group_manager_ c) p now) as [gm r].
    cbn [fst snd] in Hs, Hr.
    destruct Hr as [-> | [-> | ->]]; cbn; rewrite ?Hf, ?Hfec; eauto.
  - cbn. rewrite Hf, Hfec. auto.
Qed.

Lemma send_all_on_stuck_manager (payloads : list (list Z)) (origin : Z) :
  forall (c : MPQUICFECController)
         (acc : list (result (list SendPacketMeta))),
    fec_enabled_ c = true ->
    stuck (group_manager_ c) ->
    Forall (fun r => r = Ok [] \/ exists e, r = Err e) acc ->
    Forall (fun r => r = Ok [] \/ exists e, r = Err e)
      (snd (fold_left
              (fun acc p =>
                 let '(c', r) := send_stream_data (fst acc) p origin 0 in
                 (c', snd acc ++ [r]))
              payloads (c, acc))).
Proof.
  induction payloads as [|p payloads IH]; intros c acc Hfec Hstuck Hacc;
    [exact Hacc|].
  cbn [fold_left fst snd].
  destruct (send_on_stuck_manager c p origin 0 Hfec Hstuck) as (Hf & Hs & Hr).
  destruct (send_stream_data c p origin 0) as [c' r].
  cbn [fst snd] in *. apply IH; auto.
  apply Forall_app. split; [exact Hacc | now constructor].
Qed.

(** X24.  One payload whose size is not the block size silences the
    sender: with FEC enabled, the call that submits it and every later
    [send_stream_data] call return no packet at all; each of them returns
    the empty list or throws. *)
Theorem wrong_size_payload_silences_sender (c : MPQUICFECController)
  (data : list Z) (path now : Z) (payloads : list (list Z)) (origin : Z) :
  fec_enabled_ c = true ->
  send_hook_fec_enabled_ c = true ->
  encoder_consistent (group_manager_ c) ->
  0 <= current_k_ (group_manager_ c) ->
  len data <> Hook.block_size_ (group_manager_ c) ->
  let first := send_stream_data c data path now in
  (snd first = Ok [] \/ exists e, snd first = Err e)
  /\ Forall (fun r => r = Ok [] \/ exists e, r = Err e)
       (snd (send_all (fst first) payloads origin)).
Proof.
  intros Hfec Hhook Hcons Hk Hlen. cbv zeta.
  assert (H1 : fec_enabled_ (fst (send_stream_data c data path now)) = true
               /\ stuck (group_manager_ (fst (send_stream_data c data path now)))
               /\ (snd (send_stream_data c data path now) = Ok []
                   \/ exists e, snd (send_stream_data c data path now) = Err e)).
  { unfold send_stream_data. rewrite Hfec. cbn [negb].
    destruct (get_next_packet_number_keeps c path) as (Hgm & Hf & Hh).
    destruct (get_next_packet_number c path) as [c1 next].
    cbn [fst] in Hgm, Hf, Hh. cbv beta iota.
    rewrite Hgm, Hh, Hhook. unfold on_packet_send.
    cbn [negb]. set (p := mkPending _ _ _ _).
    destruct (add_wrong_size_packet (group_manager_ c) p now Hcons Hk Hlen)
      as [Hs Hr].
    destruct (add_source_packet (group_manager_ c) p now) as [gm r].
    cbn [fst snd] in Hs, Hr.
    destruct Hr as [-> | [-> | ->]]; cbn; rewrite ?Hf, ?Hfec; eauto. }
  destruct H1 as (Hf1 & Hs1 & Hr1). split; [exact Hr1|].
  unfold send_all. apply send_all_on_stuck_manager; auto.
Qed.

Lemma wrong_size_payload_silences_sender_witness :
  match controller_with_paths 4 2 1200 [good_path 0; good_path 1] with
  | Err _ => True
  | Ok c =>
      Forall (fun r => r = Ok [] \/ exists e, r = Err e)
        (snd (send_all (fst (send_stream_data c (repeat 0 3000) 0 0))
                [block_1200; block_1200; block_1200; block_1200] 0))
  end.
Proof.
  destruct (controller_with_paths 4 2 1200 [good_path 0; good_path 1])
    as [c|e] eqn:E; [|exact I].
  vm_compute in E. injection E as <-.
  match goal with
  | |- context [send_stream_data ?c0 _ _ _] =>
      refine (proj2 (wrong_size_payload_silences_sender c0 (repeat 0 3000) 0 0
                       [block_1200; block_1200; block_1200; block_1200] 0
                       eq_refl eq_refl _ _ _))
  end.
  - repeat split.
  - cbn. lia.
  - vm_compute. congruence.
Defined.

(** *** Sent packets and the packet-number mapper *)

Lemma wrap64_succ_diff (counter pn d n : Z) :
  (counter - pn) mod 2 ^ 64 = d -> 0 <= d <= n -> n + 1 < 2 ^ 64 ->
  (wrap64 (counter + 1) - pn) mod 2 ^ 64 = d + 1.
Proof.
  intros Hd Hr Hn. unfold wrap64. rewrite Zminus_mod_idemp_l.
  replace (counter + 1 - pn) with ((counter - pn) + 1) by lia.
  rewrite <- Zplus_mod_idemp_l, Hd. apply Z.mod_small. lia.
Qed.

(** One frame assigned: the packets handed out so far stay registered, and
    their numbers stay behind the counter of their path. *)
Lemma assign_one_registers (source_path repair_path now : Z)
  (c : MPQUICFECController) (acc : list SendPacketMeta) (f : FECFrame)
  (n : Z) :
  0 <= n -> n + 1 < 2 ^ 64 ->
  Forall (fun meta =>
            find_by_packet (pkt_mapper_ c) (meta_path_id meta)
              (packet_number meta)
            = Some (mkMapping (group_id (header (frame meta)))
                      (block_index (header (frame meta)))
                      (meta_path_id meta) (packet_number meta)
                      (is_repair meta))
            /\ 1 <= (snd (get_next_packet_number c (meta_path_id meta))
                     - packet_number meta) mod 2 ^ 64 <= n) acc ->
  let res := assign_one source_path repair_path now (c, acc) f in
  Forall (fun meta =>
            find_by_packet (pkt_mapper_ (fst res)) (meta_path_id meta)
              (packet_number meta)
            = Some (mkMapping (group_id (header (frame meta)))
                      (block_index (header (frame meta)))
                      (meta_path_id meta) (packet_number meta)
                      (is_repair meta))
            /\ 1 <= (snd (get_next_packet_number (fst res) (meta_path_id meta))
                     - packet_number meta) mod 2 ^ 64 <= n + 1) (snd res).
Proof.
  intros Hn0 Hn Hacc. cbv zeta. unfold assign_one.
  set (path := if is_source_frame f then source_path else repair_path).
  unfold get_next_packet_number at 1.
  set (pn := match zfind path (next_packet_numbers_ c) with
             | Some x => x
             | None => 0
             end).
  cbn [fst snd]. apply Forall_app. split.
  - revert Hacc. apply Forall_impl. intros meta [Hfind Hd].
    unfold find_by_packet, add_mapping, get_next_packet_number in *.
    cbn [pkt_mapper_ next_packet_numbers_ set_mapper_stats set_packet_numbers
         pkt_to_mapping_ fst snd] in *.
    destruct (Z.eq_dec (meta_path_id meta) path) as [Heq | Hne].
    + rewrite Heq in *. fold pn in Hd. fold pn.
      rewrite zfind_zinsert_same. split.
      * rewrite pfind_pinsert_other; [exact Hfind|].
        intros [= Hpn]. rewrite Hpn, Z.sub_diag in Hd.
        rewrite Z.mod_0_l in Hd by lia. lia.
      * rewrite (wrap64_succ_diff pn (packet_number meta) _ n eq_refl);
          lia.
    + rewrite zfind_zinsert_other by exact Hne. split; [|lia].
      rewrite pfind_pinsert_other; [exact Hfind|]. congruence.
  - constructor; [|constructor].
    unfold find_by_packet, add_mapping, get_next_packet_number.
    cbn [pkt_mapper_ next_packet_numbers_ set_mapper_stats set_packet_numbers
         pkt_to_mapping_ fst snd meta_path_id packet_number frame is_repair].
    rewrite pfind_pinsert_same, zfind_zinsert_same. split; [reflexivity|].
    fold pn.
    rewrite (wrap64_succ_diff pn pn 0 n); [lia | | lia | lia].
    rewrite Z.sub_diag. apply Z.mod_0_l. lia.
Qed.

Lemma assign_all_registers (source_path repair_path now : Z)
  (frames : list FECFrame) :
  forall (c : MPQUICFECController) (acc : list SendPacketMeta) (n : Z),
    0 <= n -> n + len frames < 2 ^ 64 ->
    Forall (fun meta =>
              find_by_packet (pkt_mapper_ c) (meta_path_id meta)
                (packet_number meta)
              = Some (mkMapping (group_id (header (frame meta)))
                        (block_index (header (frame meta)))
                        (meta_path_id meta) (packet_number meta)
                        (is_repair meta))
              /\ 1 <= (snd (get_next_packet_number c (meta_path_id meta))
                       - packet_number meta) mod 2 ^ 64 <= n) acc ->
    let res := fold_left (assign_one source_path repair_path now) frames
                 (c, acc) in
    Forall (fun meta =>
              find_by_packet (pkt_mapper_ (fst res)) (meta_path_id meta)
                (packet_number meta)
              = Some (mkMapping (group_id (header (frame meta)))
                        (block_index (header (frame meta)))
                        (meta_path_id meta) (packet_number meta)
                        (is_repair meta))) (snd res).
Proof.
  induction frames as [|f frames IH]; intros c acc n Hn0 Hn Hacc; cbv zeta.
  - cbn [fold_left fst snd]. revert Hacc. apply Forall_impl. tauto.
  - cbn [fold_left].
    assert (Hl : len (f :: frames) = len frames + 1)
      by (unfold len; cbn [length]; lia).
    pose proof (assign_one_registers source_path repair_path now c acc f n
                  Hn0 ltac:(unfold len in *; lia) Hacc) as Hstep.
    cbv zeta in Hstep.
    destruct (assign_one source_path repair_path now (c, acc) f) as [c1 acc1].
    cbn [fst snd] in Hstep. apply (IH c1 acc1 (n + 1)); [lia | lia | exact Hstep].
Qed.

(** X25.  Every packet that [send_stream_data] hands out with FEC enabled
    is registered in the packet-number mapper: looking up its path and
    packet number gives its group, block index and kind, which is what the
    acknowledgement and loss callbacks look for.  With FEC disabled the
    packet handed out is not registered: the mapper is left as it was. *)
Theorem sent_packets_are_registered (c c' : MPQUICFECController)
  (data : list Z) (origin now : Z) (out : list SendPacketMeta) :
  send_stream_data c data origin now = (c', Ok out) ->
  len out < 2 ^ 64 ->
  (fec_enabled_ c = true ->
   Forall (fun meta =>
             find_by_packet (pkt_mapper_ c') (meta_path_id meta)
               (packet_number meta)
             = Some (mkMapping (group_id (header (frame meta)))
                       (block_index (header (frame meta)))
                       (meta_path_id meta) (packet_number meta)
                       (is_repair meta))) out)
  /\ (fec_enabled_ c = false -> pkt_mapper_ c' = pkt_mapper_ c).
Proof.
  intros Hsend Hlen. unfold send_stream_data in Hsend. split.
  - intros Hfec. rewrite Hfec in Hsend. cbn [negb] in Hsend.
    destruct (get_next_packet_number c origin) as [c1 next].
    destruct (on_packet_send _ _ _ _ _ _) as [gm [[has frames]|e]];
      [|discriminate].
    destruct (has && negb (len frames =? 0));
      [|injection Hsend as _ <-; constructor].
    unfold assign_packets_to_paths in Hsend.
    destruct (Scheduler.select_source_path _ _) as [sp|e]; [|discriminate].
    destruct (Scheduler.select_repair_path _ _ _) as [rp|e]; [|discriminate].
    pose proof (frames_of_assignment sp rp now frames
                  (set_group_manager c1 gm) []) as Hfr.
    pose proof (assign_all_registers sp rp now frames
                  (set_group_manager c1 gm) [] 0) as Hreg.
    cbv zeta in Hreg.
    destruct (fold_left _ frames _) as [c2 out'].
    cbn [fst snd map app] in Hfr, Hreg. injection Hsend as <- <-.
    apply Hreg; [lia | | constructor].
    rewrite <- Hfr. unfold len in *. now rewrite length_map.
  - intros Hfec. rewrite Hfec in Hsend. cbn [negb] in Hsend.
    unfold get_next_packet_number in Hsend. injection Hsend as <- _.
    reflexivity.
Qed.

Lemma sent_packets_are_registered_witness :
  match controller_with_paths 2 1 4 [good_path 0; good_path 1] with
  | Err _ => True
  | Ok c0 =>
      let c := fst (send_stream_data c0 [1; 2; 3; 4] 0 0) in
      let res := send_stream_data c [5; 6; 7; 8] 0 0 in
      match snd res with
      | Err _ => False
      | Ok out =>
          len out = 3
          /\ Forall (fun meta =>
                       find_by_packet (pkt_mapper_ (fst res))
                         (meta_path_id meta) (packet_number meta)
                       = Some (mkMapping (group_id (header (frame meta)))
                                 (block_index (header (frame meta)))
                                 (meta_path_id meta) (packet_number meta)
                                 (is_repair meta))) out
      end
  end.
Proof.
  destruct (controller_with_paths 2 1 4 [good_path 0; good_path 1])
    as [c0|e] eqn:E; [|exact I].
  vm_compute in E. injection E as <-. cbv zeta.
  match goal with
  | |- match snd (send_stream_data ?c ?d ?o ?t) with _ => _ end =>
      destruct (send_stream_data c d o t) as [c' r] eqn:Es;
      assert (Hr : exists out, r = Ok out /\ len out = 3)
        by (vm_compute in Es; injection Es as _ <-; eexists;
            split; reflexivity);
      destruct Hr as (out & -> & Hl);
      pose proof (sent_packets_are_registered c c' d o t out Es) as T
  end.
  cbn [fst snd]. split; [exact Hl|].
  apply T; [rewrite Hl; reflexivity | reflexivity].
Defined.

(** *** Parameter updates *)

Lemma flush_keeps_params (gm : FECGroupManager) (now : Z) :
  get_coding_params (fst (flush_pending_groups gm now)) = get_coding_params gm.
Proof.
  unfold flush_pending_groups.
  destruct (source_packets (current_group_ gm)); [reflexivity|].
  destruct (perform_encoding _ _); reflexivity.
Qed.

Lemma update_coding_params_sets (gm : FECGroupManager) (k m now : Z) :
  get_coding_params (fst (update_coding_params gm k m now)) = (k, m).
Proof.
  unfold update_coding_params.
  destruct (Z.eqb_spec k (current_k_ gm)) as [-> | Hk];
    [destruct (Z.eqb_spec m (current_m_ gm)) as [-> | Hm]|]; cbn [negb orb];
    try reflexivity;
    (destruct (Codec.new_encoder _ _ _) as [enc|e]; [|reflexivity];
     match goal with
     | |- context [flush_pending_groups ?g now] =>
         pose proof (flush_keeps_params g now) as Hf;
         destruct (flush_pending_groups g now) as [gm3 [ids|e]];
         exact Hf
     end).
Qed.

Lemma decision_bounds (o : OCO.OCORedundancyController) :
  1 <= OCO.m (OCO.compute_optimal_redundancy o)
  <= OCO.k (OCO.compute_optimal_redundancy o).
Proof.
  unfold OCO.compute_optimal_redundancy.
  destruct (OCO.link_metrics_ o); [cbn; lia|].
  match goal with
  | |- context [OCO.redundancy_rate_to_params ?r] =>
      pose proof (redundancy_rate_to_params_bounds r) as H;
      destruct (OCO.redundancy_rate_to_params r) as [k m]
  end.
  exact H.
Qed.

(** X26.  After [update_fec_parameters], whether it returns or throws,
    the controller's current decision is the one just computed and the
    group manager's [(k, m)] are those of that decision. *)
Theorem parameters_follow_decision (c : MPQUICFECController) (now : Z) :
  let d := OCO.compute_optimal_redundancy (oco_controller_ c) in
  let c' := fst (update_fec_parameters c now) in
  current_decision_ c' = d
  /\ get_coding_params (group_manager_ c') = (OCO.k d, OCO.m d).
Proof.
  cbv zeta. unfold update_fec_parameters.
  set (d := OCO.compute_optimal_redundancy (oco_controller_ c)).
  cbn [get_coding_params set_decision group_manager_].
  destruct (Z.eqb_spec (current_k_ (group_manager_ c)) (OCO.k d)) as [Hk | Hk];
    [destruct (Z.eqb_spec (current_m_ (group_manager_ c)) (OCO.m d))
       as [Hm | Hm]|]; cbn [negb orb].
  - cbn [fst set_decision current_decision_ group_manager_ get_coding_params].
    split; [reflexivity | unfold get_coding_params; now rewrite Hk, Hm].
  - pose proof (update_coding_params_sets (group_manager_ c) (OCO.k d)
                  (OCO.m d) now) as Hs.
    destruct (update_coding_params _ _ _ _) as [gm [u|e]]; cbn in *; auto.
  - pose proof (update_coding_params_sets (group_manager_ c) (OCO.k d)
                  (OCO.m d) now) as Hs.
    destruct (update_coding_params _ _ _ _) as [gm [u|e]]; cbn in *; auto.
Qed.

(** X27.  When the decision computed by a due [periodic_update] has a [k]
    below the number of packets pending in the current group, the call
    throws "Expected k blocks", leaves the time of the last update as it
    was, and leaves the group manager stuck. *)
Theorem smaller_k_decision_wedges_sender (c : MPQUICFECController)
  (now : Z) :
  let d := OCO.compute_optimal_redundancy (oco_controller_ c) in
  let pending := source_packets (current_group_ (group_manager_ c)) in
  100 <= wrap64 (now - last_update_time_us_ c) / 1000 ->
  OCO.k d < len pending ->
  len pending <= current_k_ (group_manager_ c) ->
  let res := periodic_update c now in
  snd res = Err Expected_k_blocks
  /\ stuck (group_manager_ (fst res))
  /\ last_update_time_us_ (fst res) = last_update_time_us_ c.
Proof.
  cbv zeta. intros Hdue Hsmall Hpend. unfold periodic_update.
  destruct (Z.ltb_spec (wrap64 (now - last_update_time_us_ c) / 1000) 100)
    as [H|_]; [lia|].
  unfold update_fec_parameters.
  set (d := OCO.compute_optimal_redundancy (oco_controller_ c)) in *.
  pose proof (decision_bounds (oco_controller_ c)) as Hb. fold d in Hb.
  cbn [get_coding_params set_decision group_manager_].
  assert (Hne : negb (current_k_ (group_manager_ c) =? OCO.k d)
                || negb (current_m_ (group_manager_ c) =? OCO.m d) = true).
  { destruct (Z.eqb_spec (current_k_ (group_manager_ c)) (OCO.k d));
      [lia | reflexivity]. }
  rewrite Hne.
  assert (Hupd : update_coding_params (group_manager_ c) (OCO.k d) (OCO.m d) now
                 = (set_current_group
                      (mkManager (OCO.k d) (OCO.m d)
                         (Hook.block_size_ (group_manager_ c))
                         (Codec.mkEncoder (OCO.k d) (OCO.m d)
                            (Hook.block_size_ (group_manager_ c)))
                         (current_group_ (group_manager_ c))
                         (encoded_groups_ (group_manager_ c))
                         (next_group_id_ (group_manager_ c)))
                      (pad_group
                         (mkManager (OCO.k d) (OCO.m d)
                            (Hook.block_size_ (group_manager_ c))
                            (Codec.mkEncoder (OCO.k d) (OCO.m d)
                               (Hook.block_size_ (group_manager_ c)))
                            (current_group_ (group_manager_ c))
                            (encoded_groups_ (group_manager_ c))
                            (next_group_id_ (group_manager_ c)))
                         (current_group_ (group_manager_ c)) now),
                    Err Expected_k_blocks)).
  { unfold update_coding_params.
    replace (negb (OCO.k d =? current_k_ (group_manager_ c))
             || negb (OCO.m d =? current_m_ (group_manager_ c))) with true
      by (rewrite (Z.eqb_sym (OCO.k d)), (Z.eqb_sym (OCO.m d)); now rewrite Hne).
    unfold Codec.new_encoder.
    destruct (Z.eqb_spec (OCO.k d) 0); [lia|].
    destruct (Z.eqb_spec (OCO.m d) 0); [lia|]. cbn [orb].
    rewrite flush_overfull; [reflexivity | repeat split | exact Hsmall
                            | cbn; lia]. }
  rewrite Hupd. cbn [fst snd set_group_manager group_manager_
                     last_update_time_us_ set_decision].
  split; [reflexivity|]. split; [|reflexivity].
  split; [repeat split|]. split; [cbn; lia|]. left.
  unfold set_current_group, pad_group, len in *.
  cbn [current_k_ current_group_ source_packets]. rewrite length_app. lia.
Qed.

Lemma smaller_k_decision_wedges_sender_witness :
  match controller_with_paths 10 2 4 [lossy_path 0] with
  | Err _ => True
  | Ok c0 =>
      let c :=
        fst (send_all c0
               [[1; 2; 3; 4]; [1; 2; 3; 4]; [1; 2; 3; 4]; [1; 2; 3; 4];
                [1; 2; 3; 4]] 0) in
      snd (periodic_update c 200000) = Err Expected_k_blocks
      /\ stuck (group_manager_ (fst (periodic_update c 200000)))
  end.
Proof.
  destruct (controller_with_paths 10 2 4 [lossy_path 0]) as [c0|e] eqn:E;
    [|exact I].
  vm_compute in E. injection E as <-. cbv zeta.
  match goal with
  | |- context [periodic_update ?c 200000] =>
      destruct (smaller_k_decision_wedges_sender c 200000) as (H1 & H2 & _)
  end.
  - vm_compute. congruence.
  - vm_compute. reflexivity.
  - vm_compute. congruence.
  - split; assumption.
Defined.

End ControllerMore.
